(** * Ralphy: the retry envelope, the markdown task source and the
      parallel orchestrator, embedded from the sources

    The development follows the repository:
    - [Retry]    : cli/src/execution/retry.ts
    - [Markdown] : cli/src/tasks/markdown.ts
    - [Git]      : the part of git's behaviour ralphy.sh relies on
    - [Ralphy]   : ralphy.sh (worktree cleanup, agent runner, batch
                   scheduler, group integration, final reconciliation)

    Definitions come first, the theorems about them afterwards. *)

From Stdlib Require Import ZArith QArith Qround Qminmax Qpower.
From Stdlib Require Import String Ascii List Lia Lqa Bool DecimalString.
From Stdlib Require Import Sorted.
From Stdlib Require DecimalNat DecimalZ DecimalPos.
From stdpp Require Import base list strings gmap.
Import ListNotations.

(* ===================================================================== *)
(** ** cli/src/execution/retry.ts *)
(* ===================================================================== *)

Module Retry.

Local Open Scope Q_scope.

(** JavaScript numbers are read as exact rationals: the delays handled
    here are millisecond counts far below 2^53, where doubles are exact
    on the integers.  [random] is the value that [Math.random()] returns
    when it is called, a number in [0, 1). *)
Definition calculateBackoffDelay
    (attempt : Z) (baseDelayMs maxDelayMs : Q) (useJitter : bool)
    (random : Q) : Z :=
  (* Exponential backoff: baseDelay * 2^(attempt-1) *)
  let delay := baseDelayMs * Qpower 2 (attempt - 1) in
  (* Cap at maximum delay *)
  let delay := Qmin delay maxDelayMs in
  (* Add jitter (0-25% of delay) *)
  let delay := if useJitter then delay + delay * (1 # 4) * random else delay in
  Qfloor delay.

(** An [Error] instance, and a thrown value: either an [Error] or some
    other value, of which only [String(value)] matters. *)
Record JSError := { message : string }.

Inductive JSValue :=
  | VError (e : JSError)
  | VOther (str : string).

(** [error instanceof Error ? error : new Error(String(error))] *)
Definition asError (v : JSValue) : JSError :=
  match v with
  | VError e => e
  | VOther s => {| message := s |}
  end.

Inductive Outcome (T : Type) :=
  | Resolved (v : T)
  | Rejected (e : JSValue).
Arguments Resolved {T} v.
Arguments Rejected {T} e.

(** [maxRetries] is a count and is kept an integer.  [onRetry] records
    whether the optional callback was supplied; the callback is opaque,
    its invocations are recorded in the trace. *)
Record RetryOptions := {
  maxRetries : Z;
  retryDelay : Q;
  onRetry : bool;
  exponentialBackoff : option bool;
  maxDelay : option Q;
  jitter : option bool
}.

(** What [withRetry] does that the outside can see, in order. *)
Inductive Event :=
  | EvCall (attempt : Z)                                 (* await fn() *)
  | EvLogWarn (attempt maxRetries : Z) (errorMsg : string)
  | EvOnRetry (attempt : Z) (errorMsg : string) (delayMs : Q)
  | EvLogDebug (delayMs : Q)
  | EvSleep (delayMs : Q).

Section WithRetry.
Context {T : Type}.
(** The wrapped operation takes no argument; [withRetry] sees of it
    only the outcome of each invocation, given here by the number of
    the attempt that makes it.  [random k] is the value drawn by
    [Math.random()] during attempt [k]. *)
Variable fn : Z -> Outcome T.
Variable options : RetryOptions.
Variable random : Z -> Q.

Definition baseDelayMs : Q := retryDelay options * 1000.
Definition maxDelayMs : Q := default 60 (maxDelay options) * 1000.

Definition delayFor (attempt : Z) : Q :=
  if default true (exponentialBackoff options)
  then inject_Z (calculateBackoffDelay attempt baseDelayMs maxDelayMs
                   (default true (jitter options)) (random attempt))
  else baseDelayMs.

(** The body of the [catch] block when [attempt < maxRetries]. *)
Definition backoff (attempt : Z) (lastError : JSError) : list Event :=
  let errorMsg := message lastError in
  let delayMs := delayFor attempt in
  [EvLogWarn attempt (maxRetries options) errorMsg]
  ++ (if onRetry options then [EvOnRetry attempt errorMsg delayMs] else [])
  ++ [EvLogDebug delayMs; EvSleep delayMs].

(** [for (let attempt = 1; attempt <= maxRetries; attempt++)]; the
    fuel bounds the number of iterations and [None] means it ran out. *)
Fixpoint retryLoop (fuel : nat) (attempt : Z) (lastError : option JSError)
    (trace : list Event) : option (Outcome T * list Event) :=
  match fuel with
  | O => None
  | S fuel' =>
    if (attempt <=? maxRetries options)%Z then
      match fn attempt with
      | Resolved v => Some (Resolved v, trace ++ [EvCall attempt])
      | Rejected error =>
        let lastError := asError error in
        let trace := trace ++ [EvCall attempt] in
        let trace :=
          if (attempt <? maxRetries options)%Z
          then trace ++ backoff attempt lastError
          else trace in
        retryLoop fuel' (attempt + 1) (Some lastError) trace
      end
    else
      (* throw lastError || new Error("All retry attempts failed") *)
      Some (Rejected (VError
              (default {| message := "All retry attempts failed" |} lastError)),
            trace)
  end.

Definition withRetry : option (Outcome T * list Event) :=
  retryLoop (S (Z.to_nat (maxRetries options))) 1 None [].
End WithRetry.

(** ASCII case folding, as the [i] flag does on these patterns. *)
Definition lowerAscii (c : ascii) : ascii :=
  let n := nat_of_ascii c in
  if (65 <=? n)%nat && (n <=? 90)%nat then ascii_of_nat (n + 32) else c.

Fixpoint toLower (s : string) : string :=
  match s with
  | EmptyString => EmptyString
  | String c s' => String (lowerAscii c) (toLower s')
  end.

(** [pattern.test(s)] for a pattern that is a plain word. *)
Fixpoint contains (pat s : string) : bool :=
  String.prefix pat s ||
  match s with
  | EmptyString => false
  | String _ s' => contains pat s'
  end.

Definition containsNoCase (pat s : string) : bool :=
  contains (toLower pat) (toLower s).

Definition isRetryableError (error : string) : bool :=
  existsb (fun test => test error)
    [ containsNoCase "rate limit";
      containsNoCase "rate_limit";
      containsNoCase "hit your limit";
      containsNoCase "quota";
      containsNoCase "too many requests";
      contains "429";
      containsNoCase "timeout";
      containsNoCase "network";
      containsNoCase "connection";
      contains "ECONNRESET";
      contains "ETIMEDOUT";
      contains "ENOTFOUND";
      containsNoCase "overloaded" ].

(** *** Observations on a trace, used to state the properties *)

(** The attempt numbers of the invocations of the operation, in order. *)
Definition calls (trace : list Event) : list Z :=
  omap (fun e => match e with EvCall k => Some k | _ => None end) trace.

(** The arguments of the invocations of the callback, in order. *)
Definition onRetryCalls (trace : list Event) : list (Z * string * Q) :=
  omap (fun e => match e with
                 | EvOnRetry k msg d => Some (k, msg, d)
                 | _ => None
                 end) trace.

Definition sleeps (trace : list Event) : list Q :=
  omap (fun e => match e with EvSleep d => Some d | _ => None end) trace.

(** An event with the error message blanked: what is left is the
    control flow (which attempt, which delay). *)
Definition control (e : Event) : Event :=
  match e with
  | EvLogWarn k n _ => EvLogWarn k n ""
  | EvOnRetry k _ d => EvOnRetry k "" d
  | _ => e
  end.

(** The operation that fails at every invocation, attempt [k] throwing
    [errs k]. *)
Definition alwaysFails {T : Type} (errs : Z -> JSValue) : Z -> Outcome T :=
  fun k => Rejected (errs k).

(** What one failed attempt leaves in the trace. *)
Definition failedAttempt (options : RetryOptions) (random : Z -> Q)
    (errs : Z -> JSValue) (k : Z) : list Event :=
  EvCall k ::
  (if (k <? maxRetries options)%Z
   then backoff options random k (asError (errs k)) else []).

(** What the attempts [a], [a + 1], ... [a + len - 1] of [fn] leave in
    the trace when each of them fails and is followed by a backoff. *)
Definition retried {T : Type} (fn : Z -> Outcome T) (options : RetryOptions)
    (random : Z -> Q) (a len : Z) : list Event :=
  flat_map (fun k => EvCall k :: backoff options random k
                       (asError (match fn k with
                                 | Rejected e => e
                                 | Resolved _ => VOther ""
                                 end)))
    (seqZ a len).

End Retry.

(* ===================================================================== *)
(** ** cli/src/tasks/markdown.ts *)
(* ===================================================================== *)

Module Markdown.

Local Open Scope string_scope.

(** A character is a UTF-16 code unit below 256; the functions of this
    file only tell apart characters of the ASCII range. *)
Definition LF : ascii := "010"%char.
Definition CR : ascii := "013"%char.

Definition isChar (a b : ascii) : bool := Ascii.eqb a b.

(** [.replace(/\r\n/g, "\n")] *)
Fixpoint replaceCRLF (s : string) : string :=
  match s with
  | EmptyString => EmptyString
  | String c rest =>
    match rest with
    | String c' s' =>
      if isChar c CR && isChar c' LF
      then String LF (replaceCRLF s')
      else String c (replaceCRLF rest)
    | EmptyString => String c EmptyString
    end
  end.

(** [.replace(/\r/g, "\n")] *)
Fixpoint replaceCR (s : string) : string :=
  match s with
  | EmptyString => EmptyString
  | String c s' => String (if isChar c CR then LF else c) (replaceCR s')
  end.

(** The file system as this class sees it: the one file at [filePath],
    its bytes and its modification time. *)
Record File := { data : string; mtimeMs : Z }.

Definition readFileNormalized (f : File) : string :=
  replaceCR (replaceCRLF (data f)).

(** [content.split("\n")]: never the empty list. *)
Fixpoint split (s : string) : list string :=
  match s with
  | EmptyString => [EmptyString]
  | String c s' =>
    if isChar c LF then EmptyString :: split s'
    else match split s' with
         | line :: rest => String c line :: rest
         | [] => [String c EmptyString]
         end
  end.

(** [lines.join("\n")] *)
Fixpoint join (lines : list string) : string :=
  match lines with
  | [] => EmptyString
  | [line] => line
  | line :: rest => line ++ String LF (join rest)
  end.

Record Task := { id : string; title : string; completed : bool }.

Record CachedContent := {
  content : string;
  lines : list string;
  incompleteTasks : list Task;
  remainingCount : nat;
  completedCount : nat;
  fileMtime : Z
}.

(** The instance: its only mutable field is the cache. *)
Record MarkdownTaskSource := { cache : option CachedContent }.

Definition getFileMtime (f : File) : Z := mtimeMs f.

(** White space as [trim] and [parseInt] skip it, below 256. *)
Definition isWhiteSpace (c : ascii) : bool :=
  let n := nat_of_ascii c in
  ((9 <=? n)%nat && (n <=? 13)%nat) || (n =? 32)%nat || (n =? 160)%nat.

Fixpoint trimStart (s : string) : string :=
  match s with
  | String c s' => if isWhiteSpace c then trimStart s' else s
  | EmptyString => EmptyString
  end.

Fixpoint trimEnd (s : string) : string :=
  match s with
  | EmptyString => EmptyString
  | String c s' =>
    match trimEnd s' with
    | EmptyString => if isWhiteSpace c then EmptyString else String c EmptyString
    | t => String c t
    end
  end.

Definition trim (s : string) : string := trimEnd (trimStart s).

(** [String(n)] for a natural number. *)
Definition stringOfNat (n : nat) : string :=
  DecimalString.NilZero.string_of_uint (Nat.to_uint n).

Definition dropPrefix (n : nat) (s : string) : string :=
  String.substring n (String.length s - n) s.

(** [line.match(/^- \[ \] (.+)$/)]: the captured group, if the line
    matches.  A line holds no line terminator, so [.+] is any non-empty
    rest. *)
Definition incompleteMatch (line : string) : option string :=
  if String.prefix "- [ ] " line then
    match dropPrefix 6 line with
    | EmptyString => None
    | rest => Some rest
    end
  else None.

(** [/^- \[x\] /i.test(line)] *)
Definition completedTest (line : string) : bool :=
  String.prefix "- [x] " line || String.prefix "- [X] " line.

(** The loop of [loadCache] over the lines, from index [i]. *)
Fixpoint scanLines (i : nat) (ls : list string)
    (incompleteTasks : list Task) (remainingCount completedCount : nat)
    : list Task * nat * nat :=
  match ls with
  | [] => (incompleteTasks, remainingCount, completedCount)
  | line :: ls' =>
    let '(incompleteTasks, remainingCount) :=
      match incompleteMatch line with
      | Some m =>
        ((incompleteTasks ++
            [{| id := stringOfNat (i + 1); title := trim m;
                completed := false |}])%list,
         S remainingCount)
      | None => (incompleteTasks, remainingCount)
      end in
    let completedCount :=
      if completedTest line then S completedCount else completedCount in
    scanLines (S i) ls' incompleteTasks remainingCount completedCount
  end.

Definition loadCache (f : File) : CachedContent * MarkdownTaskSource :=
  let fileMtime := getFileMtime f in
  let content := readFileNormalized f in
  let lines := split content in
  let '(incompleteTasks, remainingCount, completedCount) :=
    scanLines 0 lines [] 0 0 in
  let c := {| content := content; lines := lines;
              incompleteTasks := incompleteTasks;
              remainingCount := remainingCount;
              completedCount := completedCount;
              fileMtime := fileMtime |} in
  (c, {| cache := Some c |}).

Definition getCache (f : File) (this : MarkdownTaskSource)
    : CachedContent * MarkdownTaskSource :=
  match cache this with
  | None => loadCache f
  | Some c =>
    (* Check if file was modified externally *)
    let currentMtime := getFileMtime f in
    if negb (currentMtime =? fileMtime c)%Z then loadCache f
    else (c, this)
  end.

Definition invalidateCache (this : MarkdownTaskSource) : MarkdownTaskSource :=
  {| cache := None |}.

Definition isDigit (c : ascii) : bool :=
  let n := nat_of_ascii c in (48 <=? n)%nat && (n <=? 57)%nat.

(** The value of the longest prefix of decimal digits, and whether there
    was any digit. *)
Fixpoint parseDigits (s : string) (acc : Z) (seen : bool) : option Z :=
  match s with
  | String c s' =>
    if isDigit c
    then parseDigits s' (10 * acc + (Z.of_nat (nat_of_ascii c) - 48)) true
    else if seen then Some acc else None
  | EmptyString => if seen then Some acc else None
  end.

(** [Number.parseInt(s, 10)]; [None] is NaN. *)
Definition parseInt (s : string) : option Z :=
  match trimStart s with
  | String "-" s' => Z.opp <$> parseDigits s' 0 false
  | String "+" s' => parseDigits s' 0 false
  | s' => parseDigits s' 0 false
  end.

(** [line.replace(/^- \[ \] /, "- [x] ")] *)
Definition checkOff (line : string) : string :=
  if String.prefix "- [ ] " line then "- [x] " ++ dropPrefix 6 line else line.

(** [markComplete(id)]; [now] is the modification time the file gets
    if it is written. *)
Definition markComplete (id : string) (now : Z)
    (f : File) (this : MarkdownTaskSource) : File * MarkdownTaskSource :=
  (* Force fresh read for modification to avoid stale data *)
  let this := invalidateCache this in
  let content := readFileNormalized f in
  let lines := split content in
  match parseInt id with
  | Some parsed =>
    let lineNumber := (parsed - 1)%Z in
    if (0 <=? lineNumber)%Z && (lineNumber <? Z.of_nat (List.length lines))%Z then
      let i := Z.to_nat lineNumber in
      let lines := <[i := checkOff (default EmptyString (lines !! i))]> lines in
      ({| data := join lines; mtimeMs := now |}, invalidateCache this)
    else (f, this)
  | None => (f, this)   (* NaN compares false *)
  end.

Definition countRemaining (f : File) (this : MarkdownTaskSource)
    : nat * MarkdownTaskSource :=
  let '(c, this) := getCache f this in (remainingCount c, this).

Definition countCompleted (f : File) (this : MarkdownTaskSource)
    : nat * MarkdownTaskSource :=
  let '(c, this) := getCache f this in (completedCount c, this).

(** [getAllTasks()]: a copy of the cached list of incomplete tasks. *)
Definition getAllTasks (f : File) (this : MarkdownTaskSource)
    : list Task * MarkdownTaskSource :=
  let '(c, this) := getCache f this in (incompleteTasks c, this).

(** [getNextTask()]: [cache.incompleteTasks[0] || null] *)
Definition getNextTask (f : File) (this : MarkdownTaskSource)
    : option Task * MarkdownTaskSource :=
  let '(c, this) := getCache f this in (head (incompleteTasks c), this).

(** *** Notions used to state the properties *)

(** The cache, when there is one, is what [loadCache] computes from the
    file as it is now.  It holds of a new instance and is kept by every
    method; only a write from outside that keeps the modification time
    could break it. *)
Definition cacheCoherent (f : File) (this : MarkdownTaskSource) : Prop :=
  match cache this with
  | None => True
  | Some c => c = fst (loadCache f)
  end.

(** The lines of the file as the class reads them. *)
Definition fileLines (f : File) : list string := split (readFileNormalized f).

(** [c] does not occur in [s]. *)
Fixpoint without (c : ascii) (s : string) : Prop :=
  match s with
  | EmptyString => True
  | String c' s' => isChar c' c = false /\ without c s'
  end.

(** The number of lines that count as completed tasks. *)
Fixpoint completedLines (ls : list string) : nat :=
  match ls with
  | [] => 0
  | l :: ls' => (if completedTest l then 1 else 0) + completedLines ls'
  end.

(** The lines a call leaves in the file. *)
Definition markedLines (i : nat) (ls : list string) : list string :=
  <[i := checkOff (default EmptyString (ls !! i))]> ls.

(** The open tasks among lines numbered from [i + 1] on. *)
Fixpoint openTasks (i : nat) (ls : list string) : list Task :=
  match ls with
  | [] => []
  | line :: ls' =>
    match incompleteMatch line with
    | Some m =>
      {| id := stringOfNat (i + 1); title := trim m; completed := false |}
      :: openTasks (S i) ls'
    | None => openTasks (S i) ls'
    end
  end.

(** The line numbers of the open tasks, from [i + 1] on. *)
Fixpoint openNumbers (i : nat) (ls : list string) : list nat :=
  match ls with
  | [] => []
  | line :: ls' =>
    match incompleteMatch line with
    | Some _ => (i + 1) :: openNumbers (S i) ls'
    | None => openNumbers (S i) ls'
    end
  end.

(** The text [s] saved with Windows line endings. *)
Fixpoint toCRLF (s : string) : string :=
  match s with
  | EmptyString => EmptyString
  | String c s' =>
    if isChar c LF then String CR (String LF (toCRLF s'))
    else String c (toCRLF s')
  end.

(** A sequence of [markComplete] calls, each with its id and its write
    time. *)
Fixpoint markAll (calls : list (string * Z))
    (f : File) (this : MarkdownTaskSource) : File * MarkdownTaskSource :=
  match calls with
  | [] => (f, this)
  | (id, now) :: calls' =>
    let '(f, this) := markComplete id now f this in
    markAll calls' f this
  end.

End Markdown.

(* ===================================================================== *)
(** ** git, as ralphy.sh uses it *)
(* ===================================================================== *)

Module Git.

(** The refs of the primary repository.  A branch is known by the
    changes reachable from its tip, named after the agent branches that
    brought them: enough to say what a merge adds and what is merged.
    [MERGE_HEAD] and [unmerged] are the state of a merge that stopped on
    conflicts.  Which worktree has which branch checked out is not part
    of this record, and the refusals of git that depend on it are not
    modelled. *)
Definition Tip := list string.

Record Repo := {
  branches : gmap string Tip;
  HEAD : option string;          (* the branch checked out, if any *)
  MERGE_HEAD : option string;    (* the branch of an unfinished merge *)
  unmerged : list string         (* the files still in conflict *)
}.

Inductive Cmd :=
  | branch (name start : string)   (* git branch <name> <start> *)
  | branch_D (name : string)       (* git branch -D <name> *)
  | branch_d (name : string)       (* git branch -d <name> *)
  | checkout (name : string)       (* git checkout <name> *)
  | merge (name : string)          (* git merge --no-edit <name> *)
  | merge_abort.                   (* git merge --abort *)

Definition merged_in (theirs ours : Tip) : bool :=
  forallb (fun c => bool_decide (c ∈ ours)) theirs.

Definition union (ours theirs : Tip) : Tip :=
  ours ++ List.filter (fun c => negb (bool_decide (c ∈ ours))) theirs.

Section Semantics.
(** [conflicts ours theirs]: the files on which merging [theirs] into
    [ours] conflicts; none when the merge is clean. *)
Variable conflicts : Tip -> Tip -> list string.

(** The exit status ([true] for 0) and the repository afterwards. *)
Definition run (c : Cmd) (r : Repo) : bool * Repo :=
  match c with
  | branch name start =>
    match branches r !! name, branches r !! start with
    | None, Some tip =>
      (true, {| branches := <[name := tip]> (branches r); HEAD := HEAD r;
                MERGE_HEAD := MERGE_HEAD r; unmerged := unmerged r |})
    | _, _ => (false, r)       (* the name is taken, or no such start *)
    end
  | branch_D name =>
    match branches r !! name with
    | Some _ =>
      (true, {| branches := delete name (branches r); HEAD := HEAD r;
                MERGE_HEAD := MERGE_HEAD r; unmerged := unmerged r |})
    | None => (false, r)
    end
  | branch_d name =>
    match branches r !! name, HEAD r ≫= (fun h => branches r !! h) with
    | Some tip, Some ours =>
      if merged_in tip ours then
        (true, {| branches := delete name (branches r); HEAD := HEAD r;
                  MERGE_HEAD := MERGE_HEAD r; unmerged := unmerged r |})
      else (false, r)          (* not fully merged *)
    | _, _ => (false, r)
    end
  | checkout name =>
    match branches r !! name with
    | Some _ =>
      (true, {| branches := branches r; HEAD := Some name;
                MERGE_HEAD := MERGE_HEAD r; unmerged := unmerged r |})
    | None => (false, r)
    end
  | merge name =>
    match MERGE_HEAD r, HEAD r with
    | None, Some h =>
      match branches r !! h, branches r !! name with
      | Some ours, Some theirs =>
        if merged_in theirs ours then (true, r)   (* already up to date *)
        else
          match conflicts ours theirs with
          | [] =>
            (true, {| branches := <[h := union ours theirs]> (branches r);
                      HEAD := HEAD r; MERGE_HEAD := None; unmerged := [] |})
          | files =>
            (false, {| branches := branches r; HEAD := HEAD r;
                       MERGE_HEAD := Some name; unmerged := files |})
          end
      | _, _ => (false, r)
      end
    | _, _ => (false, r)   (* a merge is not concluded, or no branch is out *)
    end
  | merge_abort =>
    match MERGE_HEAD r with
    | Some _ =>
      (true, {| branches := branches r; HEAD := HEAD r;
                MERGE_HEAD := None; unmerged := [] |})
    | None => (false, r)       (* there is no merge to abort *)
    end
  end.
End Semantics.

End Git.

(* ===================================================================== *)
(** ** ralphy.sh: parallel task execution *)
(* ===================================================================== *)

Module Ralphy.

Inductive Source := markdown | yaml | github.

(** [[ "$PRD_SOURCE" == "yaml" ]] *)
Definition is_yaml (s : Source) : bool :=
  match s with
  | yaml => true
  | _ => false
  end.

(** The options of the run that the parallel mode reads. *)
Record Config := {
  MAX_PARALLEL : Z;
  MAX_ITERATIONS : Z;       (* 0 = unlimited *)
  MAX_RETRIES : Z;
  PRD_SOURCE : Source;
  CREATE_PR : bool;
  WORKTREE_BASE : string
}.

(** A worktree directory: the branch checked out in it, the commits
    made there since it was created from the base
    ([git rev-list --count "$BASE_BRANCH"..HEAD]) and whether
    [git status --porcelain] prints anything. *)
Record Worktree := {
  wt_branch : string;
  wt_commits : nat;
  wt_dirty : bool
}.

(** One run of the engine CLI in a worktree: its exit status, the
    output as [result=$(cat "$tmpfile")] captures it, and what it left
    in the worktree. *)
Record Invocation := {
  exit_status : Z;
  result : string;
  new_commits : nat;
  dirty_after : bool
}.

(** What the script does to the outside, in order. *)
Inductive Event :=
  | Echo (text : string)                       (* a line on the terminal *)
  | Append (file text : string)                (* echo ... >> "$file" *)
  | Git (c : Git.Cmd) (ok : bool)              (* a git command, primary checkout *)
  | WorktreeAdd (dir name : string)            (* git worktree add *)
  | WorktreeRemove (dir : string)              (* git worktree remove *)
  | Engine (dir : string) (retry : Z)          (* the engine CLI on a task *)
  | Resolve (files : list string)              (* the engine CLI on conflicts *)
  | MarkComplete (source : Source) (task : string)
  | PullRequest (name : string)                (* git push; gh pr create *)
  | Sleep.

(** The shell variables shared across the functions, the repository
    and the worktree directories. *)
Record World := {
  repo : Git.Repo;
  worktrees : gmap string Worktree;
  BASE_BRANCH : string;
  ORIGINAL_BASE_BRANCH : string;
  integration_branches : list string;
  total_input_tokens : Z;
  total_output_tokens : Z;
  trace : list Event
}.

Definition set_repo (r : Git.Repo) (w : World) : World :=
  {| repo := r; worktrees := worktrees w; BASE_BRANCH := BASE_BRANCH w;
     ORIGINAL_BASE_BRANCH := ORIGINAL_BASE_BRANCH w;
     integration_branches := integration_branches w;
     total_input_tokens := total_input_tokens w;
     total_output_tokens := total_output_tokens w; trace := trace w |}.

Definition set_worktrees (m : gmap string Worktree) (w : World) : World :=
  {| repo := repo w; worktrees := m; BASE_BRANCH := BASE_BRANCH w;
     ORIGINAL_BASE_BRANCH := ORIGINAL_BASE_BRANCH w;
     integration_branches := integration_branches w;
     total_input_tokens := total_input_tokens w;
     total_output_tokens := total_output_tokens w; trace := trace w |}.

Definition set_base (name : string) (integration : list string) (w : World)
    : World :=
  {| repo := repo w; worktrees := worktrees w; BASE_BRANCH := name;
     ORIGINAL_BASE_BRANCH := ORIGINAL_BASE_BRANCH w;
     integration_branches := integration;
     total_input_tokens := total_input_tokens w;
     total_output_tokens := total_output_tokens w; trace := trace w |}.

Definition set_tokens (input output : Z) (w : World) : World :=
  {| repo := repo w; worktrees := worktrees w; BASE_BRANCH := BASE_BRANCH w;
     ORIGINAL_BASE_BRANCH := ORIGINAL_BASE_BRANCH w;
     integration_branches := integration_branches w;
     total_input_tokens := input;
     total_output_tokens := output; trace := trace w |}.

Definition set_trace (t : list Event) (w : World) : World :=
  {| repo := repo w; worktrees := worktrees w; BASE_BRANCH := BASE_BRANCH w;
     ORIGINAL_BASE_BRANCH := ORIGINAL_BASE_BRANCH w;
     integration_branches := integration_branches w;
     total_input_tokens := total_input_tokens w;
     total_output_tokens := total_output_tokens w; trace := t |}.

(** *** The shell as a state monad with exit

    The script runs under [set -euo pipefail]: a command that fails
    outside a condition ends the shell.  [Exit] is that, and [Ok] the
    normal completion of a command list. *)
Inductive Res (A : Type) :=
  | Ok (a : A)
  | Exit (status : Z).
Arguments Ok {A} a.
Arguments Exit {A} status.

Definition Sh (A : Type) : Type := World -> Res A * World.

Definition ret {A : Type} (a : A) : Sh A := fun w => (Ok a, w).

Definition bind {A B : Type} (c : Sh A) (k : A -> Sh B) : Sh B :=
  fun w =>
    match c w with
    | (Ok a, w') => k a w'
    | (Exit status, w') => (Exit status, w')
    end.

Declare Scope sh_scope.
Delimit Scope sh_scope with sh.
Notation "'let*' x ':=' c 'in' k" := (bind c (fun x => k))
  (at level 10, x name, c at level 100, k at level 200) : sh_scope.
Notation "c '>>' k" := (bind c (fun _ => k))
  (at level 100, k at level 200, right associativity) : sh_scope.
Local Open Scope sh_scope.

Definition emit (e : Event) : Sh unit :=
  fun w => (Ok tt, set_trace (trace w ++ [e]) w).

Definition echo (text : string) : Sh unit := emit (Echo text).
Definition log_info (text : string) : Sh unit := echo ("[INFO] " +:+ text).
Definition log_warn (text : string) : Sh unit := echo ("[WARN] " +:+ text).

(** [for x in "${xs[@]}"; do body; done] *)
Fixpoint for_each {A : Type} (xs : list A) (body : A -> Sh unit) : Sh unit :=
  match xs with
  | [] => ret tt
  | x :: xs' => body x >> for_each xs' body
  end.

Definition showZ (z : Z) : string :=
  DecimalString.NilZero.string_of_int (Z.to_int z).

(** [slugify]: lower case, runs of other characters to one dash, one
    dash off each end, the first 50 characters. *)
Definition isSlugChar (c : ascii) : bool :=
  let n := nat_of_ascii c in
  ((97 <=? n)%nat && (n <=? 122)%nat) || ((48 <=? n)%nat && (n <=? 57)%nat).

Fixpoint dashRuns (s : string) (inRun : bool) : string :=
  match s with
  | EmptyString => EmptyString
  | String c s' =>
    if isSlugChar c then String c (dashRuns s' false)
    else if inRun then dashRuns s' true
    else String "-" (dashRuns s' true)
  end.

Fixpoint dropLastDash (s : string) : string :=
  match s with
  | EmptyString => EmptyString
  | String c EmptyString => if Ascii.eqb c "-" then EmptyString else s
  | String c s' => String c (dropLastDash s')
  end.

Definition slugify (text : string) : string :=
  let s := dashRuns (Retry.toLower text) false in
  let s := match s with
           | String "-" s' => s'
           | _ => s
           end in
  String.substring 0 50 (dropLastDash s).

(** [c] occurs in [s]. *)
Fixpoint occurs (c : ascii) (s : string) : bool :=
  match s with
  | EmptyString => false
  | String a s' => Ascii.eqb a c || occurs c s'
  end.

(** [${s%%c*}]: [s] without its longest suffix that starts with [c]. *)
Fixpoint before_first (c : ascii) (s : string) : string :=
  match s with
  | EmptyString => EmptyString
  | String a s' =>
    if Ascii.eqb a c then EmptyString else String a (before_first c s')
  end.

(** [${s##*c}]: [s] without its longest prefix that ends with [c]. *)
Fixpoint after_last (c : ascii) (s : string) : string :=
  match s with
  | EmptyString => EmptyString
  | String a s' =>
    if occurs c s' then after_last c s'
    else if Ascii.eqb a c then s' else s
  end.

(** What [create_agent_worktree] prints, [echo "$worktree_dir|$branch_name"],
    and how [run_parallel_agent] takes it apart:
    ["${worktree_info%%|*}"] and ["${worktree_info##*|}"]. *)
Definition worktree_info (p : string * string) : string :=
  fst p +:+ "|" +:+ snd p.

Definition read_worktree_info (info : string) : string * string :=
  (before_first "|" info, after_last "|" info).

(** A task of the GitHub source, as [get_tasks_github] prints it with
    [--jq '.[] | <number>:<title>'], and the issue number that
    [mark_task_complete_github] and [get_github_issue_body] take from
    it, ["${task%%:*}"]. *)
Definition github_task (number : Z) (title : string) : string :=
  showZ number +:+ ":" +:+ title.

Definition issue_num (task : string) : string := before_first ":" task.

(** *** The markdown task source of the script

    The PRD file as [grep] and [sed] see it: its lines. *)

(** [grep '^\- \[ \]']: the lines that start with an unchecked box. *)
Definition is_open_line (line : string) : bool := String.prefix "- [ ]" line.

(** [grep '^\- \[x\]'] *)
Definition is_checked_line (line : string) : bool := String.prefix "- [x]" line.

(** [sed 's/^- \[ \] //'] *)
Definition strip_box (line : string) : string :=
  if String.prefix "- [ ] " line then Markdown.dropPrefix 6 line else line.

(** [get_tasks_markdown] *)
Definition get_tasks_markdown (prd : list string) : list string :=
  map strip_box (List.filter is_open_line prd).

(** [grep -c pattern "$PRD_FILE" 2>/dev/null || echo "0"]: [grep -c]
    prints the count and ends with status 1 when it is zero, so that
    [echo] prints a second line. *)
Definition grep_c (selected : string -> bool) (prd : list string) : list string :=
  let n := length (List.filter selected prd) in
  showZ (Z.of_nat n) :: (if (n =? 0)%nat then ["0"] else []).

Definition count_remaining_markdown (prd : list string) : list string :=
  grep_c is_open_line prd.

Definition count_completed_markdown (prd : list string) : list string :=
  grep_c is_checked_line prd.

(** [tr -d '[:space:]'] on the lines printed: the characters that are
    left, the ends of the lines being white space too. *)
Definition is_space (c : ascii) : bool :=
  let n := nat_of_ascii c in ((9 <=? n)%nat && (n <=? 13)%nat) || (n =? 32)%nat.

Fixpoint delete_chars (d : ascii -> bool) (s : string) : string :=
  match s with
  | EmptyString => EmptyString
  | String c s' => if d c then delete_chars d s' else String c (delete_chars d s')
  end.

Definition tr_d_space (out : list string) : string :=
  foldr (fun line acc => delete_chars is_space line +:+ acc) "" out.

Definition backslash : ascii := Eval cbv in ascii_of_nat 92.

(** The characters of the bracket expression [[\.*^$/]. *)
Definition sed_special (c : ascii) : bool :=
  existsb (Ascii.eqb c) ["["; backslash; "."; "*"; "^"; "$"; "/"]%char.

(** [sed 's/[[\.*^$/]/\\&/g']: a backslash before each of them. *)
Fixpoint sed_escape (s : string) : string :=
  match s with
  | EmptyString => EmptyString
  | String c s' =>
    if sed_special c then String backslash (String c (sed_escape s'))
    else String c (sed_escape s')
  end.

(** A basic regular expression between the slashes of an [s] command,
    when it is made of ordinary characters and of special characters
    or a closing bracket escaped by a backslash: the text it matches.
    [None] for any other expression. *)
Fixpoint bre_text (re : string) : option string :=
  match re with
  | EmptyString => Some EmptyString
  | String c re' =>
    if Ascii.eqb c backslash then
      match re' with
      | String c' re'' =>
        if sed_special c' || Ascii.eqb c' "]"
        then String c' <$> bre_text re'' else None
      | EmptyString => None
      end
    else if sed_special c then None
    else String c <$> bre_text re'
  end.

(** The replacement of an [s] command, for the matched text [m]: [&] is
    the matched text, a backslash makes the next character ordinary. *)
Fixpoint sed_replacement (rep m : string) : option string :=
  match rep with
  | EmptyString => Some EmptyString
  | String c rep' =>
    if Ascii.eqb c backslash then
      match rep' with
      | String c' rep'' =>
        if sed_special c' || Ascii.eqb c' "&"
        then String c' <$> sed_replacement rep'' m else None
      | EmptyString => None
      end
    else if Ascii.eqb c "/" then None
    else if Ascii.eqb c "&" then String.append m <$> sed_replacement rep' m
    else String c <$> sed_replacement rep' m
  end.

(** [s/^re/rep/] on one line. *)
Definition sed_s_anchored (re rep line : string) : option string :=
  match bre_text re with
  | Some text =>
    if String.prefix text line then
      (fun r => r +:+ Markdown.dropPrefix (String.length text) line)
        <$> sed_replacement rep text
    else Some line
  | None => None
  end.

(** [sed -i script "$PRD_FILE"]: the command on every line. *)
Fixpoint sed_i (cmd : string -> option string) (prd : list string)
    : option (list string) :=
  match prd with
  | [] => Some []
  | line :: rest =>
    match cmd line, sed_i cmd rest with
    | Some line', Some rest' => Some (line' :: rest')
    | _, _ => None
    end
  end.

(** [mark_task_complete_markdown]:
    [sed -i.bak "s/^- \[ \] ${escaped_task}/- [x] ${escaped_task}/"]. *)
Definition mark_task_complete_markdown (task : string) (prd : list string)
    : option (list string) :=
  let escaped_task := sed_escape task in
  sed_i (sed_s_anchored
           (String "-" (String " " (String backslash (String "["
              (String " " (String backslash (String "]" (String " "
                 escaped_task))))))))
           ("- [x] " +:+ escaped_task)) prd.

(** [t] with the text [m] in place of each [&]. *)
Fixpoint amp_expand (t m : string) : string :=
  match t with
  | EmptyString => EmptyString
  | String c t' =>
    if Ascii.eqb c "&" then m +:+ amp_expand t' m else String c (amp_expand t' m)
  end.

(** The line that [mark_task_complete_markdown] leaves for [line]: with
    the box checked and the matched text put for each [&] of the task,
    when the line starts with the unchecked box and the task text. *)
Definition marked_line (task line : string) : string :=
  if String.prefix ("- [ ] " +:+ task) line
  then "- [x] " +:+ amp_expand task ("- [ ] " +:+ task)
       +:+ Markdown.dropPrefix (6 + String.length task) line
  else line.

Section Script.
Variable cfg : Config.
(** The outside: when merges conflict, what the engine does on a task
    (by agent number, task and retry count), what it does when asked to
    resolve conflicts (its exit status and the repository it leaves),
    the token counts read off an output, and whether the copied task
    file and progress file show in [git status] of a new worktree. *)
Variable conflicts : Git.Tip -> Git.Tip -> list string.
Variable engine : Z -> string -> Z -> Invocation.
Variable resolver : list string -> Git.Repo -> Z * Git.Repo.
Variable parse_tokens : string -> Z * Z.
Variable setup_dirty : Z -> bool.

Definition git (c : Git.Cmd) : Sh bool :=
  fun w =>
    let '(ok, r) := Git.run conflicts c (repo w) in
    (Ok ok, set_trace (trace w ++ [Git c ok]) (set_repo r w)).

(** *** Worktrees *)

(** [[ -d "$worktree_dir" ]] *)
Definition dir_exists (dir : string) : Sh bool :=
  fun w => (Ok (bool_decide (is_Some (worktrees w !! dir))), w).

(** [git -C "$dir" status --porcelain 2>/dev/null | grep -q .] *)
Definition status_porcelain (dir : string) : Sh bool :=
  fun w =>
    (Ok (match worktrees w !! dir with
         | Some wt => wt_dirty wt
         | None => false
         end), w).

(** [git worktree remove [-f] "$dir" 2>/dev/null || true] *)
Definition worktree_remove (dir : string) : Sh unit :=
  fun w =>
    (Ok tt, set_trace (trace w ++ [WorktreeRemove dir])
              (set_worktrees (delete dir (worktrees w)) w)).

Definition cleanup_agent_worktree (worktree_dir branch_name log_file : string)
    : Sh unit :=
  let* is_dir := dir_exists worktree_dir in
  let* dirty :=
    if is_dir then status_porcelain worktree_dir else ret false in
  if dirty then
    (if negb (String.eqb log_file "")
     then emit (Append log_file
                  ("Worktree left in place due to uncommitted changes: "
                   +:+ worktree_dir))
     else ret tt)
    (* return 0 *)
  else
    (* Run from original directory *)
    worktree_remove worktree_dir.
    (* Don't delete branch - it may have commits we want to keep/PR *)

(** The worktree part of the [cleanup] handler (the directories under
    the worktree base are the keys of [worktrees]). *)
Definition cleanup_worktree (dir : string) : Sh unit :=
  let* dirty := status_porcelain dir in
  if dirty then log_warn ("Preserving dirty worktree: " +:+ dir)
  else worktree_remove dir.

Definition cleanup_worktrees : Sh unit :=
  let* dirs := (fun w => (Ok (map fst (map_to_list (worktrees w))), w)) in
  for_each dirs cleanup_worktree >>
  let* left := (fun w => (Ok (map fst (map_to_list (worktrees w))), w)) in
  match left with
  | [] => ret tt          (* rm -rf "$WORKTREE_BASE" *)
  | _ => log_warn ("Preserving worktree base with dirty agents: "
                   +:+ WORKTREE_BASE cfg)
  end.

(** A command list that never ends the shell. *)
Definition completes {A : Type} (c : Sh A) : Prop :=
  forall w, exists a w', c w = (Ok a, w').

(** *** The agent runner *)

Definition read {A : Type} (f : World -> A) : Sh A := fun w => (Ok (f w), w).

(** [rm -rf "$worktree_dir"] *)
Definition rm_rf (dir : string) : Sh unit :=
  fun w => (Ok tt, set_worktrees (delete dir (worktrees w)) w).

(** [git worktree add "$worktree_dir" "$branch_name"] *)
Definition worktree_add (dir name : string) : Sh unit :=
  fun w =>
    (Ok tt,
     set_trace (trace w ++ [WorktreeAdd dir name])
       (set_worktrees
          (<[dir := {| wt_branch := name; wt_commits := 0; wt_dirty := false |}]>
             (worktrees w)) w)).

(** The subshell of [create_agent_worktree] stops at the first failure
    and the function prints the pair all the same; what the subshell
    writes to stderr goes to the job's log and is left out. *)
Definition create_agent_worktree (task_name : string) (agent_num : Z)
    : Sh (string * string) :=
  let branch_name :=
    "ralphy/agent-" +:+ showZ agent_num +:+ "-" +:+ slugify task_name in
  let worktree_dir := WORKTREE_BASE cfg +:+ "/agent-" +:+ showZ agent_num in
  (* Delete branch if it exists (force) *)
  let* _ := git (Git.branch_D branch_name) in
  (* Create branch from base *)
  let* base := read BASE_BRANCH in
  let* created := git (Git.branch branch_name base) in
  (if created
   then rm_rf worktree_dir >> worktree_add worktree_dir branch_name
   else ret tt) >>
  ret (worktree_dir, branch_name).

(** The files through which a job reports: the status file, and the
    output file as the parent reads it (two token counts and a branch
    name; the empty file and ["0 0"] both read as zeros and no branch). *)
Inductive Status := waiting | setting_up | running | done | failed.

Record JobFiles := {
  status_file : Status;
  output_input : Z;
  output_output : Z;
  output_branch : string
}.

Definition report (st : Status) (input output : Z) (name : string) : JobFiles :=
  {| status_file := st; output_input := input; output_output := output;
     output_branch := name |}.

Definition dquote : string := String (ascii_of_nat 34) EmptyString.

(** [check_for_errors]: [grep -q] for the error event in the output. *)
Definition check_for_errors (result : string) : bool :=
  negb (Retry.contains
          (dquote +:+ "type" +:+ dquote +:+ ":" +:+ dquote +:+ "error" +:+ dquote)
          result).

(** What one run of the engine leaves: commits on the branch of the
    worktree, and a clean or dirty tree. *)
Definition apply_invocation (dir : string) (inv : Invocation) : Sh unit :=
  fun w =>
    match worktrees w !! dir with
    | Some wt =>
      let wt' := {| wt_branch := wt_branch wt;
                    wt_commits := wt_commits wt + new_commits inv;
                    wt_dirty := dirty_after inv |} in
      let r := repo w in
      let r' :=
        if (0 <? new_commits inv)%nat then
          {| Git.branches :=
               alter (fun tip => Git.union tip [wt_branch wt]) (wt_branch wt)
                 (Git.branches r);
             Git.HEAD := Git.HEAD r; Git.MERGE_HEAD := Git.MERGE_HEAD r;
             Git.unmerged := Git.unmerged r |}
        else r in
      (Ok tt, set_repo r' (set_worktrees (<[dir := wt']> (worktrees w)) w))
    | None => (Ok tt, w)
    end.

Inductive EngineResult :=
  | Succeeded (result : string)     (* success=true *)
  | Exhausted                       (* the loop ran out of retries *)
  | Killed.                         (* the engine failed and set -e ended the job *)

(** [while [[ $retry -lt $MAX_RETRIES ]]]: [retry] goes up by one on
    every turn that does not leave the loop, so the loop is counted by
    [remaining = MAX_RETRIES - retry]. *)
Fixpoint engine_loop (remaining : nat) (retry : Z)
    (task_name : string) (agent_num : Z) (worktree_dir log_file : string)
    : Sh EngineResult :=
  match remaining with
  | O => ret Exhausted
  | S remaining' =>
    let inv := engine agent_num task_name retry in
    emit (Engine worktree_dir retry) >>
    apply_invocation worktree_dir inv >>
    if negb (exit_status inv =? 0)%Z then ret Killed
    else if negb (String.eqb (result inv) "") then
      if negb (check_for_errors (result inv)) then
        emit (Append log_file
                ("API error (attempt " +:+ showZ (retry + 1) +:+ "/"
                 +:+ showZ (MAX_RETRIES cfg) +:+ ")")) >>
        emit Sleep >>
        engine_loop remaining' (retry + 1) task_name agent_num
          worktree_dir log_file
      else ret (Succeeded (result inv))
    else
      emit (Append log_file
              ("Retry " +:+ showZ (retry + 1) +:+ "/"
               +:+ showZ (MAX_RETRIES cfg) +:+ " after empty response")) >>
      emit Sleep >>
      engine_loop remaining' (retry + 1) task_name agent_num
        worktree_dir log_file
  end.

(** [git -C "$worktree_dir" rev-list --count "$BASE_BRANCH"..HEAD
    2>/dev/null || echo "0"] *)
Definition rev_list_count (dir : string) : Sh nat :=
  read (fun w => match worktrees w !! dir with
                 | Some wt => wt_commits wt
                 | None => 0%nat
                 end).

(** The background job, as its parent finds it when it has ended: the
    return value is the content of its status and output files. *)
Definition run_parallel_agent (task_name : string) (agent_num : Z)
    (log_file : string) : Sh JobFiles :=
  (* echo "setting up" > "$status_file" *)
  emit (Append log_file
          ("Agent " +:+ showZ agent_num +:+ " starting for task: " +:+ task_name)) >>
  (* Create isolated worktree for this agent *)
  let* worktree_info := create_agent_worktree task_name agent_num in
  let worktree_dir := fst worktree_info in
  let branch_name := snd worktree_info in
  let* is_dir := dir_exists worktree_dir in
  if negb is_dir then
    emit (Append log_file
            ("ERROR: Worktree directory does not exist: " +:+ worktree_dir)) >>
    ret (report failed 0 0 "")
  else
    (* echo "running" > "$status_file" *)
    (* Copy PRD file to worktree; ensure .ralphy/ and progress.txt exist *)
    apply_invocation worktree_dir
      {| exit_status := 0; result := ""; new_commits := 0;
         dirty_after := setup_dirty agent_num |} >>
    (* Run AI agent in the worktree directory *)
    let* outcome :=
      engine_loop (Z.to_nat (MAX_RETRIES cfg)) 0 task_name agent_num
        worktree_dir log_file in
    match outcome with
    | Killed => ret (report running 0 0 "")
    | Succeeded result =>
      (* Parse tokens *)
      let input_tokens := fst (parse_tokens result) in
      let output_tokens := snd (parse_tokens result) in
      (* Ensure at least one commit exists before marking success *)
      let* commit_count := rev_list_count worktree_dir in
      if (commit_count =? 0)%nat then
        emit (Append log_file
                "ERROR: No new commits created; treating task as failed.") >>
        cleanup_agent_worktree worktree_dir branch_name log_file >>
        ret (report failed 0 0 "")
      else
        (* Create PR if requested *)
        (if CREATE_PR cfg then emit (PullRequest branch_name) else ret tt) >>
        (* Cleanup worktree (but keep branch) *)
        cleanup_agent_worktree worktree_dir branch_name log_file >>
        ret (report done input_tokens output_tokens branch_name)
    | Exhausted =>
      cleanup_agent_worktree worktree_dir branch_name log_file >>
      ret (report failed 0 0 "")
    end.

(** *** The batch scheduler *)

Record Job := {
  job_task : string;
  job_agent : Z;
  job_log : string;
  job_files : JobFiles
}.

(** The variables of [run_parallel_tasks] that the batches update; the
    global [iteration] is among them since nothing else touches it in
    parallel mode.  [launched] is the record of the batches started so
    far, each with the agent number and task of its jobs; the script
    prints it batch by batch, the model keeps it for the statements. *)
Record Sched := {
  iteration : Z;
  batch_num : Z;
  completed_branches : list string;
  group_completed_branches : list string;
  launched : list (list (Z * string))
}.

Definition log_file_of (agent_num : Z) : string :=
  "/tmp/ralphy-log." +:+ showZ agent_num.

(** [for ((i = batch_start; i < batch_end; i++))]: start all agents in
    the batch.  The agents of a batch run at the same time, each in its
    own worktree and on its own branch; the model runs them one after
    the other. *)
Fixpoint start_agents (batch_tasks : list string) (iteration : Z)
    : Sh (list Job * Z) :=
  match batch_tasks with
  | [] => ret ([], iteration)
  | task :: rest =>
    let agent_num := (iteration + 1)%Z in
    let iteration := (iteration + 1)%Z in
    let log_file := log_file_of agent_num in
    echo ("  Agent " +:+ showZ agent_num +:+ ": " +:+ String.substring 0 50 task) >>
    let* files := run_parallel_agent task agent_num log_file in
    let* more := start_agents rest iteration in
    ret ({| job_task := task; job_agent := agent_num; job_log := log_file;
            job_files := files |} :: fst more, snd more)
  end.

Definition mark_task_complete (task : string) : Sh unit :=
  emit (MarkComplete (PRD_SOURCE cfg) task).

(** One turn of the loop that shows the final status of a batch. *)
Definition batch_result (job : Job) (branches : list string * list string)
    : Sh (list string * list string) :=
  let task := job_task job in
  let line := " Agent " +:+ showZ (job_agent job) +:+ ": "
              +:+ String.substring 0 45 task in
  match status_file (job_files job) with
  | done =>
    (* Collect tokens and branch name *)
    let in_tok := output_input (job_files job) in
    let out_tok := output_output (job_files job) in
    let name := output_branch (job_files job) in
    let* total_in := read total_input_tokens in
    let* total_out := read total_output_tokens in
    (fun w => (Ok tt, set_tokens (total_in + in_tok) (total_out + out_tok) w)) >>
    let branches :=
      if negb (String.eqb name "")
      then (fst branches ++ [name], snd branches ++ [name])
      else branches in
    (* Mark task complete in PRD *)
    mark_task_complete task >>
    echo ("  ok" +:+ line +:+ " -> " +:+ name) >>
    ret branches
  | failed =>
    echo ("  failed" +:+ line) >>
    (* Show log for failed agents *)
    echo ("    Agent " +:+ showZ (job_agent job) +:+ " log: " +:+ job_log job) >>
    ret branches
  | _ =>
    echo ("  ?" +:+ line) >>
    ret branches
  end.

Fixpoint batch_results (jobs : list Job) (branches : list string * list string)
    : Sh (list string * list string) :=
  match jobs with
  | [] => ret branches
  | job :: rest =>
    let* branches := batch_result job branches in
    batch_results rest branches
  end.

(** One batch: start its agents, wait for them, show its results. *)
Definition run_batch (batch_num batch_size : Z) (batch_tasks : list string)
    (group_label : string) (st : Sched) : Sh Sched :=
  echo ("Batch " +:+ showZ batch_num +:+ group_label +:+ ": Spawning "
        +:+ showZ batch_size +:+ " parallel agents") >>
  let* started := start_agents batch_tasks (iteration st) in
  (* Monitor progress; wait for all processes to fully complete *)
  echo ("Batch " +:+ showZ batch_num +:+ " Results:") >>
  let* branches :=
    batch_results (fst started)
      (completed_branches st, group_completed_branches st) in
  ret {| iteration := snd started;
         batch_num := batch_num;
         completed_branches := fst branches;
         group_completed_branches := snd branches;
         launched :=
           launched st
           ++ [map (fun j => (job_agent j, job_task j)) (fst started)] |}.

(** [while [[ $batch_start -lt $total_group_tasks ]]].  The fuel bounds
    the number of batches; the result is [None] when it runs out, as it
    does for every fuel when [MAX_PARALLEL] is not positive. *)
Fixpoint batch_loop (fuel : nat) (tasks : list string) (group_label : string)
    (batch_start : Z) (st : Sched) (w : World) : option (Res Sched * World) :=
  let total_group_tasks := Z.of_nat (length tasks) in
  if (batch_start <? total_group_tasks)%Z then
    match fuel with
    | O => None
    | S fuel' =>
      let batch_num := (batch_num st + 1)%Z in
      let batch_end := (batch_start + MAX_PARALLEL cfg)%Z in
      let batch_end :=
        if (batch_end >? total_group_tasks)%Z then total_group_tasks
        else batch_end in
      let batch_size := (batch_end - batch_start)%Z in
      let batch_tasks :=
        take (Z.to_nat batch_size) (drop (Z.to_nat batch_start) tasks) in
      match run_batch batch_num batch_size batch_tasks group_label st w with
      | (Exit status, w') => Some (Exit status, w')
      | (Ok st', w') =>
        (* Check if we've hit max iterations *)
        if (MAX_ITERATIONS cfg >? 0)%Z
           && (iteration st' >=? MAX_ITERATIONS cfg)%Z
        then
          Some (Ok st',
                snd (log_warn ("Reached max iterations ("
                               +:+ showZ (MAX_ITERATIONS cfg) +:+ ")") w'))
        else batch_loop fuel' tasks group_label batch_end st' w'
      end
    end
  else Some (Ok st, w).

(** *** The group/integration merger *)

(** [git symbolic-ref --short HEAD 2>/dev/null || echo ""] *)
Definition symbolic_ref_HEAD : Sh string :=
  read (fun w => default "" (Git.HEAD (repo w))).

(** [for branch in "${group_completed_branches[@]}"]: the value is
    [merge_failed]. *)
Fixpoint merge_group_branches (names : list string) : Sh bool :=
  match names with
  | [] => ret false
  | name :: rest =>
    let* merged := git (Git.merge name) in
    if negb merged then
      log_warn ("Conflict merging " +:+ name +:+ " into integration branch") >>
      (* Abort the merge to leave branch in clean state *)
      let* _ := git Git.merge_abort in
      ret true      (* merge_failed=true; break *)
    else merge_group_branches rest
  end.

(** After each parallel group completes; [groups] is the number of
    groups of the run. *)
Definition integrate_group (group : string) (groups : nat)
    (group_completed_branches : list string) : Sh unit :=
  if is_yaml (PRD_SOURCE cfg)
     && (0 <? length group_completed_branches)%nat && (1 <? groups)%nat
  then
    let integration_branch := "ralphy/integration-group-" +:+ group in
    log_info ("Creating integration branch for group " +:+ group +:+ ": "
              +:+ integration_branch) >>
    (* Create integration branch from current BASE_BRANCH without
       switching HEAD *)
    let* base := read BASE_BRANCH in
    let* created := git (Git.branch integration_branch base) in
    if created then
      let* current_head := symbolic_ref_HEAD in
      (* Temporarily checkout the integration branch to perform merges *)
      let* switched := git (Git.checkout integration_branch) in
      if switched then
        let* merge_failed := merge_group_branches group_completed_branches in
        (* Return to original HEAD to avoid state confusion *)
        let* original := read ORIGINAL_BASE_BRANCH in
        (if negb (String.eqb current_head "") then
           let* back := git (Git.checkout current_head) in
           if back then ret tt
           else let* _ := git (Git.checkout original) in ret tt
         else let* _ := git (Git.checkout original) in ret tt) >>
        if negb merge_failed then
          (* Update BASE_BRANCH for next group *)
          (fun w =>
             (Ok tt,
              set_base integration_branch
                (integration_branches w ++ [integration_branch]) w)) >>
          log_info ("Updated BASE_BRANCH to " +:+ integration_branch
                    +:+ " for next group")
        else
          (* Delete failed integration branch *)
          let* _ := git (Git.branch_D integration_branch) in
          log_warn ("Integration merge failed; next group will branch from "
                    +:+ "current BASE_BRANCH (" +:+ base +:+ ")")
      else
        (* Couldn't checkout, clean up the branch *)
        let* _ := git (Git.branch_D integration_branch) in
        log_warn ("Could not checkout integration branch; next group will "
                  +:+ "branch from current BASE_BRANCH (" +:+ base +:+ ")")
    else
      log_warn ("Could not create integration branch; next group will "
                +:+ "branch from current BASE_BRANCH (" +:+ base +:+ ")")
  else ret tt.

(** *** Final reconciliation *)

(** [git branch -D "$name" >/dev/null 2>&1 && echo "Deleted" || true] *)
Definition delete_branch (name : string) : Sh unit :=
  let* deleted := git (Git.branch_D name) in
  if deleted then echo ("  Deleted " +:+ name) else ret tt.

(** The integration branches were used: merge the last one. *)
Definition merge_final_integration (final_target final_integration : string)
    (completed_branches : list string) : Sh unit :=
  echo ("Merging integration branch into " +:+ final_target +:+ "...") >>
  let* switched := git (Git.checkout final_target) in
  if negb switched then
    log_warn ("Could not checkout " +:+ final_target
              +:+ "; leaving integration branch unmerged.") >>
    echo ("Integration branch: " +:+ final_integration)
  else
    echo ("  Merging " +:+ final_integration +:+ "...") >>
    let* merged := git (Git.merge final_integration) in
    if merged then
      (* Cleanup all integration branches after successful merge *)
      echo "Cleaning up integration branches..." >>
      let* integration := read integration_branches in
      for_each integration delete_branch >>
      (* Also cleanup the individual agent branches *)
      echo "Cleaning up agent branches..." >>
      for_each completed_branches delete_branch
    else
      echo " conflict" >>
      let* _ := git Git.merge_abort in
      log_warn ("Could not merge integration branch; "
                +:+ "leaving branches for manual resolution.") >>
      echo ("Integration branch: " +:+ final_integration) >>
      echo ("Original base: " +:+ final_target).

(** No integration branches: the direct merges; the value is
    [merge_failed]. *)
Fixpoint merge_agent_branches (names : list string) (merge_failed : list string)
    : Sh (list string) :=
  match names with
  | [] => ret merge_failed
  | name :: rest =>
    echo ("  Merging " +:+ name +:+ "...") >>
    (* Attempt to merge *)
    let* merged := git (Git.merge name) in
    if merged then
      (* Delete the branch after successful merge *)
      let* _ := git (Git.branch_d name) in
      merge_agent_branches rest merge_failed
    else
      echo " conflict" >>
      (* Don't abort yet - try AI resolution *)
      merge_agent_branches rest (merge_failed ++ [name])
  end.

(** The engine asked to resolve the conflicts: it does what it does to
    the primary checkout; under [set -e] its failure ends the script. *)
Definition run_resolver (conflicted_files : list string) : Sh unit :=
  fun w =>
    let '(status, r) := resolver conflicted_files (repo w) in
    let w' := set_trace (trace w ++ [Resolve conflicted_files]) (set_repo r w) in
    if (status =? 0)%Z then (Ok tt, w') else (Exit status, w').

(** [git diff --name-only --diff-filter=U] *)
Definition diff_unmerged : Sh (list string) :=
  read (fun w => Git.unmerged (repo w)).

(** Use AI to resolve merge conflicts; the value is [still_failed]. *)
Fixpoint resolve_conflicts (merge_failed : list string)
    (still_failed : list string) : Sh (list string) :=
  match merge_failed with
  | [] => ret still_failed
  | name :: rest =>
    echo ("  Resolving " +:+ name +:+ "...") >>
    (* Get list of conflicted files *)
    let* conflicted_files := diff_unmerged in
    match conflicted_files with
    | [] =>
      (* No conflicts found (maybe already resolved or aborted) *)
      let* _ := git Git.merge_abort in
      let* merged := git (Git.merge name) in
      if negb merged then
        echo " failed" >>
        let* _ := git Git.merge_abort in
        resolve_conflicts rest (still_failed ++ [name])
      else
        let* _ := git (Git.branch_d name) in
        resolve_conflicts rest still_failed
    | _ =>
      (* Run AI to resolve conflicts *)
      run_resolver conflicted_files >>
      (* Check if merge was completed *)
      let* remaining := diff_unmerged in
      match remaining with
      | [] =>
        (* No more conflicts - merge succeeded *)
        echo " ok (AI resolved)" >>
        let* _ := git (Git.branch_d name) in
        resolve_conflicts rest still_failed
      | _ =>
        (* Still has conflicts *)
        echo " failed (AI couldn't resolve)" >>
        let* _ := git Git.merge_abort in
        resolve_conflicts rest (still_failed ++ [name])
      end
    end
  end.

Definition merge_agents (final_target : string)
    (completed_branches : list string) : Sh unit :=
  echo ("Merging agent branches into " +:+ final_target +:+ "...") >>
  let* switched := git (Git.checkout final_target) in
  if negb switched then
    log_warn ("Could not checkout " +:+ final_target
              +:+ "; leaving agent branches unmerged.") >>
    echo "Branches created by agents:" >>
    for_each completed_branches (fun name => echo ("  " +:+ name))
  else
    let* merge_failed := merge_agent_branches completed_branches [] in
    match merge_failed with
    | [] => echo "All branches merged successfully!"
    | _ =>
      echo ("Using AI to resolve " +:+ showZ (Z.of_nat (length merge_failed))
            +:+ " merge conflict(s)...") >>
      let* still_failed := resolve_conflicts merge_failed [] in
      match still_failed with
      | [] => echo "All branches merged successfully!"
      | _ =>
        echo "Some conflicts could not be resolved automatically:" >>
        for_each still_failed (fun name => echo ("  " +:+ name)) >>
        echo "Resolve conflicts manually: git merge <branch>"
      end
    end.

(** Handle completed branches. *)
Definition final_reconciliation (completed_branches : list string) : Sh unit :=
  match completed_branches with
  | [] => ret tt
  | _ =>
    if CREATE_PR cfg then
      (* PRs were created, just show the branches *)
      echo "Branches created by agents:" >>
      for_each completed_branches (fun name => echo ("  " +:+ name))
    else
      (* Auto-merge branches into ORIGINAL base branch *)
      let* final_target := read ORIGINAL_BASE_BRANCH in
      let* integration := read integration_branches in
      match last integration with
      | Some final_integration =>
        merge_final_integration final_target final_integration
          completed_branches
      | None => merge_agents final_target completed_branches
      end
  end.

(** *** The whole of [run_parallel_tasks]

    [groups] lists the groups in order, each with the tasks that the
    task source gives for it when its turn comes ([get_tasks_in_group_yaml],
    or all tasks under the one group of the other sources). *)
Fixpoint run_groups (fuel : nat) (groups : list (string * list string))
    (count : nat) (st : Sched) (w : World) : option (Res Sched * World) :=
  match groups with
  | [] => Some (Ok st, w)
  | (group, tasks) :: rest =>
    let yaml_source := is_yaml (PRD_SOURCE cfg) in
    if yaml_source && (length tasks =? 0)%nat then
      run_groups fuel rest count st w       (* continue *)
    else
      let group_label := if yaml_source then " (group " +:+ group +:+ ")" else "" in
      let st :=
        {| iteration := iteration st; batch_num := batch_num st;
           completed_branches := completed_branches st;
           group_completed_branches := [];
           launched := launched st |} in
      match batch_loop fuel tasks group_label 0 st w with
      | None => None
      | Some (Exit status, w') => Some (Exit status, w')
      | Some (Ok st', w') =>
        match integrate_group group count (group_completed_branches st') w' with
        | (Exit status, w'') => Some (Exit status, w'')
        | (Ok _, w'') =>
          if (MAX_ITERATIONS cfg >? 0)%Z
             && (iteration st' >=? MAX_ITERATIONS cfg)%Z
          then Some (Ok st', w'')
          else run_groups fuel rest count st' w''
        end
      end
  end.

Definition run_parallel_tasks (fuel : nat) (iteration0 : Z)
    (groups : list (string * list string)) (w : World)
    : option (Res unit * World) :=
  match flat_map snd groups with
  | [] => Some (Exit 2, snd (log_info "No tasks to run" w))
  | _ =>
    (* Ensure we have a base branch set *)
    let base :=
      if String.eqb (BASE_BRANCH w) ""
      then default "HEAD" (Git.HEAD (repo w)) else BASE_BRANCH w in
    (* Store original base branch for final merge *)
    let w :=
      {| repo := repo w; worktrees := worktrees w; BASE_BRANCH := base;
         ORIGINAL_BASE_BRANCH := base; integration_branches := [];
         total_input_tokens := total_input_tokens w;
         total_output_tokens := total_output_tokens w; trace := trace w |} in
    let st :=
      {| iteration := iteration0; batch_num := 0; completed_branches := [];
         group_completed_branches := []; launched := [] |} in
    match run_groups fuel groups (length groups) st w with
    | None => None
    | Some (Exit status, w') => Some (Exit status, w')
    | Some (Ok st', w') =>
      (* Cleanup worktree base *)
      let tidy : Sh unit :=
        let* dirs := read (fun w => map fst (map_to_list (worktrees w))) in
        match dirs with
        | [] => ret tt
        | _ => log_warn ("Preserving worktree base with dirty agents: "
                         +:+ WORKTREE_BASE cfg)
        end in
      Some ((tidy >> final_reconciliation (completed_branches st')) w')
    end
  end.

End Script.

(** *** Notions used to state the properties *)

(** Everything but the trace is the same. *)
Definition same_state (w w' : World) : Prop :=
  repo w' = repo w /\ worktrees w' = worktrees w /\
  BASE_BRANCH w' = BASE_BRANCH w /\
  ORIGINAL_BASE_BRANCH w' = ORIGINAL_BASE_BRANCH w /\
  integration_branches w' = integration_branches w /\
  total_input_tokens w' = total_input_tokens w /\
  total_output_tokens w' = total_output_tokens w.

(** The tasks that a trace marks complete, in order. *)
Definition marked (tr : list Event) : list string :=
  omap (fun e => match e with MarkComplete _ t => Some t | _ => None end) tr.

(** The git commands of a trace, in order. *)
Definition git_commands (tr : list Event) : list Git.Cmd :=
  omap (fun e => match e with Git c _ => Some c | _ => None end) tr.

(** The conflict-resolution runs of the engine in a trace. *)
Definition resolutions (tr : list Event) : list (list string) :=
  omap (fun e => match e with Resolve files => Some files | _ => None end) tr.

(** What a command list adds to the trace of [w]. *)
Definition added (w w' : World) : list Event :=
  drop (length (trace w)) (trace w').

(** An attempt of the engine that ends normally without a usable
    answer: the output is empty or holds an error event. *)
Definition attempt_fails (inv : Invocation) : Prop :=
  exit_status inv = 0%Z /\
  (result inv = "" \/ check_for_errors (result inv) = false).

(** An attempt that succeeds: non-empty output with no error event. *)
Definition attempt_succeeds (inv : Invocation) : Prop :=
  exit_status inv = 0%Z /\ result inv <> "" /\
  check_for_errors (result inv) = true.

(** [[ "$status" == done ]] *)
Definition is_done (job : Job) : bool :=
  match status_file (job_files job) with
  | done => true
  | _ => false
  end.

(** The state that the merges into the integration branch keep. *)
Definition merging_into (name : string) (b0 : gmap string Git.Tip)
    (w0 w : World) : Prop :=
  Git.HEAD (repo w) = Some name /\
  (exists t, Git.branches (repo w) = <[name := t]> b0) /\
  worktrees w = worktrees w0 /\ BASE_BRANCH w = BASE_BRANCH w0 /\
  ORIGINAL_BASE_BRANCH w = ORIGINAL_BASE_BRANCH w0 /\
  integration_branches w = integration_branches w0 /\
  total_input_tokens w = total_input_tokens w0 /\
  total_output_tokens w = total_output_tokens w0.

Definition failed_merge (e : Event) : Prop :=
  exists name, e = Git (Git.merge name) false.

(** What a failed integration leaves, from [w] to [w']. *)
Definition integration_undone (group : string) (names : list string)
    (w w' : World) : Prop :=
  let integ := "ralphy/integration-group-" +:+ group in
  (* that merge is aborted *)
  (exists pre name ok post,
     added w w'
     = pre ++ [Git (Git.merge name) false;
               Echo ("[WARN] " +:+ "Conflict merging " +:+ name
                     +:+ " into integration branch");
               Git Git.merge_abort ok] ++ post /\
     In name names /\
     Forall (fun e => forall other ok', e <> Git (Git.merge other) ok') post) /\
  Git.MERGE_HEAD (repo w') = None /\
  (* the attempt is failed: the integration branch is not recorded *)
  integration_branches w' = integration_branches w /\
  (* the integration branch is deleted *)
  In (Git (Git.branch_D integ) true) (added w w') /\
  Git.branches (repo w') !! integ = None /\
  (* the base branch for the next group is the one before *)
  BASE_BRANCH w' = BASE_BRANCH w /\
  (* and nothing else of the run has changed *)
  Git.branches (repo w') = Git.branches (repo w) /\
  ORIGINAL_BASE_BRANCH w' = ORIGINAL_BASE_BRANCH w /\
  worktrees w' = worktrees w /\
  total_input_tokens w' = total_input_tokens w /\
  total_output_tokens w' = total_output_tokens w.

(** What the final reconciliation adds to the trace when integration
    branches were used, by the outcome of the one merge. *)
Definition rollup (cfg : Config) (final_integration : string)
    (completed : list string) (w w' : World) : Prop :=
  let target := ORIGINAL_BASE_BRANCH w in
  let evs := added w w' in
  (* only the last integration branch is merged, on the original base *)
  (forall name ok, In (Git (Git.merge name) ok) evs ->
     name = final_integration /\
     exists pre post,
       evs = pre ++ [Git (Git.checkout target) true;
                     Echo ("  Merging " +:+ final_integration +:+ "...");
                     Git (Git.merge name) ok] ++ post) /\
  (* merged: every integration branch and every agent branch goes *)
  (In (Git (Git.merge final_integration) true) evs ->
     git_commands evs
     = [Git.checkout target; Git.merge final_integration]
       ++ map Git.branch_D (integration_branches w ++ completed) /\
     forall name, In name (integration_branches w ++ completed) ->
       Git.branches (repo w') !! name = None) /\
  (* conflict: aborted, reported, nothing deleted *)
  (In (Git (Git.merge final_integration) false) evs ->
     git_commands evs
     = [Git.checkout target; Git.merge final_integration; Git.merge_abort] /\
     Git.MERGE_HEAD (repo w') = None /\
     In (Echo ("Integration branch: " +:+ final_integration)) evs /\
     In (Echo ("Original base: " +:+ target)) evs /\
     Git.branches (repo w') = Git.branches (repo w)) /\
  (* and the merge is attempted whenever the stage runs *)
  (completed <> [] -> CREATE_PR cfg = false ->
   is_Some (Git.branches (repo w) !! target) ->
   exists ok, In (Git (Git.merge final_integration) ok) evs).

(** A command list that completes and relates the worlds before and
    after by [P]. *)
Definition ensures {A : Type} (P : World -> World -> Prop) (c : Sh A) : Prop :=
  forall w, exists a w', c w = (Ok a, w') /\ P w w'.

(** A relation kept by everything the agent runner does: it is a
    preorder, and it holds across a change of the repository, of the
    worktrees, and across any event that marks no task. *)
Record Frame (P : World -> World -> Prop) : Prop := {
  frame_refl : forall w, P w w;
  frame_trans : forall w1 w2 w3, P w1 w2 -> P w2 w3 -> P w1 w3;
  frame_event : forall w e,
    (forall s t, e <> MarkComplete s t) -> P w (set_trace (trace w ++ [e]) w);
  frame_repo : forall w r, P w (set_repo r w);
  frame_worktrees : forall w m, P w (set_worktrees m w)
}.

(** No task is marked between the two worlds. *)
Definition marks_kept (w w' : World) : Prop :=
  marked (trace w') = marked (trace w).

(** The retry counts of the engine runs of a trace, in order. *)
Definition engine_runs (tr : list Event) : list Z :=
  omap (fun e => match e with Engine _ retry => Some retry | _ => None end) tr.

(** The number of pauses, [sleep "$RETRY_DELAY"], in a trace. *)
Definition pauses (tr : list Event) : nat :=
  length (List.filter (fun e => match e with Sleep => true | _ => false end) tr).

(** Neither an engine run nor a pause. *)
Definition quiet (e : Event) : Prop :=
  match e with
  | Engine _ _ | Sleep => False
  | _ => True
  end.

(** The token counts and branch names that the parent takes from the
    jobs of a batch: those of the jobs that report [done]. *)
Definition done_input (jobs : list Job) : Z :=
  foldr Z.add 0%Z
    (map (fun j => output_input (job_files j)) (List.filter is_done jobs)).

Definition done_output (jobs : list Job) : Z :=
  foldr Z.add 0%Z
    (map (fun j => output_output (job_files j)) (List.filter is_done jobs)).

Definition done_branches (jobs : list Job) : list string :=
  List.filter (fun name => negb (String.eqb name ""))
    (map (fun j => output_branch (job_files j)) (List.filter is_done jobs)).

(** The tip after merging the branches [names] of [b] one by one. *)
Definition merged_tips (b : gmap string Git.Tip) (tip : Git.Tip)
    (names : list string) : Git.Tip :=
  foldl (fun acc name => Git.union acc (default [] (b !! name))) tip names.

(** Every character of [s] satisfies [P]. *)
Fixpoint allChars (P : ascii -> bool) (s : string) : bool :=
  match s with
  | EmptyString => true
  | String c s' => P c && allChars P s'
  end.

(** Slug characters and single dashes between them; [afterDash] says
    that a dash may not come first. *)
Fixpoint separated (afterDash : bool) (s : string) : bool :=
  match s with
  | EmptyString => true
  | String c s' =>
    if Ascii.eqb c "-" then negb afterDash && separated true s'
    else isSlugChar c && separated false s'
  end.

(** *** Sample runs, for the examples *)

Definition sample_cfg (ceiling : Z) (source : Source) : Config :=
  {| MAX_PARALLEL := 3; MAX_ITERATIONS := ceiling; MAX_RETRIES := 3;
     PRD_SOURCE := source; CREATE_PR := false; WORKTREE_BASE := "/tmp/wt" |}.

(** A repository with the given branches, [main] checked out. *)
Definition sample_world (refs : list (string * Git.Tip))
    (integration : list string) : World :=
  {| repo := {| Git.branches := list_to_map refs; Git.HEAD := Some "main";
                Git.MERGE_HEAD := None; Git.unmerged := [] |};
     worktrees := ∅; BASE_BRANCH := "main"; ORIGINAL_BASE_BRANCH := "main";
     integration_branches := integration;
     total_input_tokens := 0; total_output_tokens := 0; trace := [] |}.

Definition sample_sched : Sched :=
  {| iteration := 0; batch_num := 0; completed_branches := [];
     group_completed_branches := []; launched := [] |}.

(** An engine that answers and commits [commits] times at each run. *)
Definition sample_engine (commits : nat) : Z -> string -> Z -> Invocation :=
  fun _ _ _ =>
    {| exit_status := 0; result := "done"; new_commits := commits;
       dirty_after := false |}.

(** Every merge of new changes conflicts on one file, or none does. *)
Definition always_conflicts : Git.Tip -> Git.Tip -> list string :=
  fun _ _ => ["app.js"].
Definition never_conflicts : Git.Tip -> Git.Tip -> list string :=
  fun _ _ => [].

(** An engine that leaves the conflicts as they are. *)
Definition idle_resolver : list string -> Git.Repo -> Z * Git.Repo :=
  fun _ r => (0%Z, r).

Definition no_tokens : string -> Z * Z := fun _ => (0%Z, 0%Z).
Definition clean_setup : Z -> bool := fun _ => false.

End Ralphy.

(* ===================================================================== *)
(** * Theorems *)
(* ===================================================================== *)

(** ** The retry envelope *)

Section BackoffDelay.
Import Retry.
Local Open Scope Q_scope.

Lemma pow2_pos (e : Z) : 0 < Qpower 2 e.
Proof. apply Qpower_0_lt. reflexivity. Qed.

Lemma pow2_succ (e : Z) : Qpower 2 (e + 1) == 2 * Qpower 2 e.
Proof.
  rewrite Qpower_plus by discriminate.
  change (Qpower 2 1) with 2. ring.
Qed.

Lemma capped_Z (k b m : Z) :
  (1 <= k)%Z ->
  Qmin (inject_Z b * Qpower 2 (k - 1)) (inject_Z m)
  == inject_Z (Z.min m (b * 2 ^ (k - 1))).
Proof.
  intros Hk.
  assert (E : inject_Z b * Qpower 2 (k - 1) == inject_Z (b * 2 ^ (k - 1))).
  { rewrite inject_Z_mult, Zpower_Qpower by lia. reflexivity. }
  rewrite E.
  destruct (Z.le_ge_cases (b * 2 ^ (k - 1)) m) as [H|H].
  - rewrite Z.min_r by exact H. apply Q.min_l. rewrite <- Zle_Qle. exact H.
  - rewrite Z.min_l by lia. apply Q.min_r. rewrite <- Zle_Qle. lia.
Qed.

Lemma jitter_range (c r : Q) :
  0 <= c -> 0 <= r -> r < 1 ->
  c <= c + c * (1 # 4) * r /\ c + c * (1 # 4) * r <= (5 # 4) * c.
Proof. intros. split; nra. Qed.

(** The delay lies between the capped exponential and 1.25 times it. *)
Lemma delay_between (k b m : Z) (j : bool) (r : Q) :
  (1 <= k)%Z -> (0 <= b)%Z -> (0 <= m)%Z -> 0 <= r -> r < 1 ->
  let cap := Z.min m (b * 2 ^ (k - 1)) in
  let delay := calculateBackoffDelay k (inject_Z b) (inject_Z m) j r in
  (cap <= delay)%Z /\ inject_Z delay <= (5 # 4) * inject_Z cap.
Proof.
  intros Hk Hb Hm Hr0 Hr1 cap delay.
  assert (Hcap : (0 <= cap)%Z) by (unfold cap; nia).
  assert (HcapQ : 0 <= inject_Z cap) by (rewrite <- (Zle_Qle 0); exact Hcap).
  pose proof (capped_Z k b m Hk) as E. fold cap in E.
  destruct (jitter_range (inject_Z cap) r HcapQ Hr0 Hr1) as [Hlo Hhi].
  unfold delay, calculateBackoffDelay. destruct j.
  - split.
    + rewrite <- (Qfloor_Z cap) at 1. apply Qfloor_resp_le.
      rewrite E. exact Hlo.
    + eapply Qle_trans; [apply Qfloor_le|]. rewrite E. exact Hhi.
  - rewrite (Qfloor_comp _ _ E), Qfloor_Z. split; [lia|]. lra.
Qed.

End BackoffDelay.

Section BackoffBounds.
Import Retry.
Local Open Scope Q_scope.



End BackoffBounds.

Lemma flat_map_ext_Forall {A B : Type} (f g : A -> list B) (l : list A) :
  Forall (fun a => f a = g a) l -> flat_map f l = flat_map g l.
Proof.
  induction 1 as [|a l Ha _ IH]; [reflexivity|].
  cbn. rewrite Ha, IH. reflexivity.
Qed.

Lemma seqZ_one (m : Z) : seqZ m 1 = [m].
Proof. rewrite seqZ_cons by lia. rewrite seqZ_nil by lia. reflexivity. Qed.

Section RetryExhaustion.
Import Retry.
Context {T : Type}.
Variable options : RetryOptions.
Variable random : Z -> Q.
Variable errs : Z -> JSValue.

Lemma retryLoop_alwaysFails (rem : nat) :
  forall (fuel : nat) (a : Z) (last : option JSError) (tr : list Event),
    (a + Z.of_nat rem = maxRetries options + 1)%Z -> (rem < fuel)%nat ->
    retryLoop (T := T) (alwaysFails errs) options random fuel a last tr =
    Some (Rejected (VError
            (match rem with
             | O => default {| message := "All retry attempts failed" |} last
             | S _ => asError (errs (maxRetries options))
             end)),
          tr ++ flat_map (failedAttempt options random errs)
                  (seqZ a (Z.of_nat rem))).
Proof.
  induction rem as [|rem IH]; intros fuel a last tr Ha Hfuel.
  - destruct fuel as [|fuel]; [lia|]. simpl.
    destruct (Z.leb_spec a (maxRetries options)); [exfalso; lia|].
    rewrite app_nil_r. reflexivity.
  - destruct fuel as [|fuel]; [lia|].
    cbn [retryLoop].
    destruct (Z.leb_spec a (maxRetries options)). 2:{ exfalso; lia. }
    unfold alwaysFails at 1.
    rewrite (IH fuel (a + 1)%Z) by lia.
    rewrite (seqZ_cons a) by lia.
    replace (Z.succ a) with (a + 1)%Z by lia.
    replace (Z.pred (Z.of_nat (S rem))) with (Z.of_nat rem) by lia.
    cbn [flat_map]. unfold failedAttempt at 2.
    f_equal. f_equal.
    + destruct rem; [|reflexivity]. simpl.
      replace a with (maxRetries options) by lia. reflexivity.
    + destruct (Z.ltb_spec a (maxRetries options)); rewrite <- ?app_assoc; reflexivity.
Qed.

(** With any attempt ceiling, the run terminates with a rejection. *)
Lemma withRetry_alwaysFails_any :
  exists e : JSError,
    withRetry (T := T) (alwaysFails errs) options random =
    Some (Rejected (VError e),
          flat_map (failedAttempt options random errs) (seqZ 1 (maxRetries options))).
Proof.
  unfold withRetry.
  destruct (Z.le_gt_cases 0 (maxRetries options)) as [Hn|Hn].
  - eexists.
    rewrite (retryLoop_alwaysFails (Z.to_nat (maxRetries options))) by lia.
    rewrite Z2Nat.id by lia. reflexivity.
  - eexists. rewrite seqZ_nil by lia. cbn [retryLoop].
    destruct (Z.leb_spec 1 (maxRetries options)); [exfalso; lia|].
    reflexivity.
Qed.

Lemma withRetry_alwaysFails :
  (1 <= maxRetries options)%Z ->
  withRetry (T := T) (alwaysFails errs) options random =
  Some (Rejected (VError (asError (errs (maxRetries options)))),
        flat_map (failedAttempt options random errs) (seqZ 1 (maxRetries options))).
Proof.
  intros Hn. unfold withRetry.
  rewrite (retryLoop_alwaysFails (Z.to_nat (maxRetries options))) by lia.
  rewrite Z2Nat.id by lia.
  destruct (Z.to_nat (maxRetries options)) eqn:E; [lia|]. reflexivity.
Qed.

Lemma calls_failedAttempts (l : list Z) :
  calls (flat_map (failedAttempt options random errs) l) = l.
Proof.
  induction l as [|k l IH]; [reflexivity|].
  cbn [flat_map]. unfold calls in *. unfold failedAttempt at 1.
  rewrite <- app_comm_cons.
  cbn [omap list_omap]. rewrite omap_app, IH.
  unfold backoff.
  destruct (k <? maxRetries options)%Z, (onRetry options); reflexivity.
Qed.

(** The trace of a run in which every attempt fails: a full block for
    each attempt but the last, then the last call alone. *)
Lemma failedAttempts_split :
  (1 <= maxRetries options)%Z ->
  flat_map (failedAttempt options random errs) (seqZ 1 (maxRetries options)) =
  flat_map (fun k => EvCall k :: backoff options random k (asError (errs k)))
    (seqZ 1 (maxRetries options - 1))
  ++ [EvCall (maxRetries options)].
Proof.
  intros Hn.
  replace (maxRetries options) with ((maxRetries options - 1) + 1)%Z at 1 by lia.
  rewrite seqZ_app by lia.
  rewrite flat_map_app. f_equal.
  - apply flat_map_ext_Forall, Forall_seqZ. intros k Hk.
    unfold failedAttempt.
    destruct (Z.ltb_spec k (maxRetries options)); [reflexivity|lia].
  - replace (1 + (maxRetries options - 1))%Z with (maxRetries options) by lia.
    rewrite seqZ_one. cbn [flat_map]. unfold failedAttempt.
    rewrite Z.ltb_irrefl. reflexivity.
Qed.

Lemma calls_blocks (l : list Z) :
  calls (flat_map (fun k => EvCall k :: backoff options random k (asError (errs k))) l) = l.
Proof.
  induction l as [|k l IH]; [reflexivity|].
  cbn [flat_map]. unfold calls in *. rewrite <- app_comm_cons.
  cbn [omap list_omap]. rewrite omap_app, IH.
  unfold backoff. destruct (onRetry options); reflexivity.
Qed.

Lemma sleeps_blocks (l : list Z) :
  sleeps (flat_map (fun k => EvCall k :: backoff options random k (asError (errs k))) l)
  = map (delayFor options random) l.
Proof.
  induction l as [|k l IH]; [reflexivity|].
  cbn [flat_map map]. unfold sleeps in *. rewrite <- app_comm_cons.
  cbn [omap list_omap]. rewrite omap_app, IH.
  unfold backoff. destruct (onRetry options); reflexivity.
Qed.

Lemma onRetryCalls_blocks (l : list Z) :
  onRetry options = true ->
  onRetryCalls (flat_map (fun k => EvCall k :: backoff options random k (asError (errs k))) l)
  = map (fun k => (k, message (asError (errs k)), delayFor options random k)) l.
Proof.
  intros Hcb.
  induction l as [|k l IH]; [reflexivity|].
  cbn [flat_map map]. unfold onRetryCalls in *. rewrite <- app_comm_cons.
  cbn [omap list_omap]. rewrite omap_app, IH.
  unfold backoff. rewrite Hcb. reflexivity.
Qed.

(** C8: when every call of the wrapped function fails, [withRetry]
    calls it [maxRetries] times (attempts 1 to [maxRetries]), returns
    rejected with the error of the last attempt, sleeps after every
    failed attempt but the last, and, when given, calls [onRetry] before
    each sleep with the attempt number, the message of the error and the
    delay about to be slept. *)
Theorem withRetry_exhausts_and_rethrows :
  (1 <= maxRetries options)%Z ->
  let n := maxRetries options in
  exists trace : list Event,
    withRetry (T := T) (alwaysFails errs) options random
    = Some (Rejected (VError (asError (errs n))), trace) /\
    calls trace = seqZ 1 n /\
    sleeps trace = map (delayFor options random) (seqZ 1 (n - 1)) /\
    (onRetry options = true ->
     onRetryCalls trace
     = map (fun k => (k, message (asError (errs k)), delayFor options random k))
         (seqZ 1 (n - 1)) /\
     trace
     = flat_map (fun k =>
                   let msg := message (asError (errs k)) in
                   let d := delayFor options random k in
                   [EvCall k; EvLogWarn k n msg; EvOnRetry k msg d;
                    EvLogDebug d; EvSleep d])
         (seqZ 1 (n - 1))
       ++ [EvCall n]).
Proof.
  intros Hn n. eexists. split; [apply withRetry_alwaysFails; exact Hn|].
  rewrite failedAttempts_split by exact Hn. fold n.
  split; [|split; [|intros Hcb; split]].
  - unfold calls. rewrite omap_app. fold (calls (flat_map
      (fun k => EvCall k :: backoff options random k (asError (errs k)))
      (seqZ 1 (n - 1)))).
    rewrite calls_blocks. cbn.
    replace n with ((n - 1) + 1)%Z at 3 by lia.
    rewrite seqZ_app by lia. f_equal. rewrite seqZ_one. f_equal. lia.
  - unfold sleeps. rewrite omap_app. cbn. rewrite app_nil_r.
    apply sleeps_blocks.
  - unfold onRetryCalls. rewrite omap_app. cbn. rewrite app_nil_r.
    apply onRetryCalls_blocks. exact Hcb.
  - f_equal. apply flat_map_ext. intros k. unfold backoff.
    rewrite Hcb. reflexivity.
Qed.
End RetryExhaustion.

Lemma withRetry_exhausts_and_rethrows_witness :
  exists trace : list Retry.Event,
    Retry.withRetry (T := unit)
      (Retry.alwaysFails (fun _ => Retry.VError {| Retry.message := "boom" |}))
      {| Retry.maxRetries := 3; Retry.retryDelay := 1; Retry.onRetry := true;
         Retry.exponentialBackoff := None; Retry.maxDelay := None;
         Retry.jitter := Some false |}
      (fun _ => 0%Q)
    = Some (Retry.Rejected (Retry.VError {| Retry.message := "boom" |}), trace)
    /\ Retry.calls trace = [1; 2; 3]%Z.
Proof.
  destruct (withRetry_exhausts_and_rethrows (T := unit)
    {| Retry.maxRetries := 3; Retry.retryDelay := 1; Retry.onRetry := true;
       Retry.exponentialBackoff := None; Retry.maxDelay := None;
       Retry.jitter := Some false |}
    (fun _ => 0%Q)
    (fun _ => Retry.VError {| Retry.message := "boom" |}))
    as (trace & Hrun & Hcalls & _); [simpl; lia|].
  exists trace. split; [exact Hrun | exact Hcalls].
Defined.

Section RetryClassification.
Import Retry.
Context {T : Type}.
Variable options : RetryOptions.
Variable random : Z -> Q.

Lemma control_failedAttempts (errs1 errs2 : Z -> JSValue) (l : list Z) :
  map control (flat_map (failedAttempt options random errs1) l)
  = map control (flat_map (failedAttempt options random errs2) l).
Proof.
  induction l as [|k l IH]; [reflexivity|].
  cbn [flat_map]. rewrite !map_app, IH. f_equal.
  unfold failedAttempt, backoff.
  destruct (k <? maxRetries options)%Z, (onRetry options); reflexivity.
Qed.

(** C9: [withRetry] does not consult [isRetryableError]: with errors
    that the classifier accepts on one side and errors it rejects on the
    other, both runs make [maxRetries] attempts and have the same
    control trace (calls, callbacks and sleeps with the same delays). *)
Theorem withRetry_ignores_classification (errs1 errs2 : Z -> JSValue) :
  (forall k, isRetryableError (message (asError (errs1 k))) = true) ->
  (forall k, isRetryableError (message (asError (errs2 k))) = false) ->
  exists (e1 e2 : JSError) (tr1 tr2 : list Event),
    withRetry (T := T) (alwaysFails errs1) options random
    = Some (Rejected (VError e1), tr1) /\
    withRetry (T := T) (alwaysFails errs2) options random
    = Some (Rejected (VError e2), tr2) /\
    calls tr1 = seqZ 1 (maxRetries options) /\
    calls tr2 = seqZ 1 (maxRetries options) /\
    map control tr1 = map control tr2.
Proof.
  intros _ _.
  destruct (withRetry_alwaysFails_any (T := T) options random errs1) as [e1 H1].
  destruct (withRetry_alwaysFails_any (T := T) options random errs2) as [e2 H2].
  exists e1, e2. eexists. eexists.
  split; [exact H1|]. split; [exact H2|].
  split; [apply calls_failedAttempts|].
  split; [apply calls_failedAttempts|].
  apply control_failedAttempts.
Qed.
End RetryClassification.

Lemma withRetry_ignores_classification_witness :
  exists (e1 e2 : Retry.JSError) (tr1 tr2 : list Retry.Event),
    Retry.withRetry (T := unit)
      (Retry.alwaysFails (fun _ => Retry.VError {| Retry.message := "429 rate limit" |}))
      {| Retry.maxRetries := 3; Retry.retryDelay := 1; Retry.onRetry := true;
         Retry.exponentialBackoff := None; Retry.maxDelay := None;
         Retry.jitter := None |}
      (fun _ => 1 # 2)
    = Some (Retry.Rejected (Retry.VError e1), tr1) /\
    Retry.withRetry (T := unit)
      (Retry.alwaysFails (fun _ => Retry.VOther "syntax error"))
      {| Retry.maxRetries := 3; Retry.retryDelay := 1; Retry.onRetry := true;
         Retry.exponentialBackoff := None; Retry.maxDelay := None;
         Retry.jitter := None |}
      (fun _ => 1 # 2)
    = Some (Retry.Rejected (Retry.VError e2), tr2) /\
    Retry.calls tr1 = seqZ 1 3 /\
    Retry.calls tr2 = seqZ 1 3 /\
    map Retry.control tr1 = map Retry.control tr2.
Proof.
  apply (withRetry_ignores_classification (T := unit)
    {| Retry.maxRetries := 3; Retry.retryDelay := 1; Retry.onRetry := true;
       Retry.exponentialBackoff := None; Retry.maxDelay := None;
       Retry.jitter := None |}
    (fun _ => 1 # 2)
    (fun _ => Retry.VError {| Retry.message := "429 rate limit" |})
    (fun _ => Retry.VOther "syntax error")); intros k; reflexivity.
Defined.

(** ** The markdown task source *)

Section MarkdownSource.
Import Markdown.
Local Open Scope string_scope.


Lemma without_app (c : ascii) (s t : string) :
  without c (s ++ t) <-> without c s /\ without c t.
Proof.
  induction s as [|a s IH]; [cbn; tauto|].
  change (String a s ++ t) with (String a (s ++ t)).
  cbn [without]. rewrite IH. tauto.
Qed.

Lemma without_substring (c : ascii) (s : string) :
  without c s -> forall n m, without c (String.substring n m s).
Proof.
  induction s as [|a s IH]; intros H n m.
  - destruct n, m; exact I.
  - destruct H as [Ha Hs]. destruct n as [|n]; cbn.
    + destruct m as [|m]; cbn; [exact I|]. split; [exact Ha|apply IH, Hs].
    + apply IH, Hs.
Qed.

Lemma replaceCR_without (s : string) : without CR (replaceCR s).
Proof.
  induction s as [|a s IH]; cbn; [exact I|]. split; [|exact IH].
  destruct (isChar a CR) eqn:E; [reflexivity|exact E].
Qed.

Lemma replaceCR_id (s : string) : without CR s -> replaceCR s = s.
Proof.
  induction s as [|a s IH]; cbn; [reflexivity|].
  intros [-> Hs]. rewrite IH by exact Hs. reflexivity.
Qed.

Lemma replaceCRLF_id (s : string) : without CR s -> replaceCRLF s = s.
Proof.
  induction s as [|a s IH]; [reflexivity|].
  intros [Ha Hs]. cbn [replaceCRLF]. rewrite Ha. cbn [andb].
  destruct s as [|b s]; [reflexivity|]. rewrite (IH Hs). reflexivity.
Qed.

Lemma readFileNormalized_without (f : File) : without CR (readFileNormalized f).
Proof. apply replaceCR_without. Qed.

Lemma split_nonempty (s : string) : split s <> [].
Proof.
  induction s as [|a s IH]; cbn; [discriminate|].
  destruct (isChar a LF); [discriminate|].
  destruct (split s); discriminate.
Qed.

Lemma split_without_LF (s : string) : Forall (without LF) (split s).
Proof.
  induction s as [|a s IH]; cbn.
  - repeat constructor.
  - destruct (isChar a LF) eqn:E.
    + constructor; [exact I|exact IH].
    + destruct (split s) as [|l ls]; [repeat constructor; exact E|].
      inversion_clear IH. constructor; [split; assumption|assumption].
Qed.

Lemma split_without (c : ascii) (s : string) :
  without c s -> Forall (without c) (split s).
Proof.
  induction s as [|a s IH]; cbn.
  - repeat constructor.
  - intros [Ha Hs]. specialize (IH Hs). destruct (isChar a LF).
    + constructor; [exact I|exact IH].
    + destruct (split s) as [|l ls]; [repeat constructor; exact Ha|].
      inversion_clear IH. constructor; [split; assumption|assumption].
Qed.

Lemma split_line (l : string) : without LF l -> split l = [l].
Proof.
  induction l as [|a l IH]; cbn; [reflexivity|].
  intros [-> Hl]. rewrite (IH Hl). reflexivity.
Qed.

Lemma split_app_LF (l t : string) :
  without LF l -> split (l ++ String LF t) = l :: split t.
Proof.
  induction l as [|a l IH].
  - intros _. reflexivity.
  - intros [Ha Hl].
    change (String a l ++ String LF t) with (String a (l ++ String LF t)).
    cbn [split]. rewrite Ha, (IH Hl). reflexivity.
Qed.

Lemma split_join (ls : list string) :
  ls <> [] -> Forall (without LF) ls -> split (join ls) = ls.
Proof.
  induction ls as [|l ls IH]; [congruence|]. intros _ H.
  inversion_clear H as [|? ? Hl Hls].
  destruct ls as [|l' ls].
  - cbn. apply split_line, Hl.
  - cbn [join]. rewrite split_app_LF by exact Hl.
    f_equal. apply IH; [discriminate|exact Hls].
Qed.

Lemma join_without_CR (ls : list string) :
  Forall (without CR) ls -> without CR (join ls).
Proof.
  induction 1 as [|l ls Hl Hls IH]; [exact I|].
  destruct ls as [|l' ls]; [exact Hl|].
  cbn [join]. apply without_app. split; [exact Hl|]. split; [reflexivity|exact IH].
Qed.

Lemma checkOff_without (c : ascii) (line : string) :
  isChar "-" c = false -> isChar " " c = false -> isChar "[" c = false ->
  isChar "x" c = false -> isChar "]" c = false ->
  without c line -> without c (checkOff line).
Proof.
  intros H1 H2 H3 H4 H5 H. unfold checkOff.
  destruct (String.prefix "- [ ] " line); [|exact H].
  apply without_app. split.
  - cbn -[isChar]. rewrite H1, H2, H3, H4, H5. tauto.
  - apply without_substring, H.
Qed.


Lemma prefix_app (p l : string) :
  String.prefix p l = true -> exists r, l = p ++ r.
Proof.
  revert l. induction p as [|a p IH]; intros l H.
  - exists l. reflexivity.
  - destruct l as [|b l]; [discriminate|]. cbn in H.
    destruct (ascii_dec a b) as [->|]; [|discriminate].
    destruct (IH l H) as [r ->]. exists r. reflexivity.
Qed.

Lemma substring_all (r : string) : String.substring 0 (String.length r) r = r.
Proof. induction r as [|a r IH]; cbn; [reflexivity|]. rewrite IH. reflexivity. Qed.

Lemma unchecked_cons (r : string) :
  "- [ ] " ++ r
  = String "-" (String " " (String "[" (String " " (String "]" (String " " r))))).
Proof. reflexivity. Qed.

Lemma checked_cons (r : string) :
  "- [x] " ++ r
  = String "-" (String " " (String "[" (String "x" (String "]" (String " " r))))).
Proof. reflexivity. Qed.

Lemma prefix_empty (r : string) : String.prefix "" r = true.
Proof. destruct r; reflexivity. Qed.

Lemma checkOff_unchecked (r : string) :
  checkOff ("- [ ] " ++ r) = "- [x] " ++ r.
Proof.
  unfold checkOff. rewrite unchecked_cons.
  replace (String.prefix "- [ ] " _) with true
    by (cbn; rewrite prefix_empty; reflexivity).
  unfold dropPrefix. cbn. rewrite Nat.sub_0_r, substring_all.
  reflexivity.
Qed.

Lemma checkOff_other (line : string) :
  String.prefix "- [ ] " line = false -> checkOff line = line.
Proof. unfold checkOff. intros ->. reflexivity. Qed.

Lemma checkOff_idem (line : string) : checkOff (checkOff line) = checkOff line.
Proof.
  destruct (String.prefix "- [ ] " line) eqn:E.
  - destruct (prefix_app _ _ E) as [r ->].
    rewrite checkOff_unchecked. apply checkOff_other.
    rewrite checked_cons. reflexivity.
  - rewrite (checkOff_other line E). apply checkOff_other, E.
Qed.

Lemma checkOff_completed (line : string) :
  completedTest line = true -> completedTest (checkOff line) = true.
Proof.
  destruct (String.prefix "- [ ] " line) eqn:E.
  - destruct (prefix_app _ _ E) as [r ->]. intros _.
    rewrite checkOff_unchecked, checked_cons. unfold completedTest.
    cbn. rewrite prefix_empty. reflexivity.
  - rewrite (checkOff_other line E). tauto.
Qed.

Lemma completedLines_insert (ls : list string) (i : nat) (new : string) :
  (forall old, ls !! i = Some old ->
     completedTest old = true -> completedTest new = true) ->
  completedLines ls <= completedLines (<[i := new]> ls).
Proof.
  revert i. induction ls as [|l ls IH]; intros i H; [reflexivity|].
  destruct i as [|i]; cbn.
  - specialize (H l eq_refl).
    destruct (completedTest l). { rewrite H by reflexivity. lia. }
    destruct (completedTest new); cbn; lia.
  - apply Nat.add_le_mono_l, IH, H.
Qed.

Lemma scanLines_completed (ls : list string) :
  forall i tasks r c, (scanLines i ls tasks r c).2 = c + completedLines ls.
Proof.
  induction ls as [|l ls IH]; intros i tasks r c; cbn [scanLines completedLines].
  - cbn. lia.
  - destruct (incompleteMatch l); rewrite IH;
      destruct (completedTest l); lia.
Qed.

Lemma loadCache_completed (f : File) :
  completedCount (loadCache f).1 = completedLines (fileLines f).
Proof.
  unfold loadCache.
  pose proof (scanLines_completed (split (readFileNormalized f)) 0 [] 0 0) as H.
  destruct (scanLines 0 (split (readFileNormalized f)) [] 0 0) as [[t r] c].
  cbn in *. exact H.
Qed.

Lemma countCompleted_coherent (f : File) (this : MarkdownTaskSource) :
  cacheCoherent f this ->
  (countCompleted f this).1 = completedLines (fileLines f).
Proof.
  unfold cacheCoherent, countCompleted, getCache.
  destruct (cache this) as [c|]; intros H.
  - destruct (negb (getFileMtime f =? fileMtime c)%Z).
    + pose proof (loadCache_completed f) as E.
      destruct (loadCache f) as [c' this']. exact E.
    + cbn. rewrite H. apply loadCache_completed.
  - pose proof (loadCache_completed f) as E.
    destruct (loadCache f) as [c' this']. exact E.
Qed.


Lemma markedLines_idem (i : nat) (ls : list string) :
  markedLines i (markedLines i ls) = markedLines i ls.
Proof.
  unfold markedLines. destruct (ls !! i) as [l|] eqn:E.
  - rewrite list_lookup_insert_eq by (eapply lookup_lt_Some, E).
    cbn. rewrite checkOff_idem. apply list_insert_insert_eq.
  - rewrite !list_insert_ge; try reflexivity;
      rewrite ?length_insert; apply lookup_ge_None; exact E.
Qed.

Lemma fileLines_written (ls : list string) (now : Z) :
  ls <> [] -> Forall (without LF) ls -> Forall (without CR) ls ->
  fileLines {| data := join ls; mtimeMs := now |} = ls.
Proof.
  intros Hne HLF HCR. unfold fileLines, readFileNormalized. cbn [data].
  rewrite replaceCRLF_id, replaceCR_id by (apply join_without_CR, HCR).
  apply split_join; assumption.
Qed.

Lemma fileLines_clean (f : File) :
  fileLines f <> [] /\ Forall (without LF) (fileLines f)
  /\ Forall (without CR) (fileLines f).
Proof.
  split; [apply split_nonempty|]. split; [apply split_without_LF|].
  apply split_without, readFileNormalized_without.
Qed.

Lemma markedLines_clean (i : nat) (ls : list string) :
  ls <> [] -> Forall (without LF) ls -> Forall (without CR) ls ->
  markedLines i ls <> [] /\ Forall (without LF) (markedLines i ls)
  /\ Forall (without CR) (markedLines i ls).
Proof.
  intros Hne HLF HCR. unfold markedLines. split.
  - intros E. apply (f_equal (@List.length string)) in E.
    rewrite length_insert in E. destruct ls; [congruence|discriminate].
  - destruct (ls !! i) as [l|] eqn:E.
    + pose proof (proj1 (Forall_lookup _ _) HLF i l E).
      pose proof (proj1 (Forall_lookup _ _) HCR i l E).
      split; apply Forall_insert; try assumption;
        apply checkOff_without; try reflexivity; assumption.
    + rewrite list_insert_ge by (apply lookup_ge_None; exact E). tauto.
Qed.

(** What a call does, by the position its id names. *)
Lemma markComplete_inside (id : string) (now n : Z) (f : File)
    (this : MarkdownTaskSource) :
  parseInt id = Some n -> (1 <= n <= Z.of_nat (List.length (fileLines f)))%Z ->
  markComplete id now f this
  = ({| data := join (markedLines (Z.to_nat (n - 1)) (fileLines f));
        mtimeMs := now |}, {| cache := None |}).
Proof.
  intros Hid Hn. unfold markComplete. rewrite Hid. fold (fileLines f).
  destruct (Z.leb_spec 0 (n - 1)); [|lia].
  destruct (Z.ltb_spec (n - 1) (Z.of_nat (List.length (fileLines f)))); [|lia].
  reflexivity.
Qed.

Lemma markComplete_outside (id : string) (now : Z) (f : File)
    (this : MarkdownTaskSource) :
  (forall n, parseInt id = Some n ->
     (n < 1 \/ Z.of_nat (List.length (fileLines f)) < n)%Z) ->
  markComplete id now f this = (f, {| cache := None |}).
Proof.
  intros H. unfold markComplete. destruct (parseInt id) as [n|]; [|reflexivity].
  fold (fileLines f). specialize (H n eq_refl).
  destruct (Z.leb_spec 0 (n - 1)); [|reflexivity].
  destruct (Z.ltb_spec (n - 1) (Z.of_nat (List.length (fileLines f))));
    [lia|reflexivity].
Qed.

(** A call either names a line of the file or writes nothing. *)
Lemma markComplete_cases (id : string) (f : File) :
  (exists n : Z,
     parseInt id = Some n /\
     (1 <= n <= Z.of_nat (List.length (fileLines f)))%Z) \/
  (forall n, parseInt id = Some n ->
     (n < 1 \/ Z.of_nat (List.length (fileLines f)) < n)%Z).
Proof.
  destruct (parseInt id) as [n|]; [|right; discriminate].
  destruct (Z_le_dec 1 n);
    [destruct (Z_le_dec n (Z.of_nat (List.length (fileLines f))))|].
  - left. exists n. split; [reflexivity|lia].
  - right. intros m [= <-]. lia.
  - right. intros m [= <-]. lia.
Qed.

Lemma fileLines_marked (i : nat) (now : Z) (f : File) :
  fileLines {| data := join (markedLines i (fileLines f)); mtimeMs := now |}
  = markedLines i (fileLines f).
Proof.
  destruct (fileLines_clean f) as (Hne & HLF & HCR).
  destruct (markedLines_clean i _ Hne HLF HCR) as (Hne' & HLF' & HCR').
  apply fileLines_written; assumption.
Qed.

(** Either way the lines afterwards are [markedLines] of the lines
    before, at some position (out of range when nothing is written). *)
Lemma markComplete_lines (id : string) (now : Z) (f : File)
    (this : MarkdownTaskSource) :
  exists i : nat,
    fileLines (markComplete id now f this).1 = markedLines i (fileLines f).
Proof.
  destruct (markComplete_cases id f) as [(n & Hid & Hn)|Hout].
  - exists (Z.to_nat (n - 1)).
    rewrite (markComplete_inside id now n) by assumption.
    apply fileLines_marked.
  - exists (List.length (fileLines f)).
    rewrite markComplete_outside by exact Hout.
    unfold markedLines. rewrite list_insert_ge by lia. reflexivity.
Qed.

Lemma markComplete_cache (id : string) (now : Z) (f : File)
    (this : MarkdownTaskSource) :
  (markComplete id now f this).2 = {| cache := None |}.
Proof.
  destruct (markComplete_cases id f) as [(n & Hid & Hn)|Hout].
  - rewrite (markComplete_inside id now n) by assumption. reflexivity.
  - rewrite markComplete_outside by exact Hout. reflexivity.
Qed.

Lemma markedLines_completed (i : nat) (ls : list string) :
  completedLines ls <= completedLines (markedLines i ls).
Proof.
  apply completedLines_insert. intros old ->. apply checkOff_completed.
Qed.

Lemma markComplete_completed (id : string) (now : Z) (f : File)
    (this : MarkdownTaskSource) :
  completedLines (fileLines f)
  <= completedLines (fileLines (markComplete id now f this).1).
Proof.
  destruct (markComplete_lines id now f this) as [i ->].
  apply markedLines_completed.
Qed.

Lemma markComplete_twice (id : string) (now now' : Z) (f : File)
    (this this' : MarkdownTaskSource) :
  data (markComplete id now' (markComplete id now f this).1 this').1
  = data (markComplete id now f this).1.
Proof.
  destruct (markComplete_cases id f) as [(n & Hid & Hn)|Hout].
  - rewrite (markComplete_inside id now n f) by assumption. cbn [fst].
    rewrite (markComplete_inside id now' n).
    + cbn [fst data]. rewrite fileLines_marked, markedLines_idem. reflexivity.
    + exact Hid.
    + rewrite fileLines_marked. unfold markedLines. rewrite length_insert.
      exact Hn.
  - rewrite (markComplete_outside id now f) by exact Hout. cbn [fst].
    rewrite markComplete_outside by exact Hout. reflexivity.
Qed.

Lemma markAll_completed (calls : list (string * Z)) :
  forall (f : File) (this : MarkdownTaskSource),
    cacheCoherent f this ->
    completedLines (fileLines f)
    <= completedLines (fileLines (markAll calls f this).1)
    /\ cacheCoherent (markAll calls f this).1 (markAll calls f this).2.
Proof.
  induction calls as [|[id now] calls IH]; intros f this Hc.
  - split; [reflexivity|exact Hc].
  - cbn [markAll].
    pose proof (markComplete_completed id now f this) as Hstep.
    pose proof (markComplete_cache id now f this) as Hcache.
    destruct (markComplete id now f this) as [f1 this1]. cbn [fst snd] in *.
    subst this1. destruct (IH f1 {| cache := None |} I) as [Hle Hco].
    split; [lia|exact Hco].
Qed.

(** C10: a second [markComplete] of the same id leaves the content and
    the completed count as the first left them; [countCompleted] never
    decreases over a call nor over any sequence of calls; an id outside
    the file's lines writes nothing; an id inside replaces a leading
    "- [ ] " of that line by "- [x] " and keeps every other line. *)
Theorem markComplete_idempotent_monotone
    (id : string) (now now' : Z) (f : File) (this : MarkdownTaskSource) :
  cacheCoherent f this ->
  let once := markComplete id now f this in
  let twice := markComplete id now' once.1 once.2 in
  (* a second call changes neither the content nor the count *)
  data twice.1 = data once.1 /\
  (countCompleted twice.1 twice.2).1 = (countCompleted once.1 once.2).1 /\
  (* the count never decreases, over one call and over any sequence *)
  (countCompleted f this).1 <= (countCompleted once.1 once.2).1 /\
  (forall calls : list (string * Z),
     let after := markAll calls f this in
     (countCompleted f this).1 <= (countCompleted after.1 after.2).1) /\
  (* a line number outside the file: nothing is written *)
  ((forall n, parseInt id = Some n ->
      (n < 1 \/ Z.of_nat (List.length (fileLines f)) < n)%Z) ->
   once.1 = f) /\
  (* a line number inside: that line is checked off, the others stay *)
  (forall n, parseInt id = Some n ->
     (1 <= n <= Z.of_nat (List.length (fileLines f)))%Z ->
     let i := Z.to_nat (n - 1) in
     List.length (fileLines once.1) = List.length (fileLines f) /\
     fileLines once.1 !! i = checkOff <$> fileLines f !! i /\
     forall j, j <> i -> fileLines once.1 !! j = fileLines f !! j) /\
  (forall rest, checkOff ("- [ ] " ++ rest) = "- [x] " ++ rest) /\
  (forall line, String.prefix "- [ ] " line = false -> checkOff line = line).
Proof.
  intros Hco once twice.
  assert (Hco1 : cacheCoherent once.1 once.2).
  { unfold once. rewrite markComplete_cache. exact I. }
  assert (Hco2 : cacheCoherent twice.1 twice.2).
  { unfold twice. rewrite markComplete_cache. exact I. }
  assert (Hdata : data twice.1 = data once.1) by apply markComplete_twice.
  split; [exact Hdata|].
  split.
  { rewrite !countCompleted_coherent by assumption.
    unfold fileLines, readFileNormalized. rewrite Hdata. reflexivity. }
  split.
  { rewrite !countCompleted_coherent by assumption.
    apply markComplete_completed. }
  split.
  { intros calls after.
    destruct (markAll_completed calls f this Hco) as [Hle Hco'].
    rewrite !countCompleted_coherent by assumption. exact Hle. }
  split.
  { intros Hout. unfold once. rewrite markComplete_outside by exact Hout.
    reflexivity. }
  split.
  { intros n Hid Hn i. unfold once.
    rewrite (markComplete_inside id now n) by assumption. cbn [fst].
    rewrite fileLines_marked. fold i. unfold markedLines.
    split; [apply length_insert|]. split.
    - destruct (fileLines f !! i) as [l|] eqn:E.
      + rewrite list_lookup_insert_eq by (eapply lookup_lt_Some, E).
        reflexivity.
      + apply lookup_ge_None in E. unfold i in E. lia.
    - intros j Hj. apply list_lookup_insert_ne. congruence. }
  split; [apply checkOff_unchecked|apply checkOff_other].
Qed.

End MarkdownSource.

Lemma markComplete_idempotent_monotone_witness :
  let f := {| Markdown.data := "- [ ] a"; Markdown.mtimeMs := 1 |} in
  let this := {| Markdown.cache := None |} in
  let once := Markdown.markComplete "1" 2 f this in
  Markdown.data (Markdown.markComplete "1" 3 once.1 once.2).1
  = Markdown.data once.1
  /\ (Markdown.countCompleted f this).1
     <= (Markdown.countCompleted once.1 once.2).1.
Proof.
  destruct (markComplete_idempotent_monotone "1" 2 3
              {| Markdown.data := "- [ ] a"; Markdown.mtimeMs := 1 |}
              {| Markdown.cache := None |} I)
    as (Hdata & _ & Hle & _).
  split; [exact Hdata | exact Hle].
Defined.

(** ** The orchestrator: steps of the shell *)

Section ShellSteps.
Import Ralphy.
Variable conflicts : Git.Tip -> Git.Tip -> list string.

Lemma bind_ok {A B : Type} (c : Sh A) (k : A -> Sh B) (w w1 : World) (a : A) :
  c w = (Ok a, w1) -> bind c k w = k a w1.
Proof. intros E. unfold bind. rewrite E. reflexivity. Qed.

Lemma added_app (w w' : World) (evs : list Event) :
  trace w' = trace w ++ evs -> added w w' = evs.
Proof. intros E. unfold added. rewrite E. apply drop_app_length. Qed.

Lemma git_commands_cons (e : Event) (evs : list Event) :
  git_commands (e :: evs)
  = match e with Git c _ => [c] | _ => [] end ++ git_commands evs.
Proof. destruct e; reflexivity. Qed.

(** A git command changes the repository and the trace only. *)
Lemma git_run (c : Git.Cmd) (w : World) :
  git conflicts c w
  = (Ok (Git.run conflicts c (repo w)).1,
     set_trace (trace w ++ [Git c (Git.run conflicts c (repo w)).1])
       (set_repo (Git.run conflicts c (repo w)).2 w)).
Proof. unfold git. destruct (Git.run conflicts c (repo w)). reflexivity. Qed.

Lemma branch_run (name start : string) (r : Git.Repo) :
  Git.run conflicts (Git.branch name start) r
  = match Git.branches r !! name, Git.branches r !! start with
    | None, Some tip =>
      (true, {| Git.branches := <[name := tip]> (Git.branches r);
                Git.HEAD := Git.HEAD r; Git.MERGE_HEAD := Git.MERGE_HEAD r;
                Git.unmerged := Git.unmerged r |})
    | _, _ => (false, r)
    end.
Proof. reflexivity. Qed.

Lemma merge_abort_clears (r : Git.Repo) :
  let out := Git.run conflicts Git.merge_abort r in
  Git.MERGE_HEAD out.2 = None /\ Git.HEAD out.2 = Git.HEAD r /\
  Git.branches out.2 = Git.branches r.
Proof. cbn [Git.run]. destruct (Git.MERGE_HEAD r) eqn:E; cbn; auto. Qed.

Lemma checkout_keeps (name : string) (r : Git.Repo) :
  let out := Git.run conflicts (Git.checkout name) r in
  Git.branches out.2 = Git.branches r /\ Git.MERGE_HEAD out.2 = Git.MERGE_HEAD r.
Proof. cbn [Git.run]. destruct (Git.branches r !! name); cbn; auto. Qed.

(** A failed merge leaves the branches as they were. *)
Lemma merge_failed_keeps (name : string) (r : Git.Repo) :
  let out := Git.run conflicts (Git.merge name) r in
  out.1 = false -> Git.branches out.2 = Git.branches r.
Proof.
  cbn [Git.run]. destruct (Git.MERGE_HEAD r); [reflexivity|].
  destruct (Git.HEAD r) as [h|]; [|reflexivity].
  destruct (Git.branches r !! h) as [ours|]; [|reflexivity].
  destruct (Git.branches r !! name) as [theirs|]; [|reflexivity].
  destruct (Git.merged_in theirs ours); [reflexivity|].
  destruct (conflicts ours theirs); [discriminate|reflexivity].
Qed.
End ShellSteps.

Ltac no_merge_in H :=
  repeat first
    [ progress cbn [app In] in H
    | rewrite in_app_iff in H
    | destruct H as [H|H]; [try discriminate|] ];
  try contradiction.

(** ** The orchestrator: what every step of the agent runner keeps *)


Section Frames.
Import Ralphy.
Local Open Scope sh_scope.
Variable P : World -> World -> Prop.
Hypothesis HP : Frame P.

Lemma ensures_ret {A : Type} (a : A) : ensures P (ret a).
Proof. intros w. exists a, w. split; [reflexivity|apply HP]. Qed.

Lemma ensures_bind {A B : Type} (c : Sh A) (k : A -> Sh B) :
  ensures P c -> (forall a, ensures P (k a)) -> ensures P (bind c k).
Proof.
  intros Hc Hk w. destruct (Hc w) as (a & w1 & E & H1).
  destruct (Hk a w1) as (b & w2 & E' & H2). exists b, w2.
  unfold bind. rewrite E. split; [exact E'|].
  eapply (frame_trans _ HP); eauto.
Qed.

Lemma ensures_emit (e : Event) :
  (forall s t, e <> MarkComplete s t) -> ensures P (emit e).
Proof.
  intros He w. eexists _, _. split; [reflexivity|].
  apply (frame_event _ HP). assumption.
Qed.

Lemma ensures_read {A : Type} (f : World -> A) : ensures P (read f).
Proof. intros w. eexists _, _. split; [reflexivity|apply HP]. Qed.

Lemma ensures_git conflicts (c : Git.Cmd) : ensures P (git conflicts c).
Proof.
  intros w. unfold git. destruct (Git.run conflicts c (repo w)) as [ok r].
  eexists _, _. split; [reflexivity|].
  apply (frame_trans _ HP _ (set_repo r w)); [apply (frame_repo _ HP)|].
  exact (frame_event _ HP (set_repo r w) (Git c ok) ltac:(discriminate)).
Qed.

Lemma ensures_set_worktrees (f : World -> gmap string Worktree) :
  ensures P (fun w => (Ok tt, set_worktrees (f w) w)).
Proof.
  intros w. eexists _, _. split; [reflexivity|].
  apply (frame_worktrees _ HP).
Qed.

Lemma ensures_worktree_remove dir : ensures P (worktree_remove dir).
Proof.
  intros w. eexists _, _. split; [reflexivity|].
  apply (frame_trans _ HP _ (set_worktrees (delete dir (worktrees w)) w));
    [apply (frame_worktrees _ HP)|].
  exact (frame_event _ HP (set_worktrees (delete dir (worktrees w)) w)
           (WorktreeRemove dir) ltac:(discriminate)).
Qed.

Lemma ensures_worktree_add dir name : ensures P (worktree_add dir name).
Proof.
  intros w. eexists _, _. split; [reflexivity|].
  eapply (frame_trans _ HP); [apply (frame_worktrees _ HP)|].
  match goal with
  | |- P ?w0 (set_trace (_ ++ [?e]) _) =>
      exact (frame_event _ HP w0 e ltac:(discriminate))
  end.
Qed.

Lemma ensures_apply_invocation dir inv : ensures P (apply_invocation dir inv).
Proof.
  intros w. unfold apply_invocation. destruct (worktrees w !! dir) as [wt|].
  - eexists _, _. split; [reflexivity|].
    eapply (frame_trans _ HP); [apply (frame_worktrees _ HP)|].
    match goal with
    | |- P ?w0 (set_repo ?r _) => exact (frame_repo _ HP w0 r)
    end.
  - eexists _, _. split; [reflexivity|apply HP].
Qed.
End Frames.

Ltac ensures_step HP :=
  match goal with
  | |- Ralphy.ensures _ (Ralphy.bind _ _) =>
      apply (ensures_bind _ HP); [|intros ?]
  | |- Ralphy.ensures _ (Ralphy.ret _) => apply (ensures_ret _ HP)
  | |- Ralphy.ensures _ (Ralphy.emit _) =>
      apply (ensures_emit _ HP); discriminate
  | |- Ralphy.ensures _ (Ralphy.echo _) =>
      apply (ensures_emit _ HP); discriminate
  | |- Ralphy.ensures _ (Ralphy.read _) => apply (ensures_read _ HP)
  | |- Ralphy.ensures _ (Ralphy.dir_exists _) => apply (ensures_read _ HP)
  | |- Ralphy.ensures _ (Ralphy.status_porcelain _) => apply (ensures_read _ HP)
  | |- Ralphy.ensures _ (Ralphy.rev_list_count _) => apply (ensures_read _ HP)
  | |- Ralphy.ensures _ (Ralphy.git _ _) => apply (ensures_git _ HP)
  | |- Ralphy.ensures _ (Ralphy.rm_rf _) => apply (ensures_set_worktrees _ HP)
  | |- Ralphy.ensures _ (Ralphy.worktree_remove _) =>
      apply (ensures_worktree_remove _ HP)
  | |- Ralphy.ensures _ (Ralphy.worktree_add _ _) =>
      apply (ensures_worktree_add _ HP)
  | |- Ralphy.ensures _ (Ralphy.apply_invocation _ _) =>
      apply (ensures_apply_invocation _ HP)
  | |- Ralphy.ensures _ (if ?b then _ else _) => destruct b
  | |- Ralphy.ensures _ (match ?x with _ => _ end) => destruct x
  end.

Section RunnerFrames.
Import Ralphy.
Variable cfg : Config.
Variable conflicts : Git.Tip -> Git.Tip -> list string.
Variable engine : Z -> string -> Z -> Invocation.
Variable parse_tokens : string -> Z * Z.
Variable setup_dirty : Z -> bool.
Variable P : World -> World -> Prop.
Hypothesis HP : Frame P.

Lemma ensures_cleanup_agent_worktree dir name log :
  ensures P (cleanup_agent_worktree dir name log).
Proof. unfold cleanup_agent_worktree. repeat ensures_step HP. Qed.

Lemma ensures_engine_loop remaining :
  forall retry task agent dir log,
    ensures P (engine_loop cfg engine remaining retry task agent dir log).
Proof.
  induction remaining as [|n IH]; intros; cbn [engine_loop].
  - apply (ensures_ret _ HP).
  - repeat first [apply IH | ensures_step HP].
Qed.

Lemma ensures_run_parallel_agent task agent log :
  ensures P (run_parallel_agent cfg conflicts engine parse_tokens setup_dirty
               task agent log).
Proof.
  unfold run_parallel_agent, create_agent_worktree.
  repeat first [apply ensures_engine_loop
               | apply ensures_cleanup_agent_worktree | ensures_step HP].
Qed.
End RunnerFrames.

Section FrameInstances.
Import Ralphy.

Lemma frame_any : Frame (fun _ _ => True).
Proof. split; auto. Qed.

Lemma frame_marks : Frame marks_kept.
Proof.
  split; unfold marks_kept.
  - reflexivity.
  - intros w1 w2 w3 H1 H2. congruence.
  - intros w e He. cbn. unfold marked. rewrite omap_app. cbn.
    destruct e; try (rewrite app_nil_r; reflexivity).
    exfalso. eapply He. reflexivity.
  - reflexivity.
  - reflexivity.
Qed.

Lemma ensures_completes {A : Type} (Q : World -> World -> Prop) (c : Sh A) :
  ensures Q c -> completes c.
Proof. intros H w. destruct (H w) as (a & w' & E & _). eauto. Qed.
End FrameInstances.

(** ** The agent runner *)

Section AgentRunner.
Import Ralphy.
Local Open Scope sh_scope.
Variable cfg : Config.
Variable conflicts : Git.Tip -> Git.Tip -> list string.
Variable engine : Z -> string -> Z -> Invocation.
Variable parse_tokens : string -> Z * Z.
Variable setup_dirty : Z -> bool.




Lemma apply_invocation_no_commit (dir : string) (inv : Invocation)
    (w : World) (wt : Worktree) :
  worktrees w !! dir = Some wt -> new_commits inv = 0%nat ->
  exists w', apply_invocation dir inv w = (Ok tt, w') /\
    worktrees w' !! dir
    = Some {| wt_branch := wt_branch wt; wt_commits := wt_commits wt;
              wt_dirty := dirty_after inv |}.
Proof.
  intros Hwt Hz. unfold apply_invocation. rewrite Hwt, Hz.
  eexists. split; [reflexivity|]. cbn. rewrite lookup_insert_eq.
  rewrite Nat.add_0_r. reflexivity.
Qed.

(** The retry loop when attempt [k] (counted from the current one) is
    the first to succeed and no attempt commits. *)
Lemma engine_loop_succeeds (task : string) (agent : Z) (dir log : string)
    (k : nat) :
  forall (remaining : nat) (retry : Z) (w : World) (wt : Worktree),
    (k < remaining)%nat ->
    (forall j, (j < k)%nat ->
       attempt_fails (engine agent task (retry + Z.of_nat j))) ->
    attempt_succeeds (engine agent task (retry + Z.of_nat k)) ->
    (forall j, (j <= k)%nat ->
       new_commits (engine agent task (retry + Z.of_nat j)) = 0%nat) ->
    worktrees w !! dir = Some wt ->
    exists w' d,
      engine_loop cfg engine remaining retry task agent dir log w
      = (Ok (Succeeded (result (engine agent task (retry + Z.of_nat k)))), w') /\
      worktrees w' !! dir
      = Some {| wt_branch := wt_branch wt; wt_commits := wt_commits wt;
                wt_dirty := d |}.
Proof.
  induction k as [|k IH]; intros remaining retry w wt Hk Hfail Hok Hzero Hwt;
    (destruct remaining as [|remaining]; [lia|]); cbn [engine_loop].
  - rewrite Z.add_0_r in Hok. destruct Hok as (Hexit & Hres & Herr).
    specialize (Hzero 0%nat ltac:(lia)). rewrite Z.add_0_r in *.
    destruct (apply_invocation_no_commit dir _ _ wt Hwt Hzero) as (w1 & E1 & Hw1).
    unfold bind at 1. cbn [emit].
    match goal with
    | |- context [bind (apply_invocation dir ?i) _ ?w0] =>
        destruct (apply_invocation_no_commit dir i w0 wt Hwt Hzero)
          as (w2 & E2 & Hw2)
    end.
    erewrite bind_ok by exact E2.
    rewrite Hexit. cbn [Z.eqb negb].
    apply String.eqb_neq in Hres. rewrite Hres, Herr. cbn [negb].
    eexists _, _. split; [reflexivity|exact Hw2].
  - destruct (Hfail 0%nat ltac:(lia)) as (Hexit & Hbad).
    pose proof (Hzero 0%nat ltac:(lia)) as Hz. rewrite Z.add_0_r in *.
    unfold bind at 1. cbn [emit].
    match goal with
    | |- context [bind (apply_invocation dir ?i) _ ?w0] =>
        destruct (apply_invocation_no_commit dir i w0 wt Hwt Hz)
          as (w2 & E2 & Hw2)
    end.
    erewrite bind_ok by exact E2.
    rewrite Hexit. cbn [Z.eqb negb].
    assert (Hnext : forall w3, worktrees w3 !! dir = worktrees w2 !! dir ->
      exists w' d,
        engine_loop cfg engine remaining (retry + 1) task agent dir log w3
        = (Ok (Succeeded
                 (result (engine agent task (retry + Z.of_nat (S k))))), w') /\
        worktrees w' !! dir
        = Some {| wt_branch := wt_branch wt; wt_commits := wt_commits wt;
                  wt_dirty := d |}).
    { intros w3 Hw3. rewrite Hw2 in Hw3.
      destruct (IH remaining (retry + 1)%Z w3
                  {| wt_branch := wt_branch wt; wt_commits := wt_commits wt;
                     wt_dirty := dirty_after (engine agent task retry) |})
        as (w' & d & E & Hw').
      - lia.
      - intros j Hj. replace (retry + 1 + Z.of_nat j)%Z
          with (retry + Z.of_nat (S j))%Z by lia. apply Hfail. lia.
      - replace (retry + 1 + Z.of_nat k)%Z
          with (retry + Z.of_nat (S k))%Z by lia. exact Hok.
      - intros j Hj. replace (retry + 1 + Z.of_nat j)%Z
          with (retry + Z.of_nat (S j))%Z by lia. apply Hzero. lia.
      - exact Hw3.
      - exists w', d. split; [|exact Hw'].
        replace (retry + Z.of_nat (S k))%Z
          with (retry + 1 + Z.of_nat k)%Z by lia. exact E. }
    destruct (String.eqb (result (engine agent task retry)) "") eqn:Hempty;
      cbn [negb].
    + unfold bind at 1. cbn [emit]. unfold bind at 1. cbn [emit].
      apply Hnext. reflexivity.
    + destruct Hbad as [Hbad|Hbad];
        [apply String.eqb_eq in Hbad; congruence|].
      rewrite Hbad. cbn [negb].
      unfold bind at 1. cbn [emit]. unfold bind at 1. cbn [emit].
      apply Hnext. reflexivity.
Qed.

Lemma create_agent_worktree_fresh (task : string) (agent : Z) (w : World) :
  let dir := WORKTREE_BASE cfg +:+ "/agent-" +:+ showZ agent in
  let name := "ralphy/agent-" +:+ showZ agent +:+ "-" +:+ slugify task in
  worktrees w !! dir = None ->
  exists w',
    create_agent_worktree cfg conflicts task agent w = (Ok (dir, name), w') /\
    (worktrees w' !! dir = None \/
     worktrees w' !! dir
     = Some {| wt_branch := name; wt_commits := 0; wt_dirty := false |}).
Proof.
  intros dir name Hfresh. unfold create_agent_worktree. fold dir name.
  unfold bind at 1. unfold git at 1.
  destruct (Git.run conflicts (Git.branch_D name) (repo w)) as [ok1 r1].
  unfold bind at 1. cbn [read BASE_BRANCH set_trace set_repo].
  unfold bind at 1. unfold bind at 1. unfold git at 1.
  cbn [repo set_trace set_repo].
  destruct (Git.run conflicts (Git.branch name (BASE_BRANCH w)) r1) as [ok2 r2].
  destruct ok2.
  - eexists. split; [reflexivity|]. right. cbn. apply lookup_insert_eq.
  - eexists. split; [reflexivity|]. left. exact Hfresh.
Qed.

Lemma batch_result_failed (job : Job) (names : list string * list string)
    (w : World) :
  status_file (job_files job) = failed ->
  exists w', batch_result cfg job names w = (Ok names, w') /\
    marked (trace w') = marked (trace w) /\
    total_input_tokens w' = total_input_tokens w /\
    total_output_tokens w' = total_output_tokens w.
Proof.
  intros Hs. unfold batch_result. rewrite Hs.
  eexists. split; [reflexivity|]. cbn.
  unfold marked. rewrite <- app_assoc, omap_app. cbn. rewrite app_nil_r. auto.
Qed.


Lemma batch_result_marks (job : Job) (names : list string * list string)
    (w : World) :
  exists names' w', batch_result cfg job names w = (Ok names', w') /\
    marked (trace w')
    = marked (trace w) ++ (if is_done job then [job_task job] else []).
Proof.
  unfold batch_result, is_done.
  destruct (status_file (job_files job));
    eexists _, _; (split; [reflexivity|]); cbn;
    unfold marked; rewrite <- ?app_assoc, !omap_app; cbn;
    rewrite ?app_nil_r; reflexivity.
Qed.

Lemma batch_results_marks (jobs : list Job) :
  forall (names : list string * list string) (w : World),
    exists names' w', batch_results cfg jobs names w = (Ok names', w') /\
      marked (trace w')
      = marked (trace w) ++ map job_task (List.filter is_done jobs).
Proof.
  induction jobs as [|job jobs IH]; intros names w; cbn [batch_results].
  - exists names, w. rewrite app_nil_r. split; reflexivity.
  - destruct (batch_result_marks job names w) as (names1 & w1 & E1 & H1).
    destruct (IH names1 w1) as (names2 & w2 & E2 & H2).
    exists names2, w2. erewrite bind_ok by exact E1. split; [exact E2|].
    rewrite H2, H1, <- app_assoc. f_equal. cbn [List.filter].
    destruct (is_done job); reflexivity.
Qed.



End AgentRunner.

(** ** The batch scheduler *)

Section Scheduler.
Import Ralphy.
Local Open Scope sh_scope.
Variable cfg : Config.
Variable conflicts : Git.Tip -> Git.Tip -> list string.
Variable engine : Z -> string -> Z -> Invocation.
Variable parse_tokens : string -> Z * Z.
Variable setup_dirty : Z -> bool.

(** Starting a batch gives one job per task, in order, numbered from
    the iteration counter on, and advances the counter by their number. *)
Lemma start_agents_jobs batch_tasks :
  forall it w, exists jobs w',
    start_agents cfg conflicts engine parse_tokens setup_dirty batch_tasks it w
    = (Ok (jobs, it + Z.of_nat (length batch_tasks))%Z, w') /\
    map job_task jobs = batch_tasks /\
    map job_agent jobs = seqZ (it + 1) (Z.of_nat (length batch_tasks)).
Proof.
  induction batch_tasks as [|task rest IH]; intros it w.
  - exists [], w. cbn. rewrite Z.add_0_r. auto.
  - cbn [start_agents]. unfold bind at 1. cbn [echo emit].
    destruct (ensures_completes _ _
                (ensures_run_parallel_agent cfg conflicts engine parse_tokens
                   setup_dirty _ frame_any task (it + 1)%Z
                   (log_file_of (it + 1)))
                (set_trace
                   (trace w ++ [Echo ("  Agent " +:+ showZ (it + 1) +:+ ": "
                                      +:+ String.substring 0 50 task)]) w))
      as (files & w1 & E1).
    destruct (IH (it + 1)%Z w1) as (jobs & w2 & E2 & Htasks & Hagents).
    exists ({| job_task := task; job_agent := (it + 1)%Z;
               job_log := log_file_of (it + 1); job_files := files |} :: jobs), w2.
    unfold bind. rewrite E1, E2. cbn [fst snd ret].
    replace (it + Z.of_nat (length (task :: rest)))%Z
      with (it + 1 + Z.of_nat (length rest))%Z by (cbn [length]; lia).
    split; [reflexivity|].
    cbn [map job_task job_agent]. split; [f_equal; exact Htasks|].
    rewrite (seqZ_cons (it + 1)) by (cbn [length]; lia).
    f_equal. rewrite Hagents. f_equal; cbn [length]; lia.
Qed.

Lemma run_batch_jobs (num size : Z) (batch_tasks : list string)
    (label : string) (st : Sched) (w : World) :
  exists (jobs : list Job) (st' : Sched) (w' : World),
    run_batch cfg conflicts engine parse_tokens setup_dirty
      num size batch_tasks label st w = (Ok st', w') /\
    iteration st' = (iteration st + Z.of_nat (length batch_tasks))%Z /\
    launched st'
    = launched st ++ [map (fun j => (job_agent j, job_task j)) jobs] /\
    map job_task jobs = batch_tasks /\
    map job_agent jobs
    = seqZ (iteration st + 1) (Z.of_nat (length batch_tasks)).
Proof.
  unfold run_batch. unfold bind at 1. cbn [echo emit].
  match goal with
  | |- context [bind (start_agents _ _ _ _ _ _ _) _ ?w0] =>
      destruct (start_agents_jobs batch_tasks (iteration st) w0)
        as (jobs & w1 & E1 & Htasks & Hagents)
  end.
  unfold bind at 1. rewrite E1. cbn [fst snd].
  unfold bind at 1. cbn [echo emit].
  match goal with
  | |- context [bind (batch_results _ ?js ?names) _ ?w0] =>
      destruct (batch_results_marks cfg js names w0)
        as (names' & w2 & E2 & _)
  end.
  unfold bind at 1. rewrite E2. cbn [ret].
  eexists jobs, _, w2. split; [reflexivity|]. cbn [iteration launched]. auto.
Qed.

(** The loop from [batch_start = s] on, when the iteration ceiling is
    absent or is not reached before the last batch has been started. *)
Lemma batch_loop_partition (tasks : list string) (label : string) (fuel : nat) :
  forall (s : Z) (st : Sched) (w : World),
    let n := Z.of_nat (length tasks) in
    let c := MAX_PARALLEL cfg in
    ((MAX_ITERATIONS cfg <= 0)%Z \/
     (iteration st + c * ((n - s + c - 1) / c - 1) < MAX_ITERATIONS cfg)%Z) ->
    (0 < c)%Z -> (0 <= s <= n)%Z -> (n - s <= Z.of_nat fuel)%Z ->
    exists (st' : Sched) (w' : World) (bs : list (list (Z * string))),
      batch_loop cfg conflicts engine parse_tokens setup_dirty
        fuel tasks label s st w = Some (Ok st', w') /\
      launched st' = launched st ++ bs /\
      concat (map (map snd) bs) = drop (Z.to_nat s) tasks /\
      map fst (concat bs) = seqZ (iteration st + 1) (n - s) /\
      Forall (fun b => (Z.of_nat (length b) <= c)%Z) bs /\
      Z.of_nat (length bs) = ((n - s + c - 1) / c)%Z.
Proof.
  intros s st w n c. revert s st w.
  assert (Hdone : forall fuel' st w,
    exists (st' : Sched) (w' : World) (bs : list (list (Z * string))),
      batch_loop cfg conflicts engine parse_tokens setup_dirty
        fuel' tasks label n st w = Some (Ok st', w') /\
      launched st' = launched st ++ bs /\
      concat (map (map snd) bs) = drop (Z.to_nat n) tasks /\
      map fst (concat bs) = seqZ (iteration st + 1) (n - n) /\
      Forall (fun b => (Z.of_nat (length b) <= c)%Z) bs /\
      (0 < c -> Z.of_nat (length bs) = ((n - n + c - 1) / c))%Z).
  { intros fuel' st w. exists st, w, [].
    split. { destruct fuel'; cbn [batch_loop]; fold n;
             rewrite Z.ltb_irrefl; reflexivity. }
    rewrite app_nil_r. split; [reflexivity|].
    split. { cbn. rewrite drop_ge by (unfold n; lia). reflexivity. }
    split. { rewrite seqZ_nil by lia. reflexivity. }
    split; [constructor|]. intros Hc.
    replace (n - n + c - 1)%Z with (c - 1)%Z by lia.
    rewrite Z.div_small by lia. reflexivity. }
  induction fuel as [|fuel IH]; intros s st w Hmax Hc Hs Hfuel.
  - assert (s = n) by lia. subst s.
    destruct (Hdone 0%nat st w) as (st' & w' & bs & H1 & H2 & H3 & H4 & H5 & H6).
    exists st', w', bs. auto 10.
  - destruct (Z.eq_dec s n) as [->|Hne].
    { destruct (Hdone (S fuel) st w)
        as (st' & w' & bs & H1 & H2 & H3 & H4 & H5 & H6).
      exists st', w', bs. auto 10. }
    cbn [batch_loop]. fold n c.
    destruct (Z.ltb_spec s n) as [Hlt|Hge]; [|lia].
    set (e := if (s + c >? n)%Z then n else (s + c)%Z).
    assert (He : (s < e <= n)%Z /\ (e - s <= c)%Z /\
                 (e = n \/ (e = s + c /\ s + c < n))%Z).
    { unfold e. destruct (Z.gtb_spec (s + c) n); lia. }
    destruct He as (He1 & He2 & He3).
    set (batch_tasks := take (Z.to_nat (e - s)) (drop (Z.to_nat s) tasks)).
    assert (Hlen : Z.of_nat (length batch_tasks) = (e - s)%Z).
    { unfold batch_tasks. rewrite length_take, length_drop. unfold n in *. lia. }
    destruct (run_batch_jobs (batch_num st + 1) (e - s) batch_tasks label st w)
      as (jobs & st1 & w1 & E1 & Hit & Hla & Htasks & Hagents).
    rewrite E1.
    assert (Hj : length jobs = length batch_tasks).
    { rewrite <- Htasks, length_map. reflexivity. }
    assert (Hfirst : concat (map (map snd)
                       [map (fun j => (job_agent j, job_task j)) jobs])
                     = batch_tasks).
    { cbn [map concat]. rewrite app_nil_r, map_map. exact Htasks. }
    destruct He3 as [Hlast|[Hmid Hmore]].
    + (* the last batch: the loop ends here, by either exit *)
      assert (Hcount : ((n - s + c - 1) / c = 1)%Z).
      { symmetry. apply (Z.div_unique _ c 1 (n - s - 1)); lia. }
      assert (Hrest : exists w',
        (if (MAX_ITERATIONS cfg >? 0)%Z
            && (iteration st1 >=? MAX_ITERATIONS cfg)%Z
         then Some (Ok st1,
                (log_warn ("Reached max iterations ("
                           +:+ showZ (MAX_ITERATIONS cfg) +:+ ")") w1).2)
         else batch_loop cfg conflicts engine parse_tokens setup_dirty
                fuel tasks label e st1 w1) = Some (Ok st1, w')).
      { destruct ((MAX_ITERATIONS cfg >? 0)%Z
                  && (iteration st1 >=? MAX_ITERATIONS cfg)%Z);
          [eexists; reflexivity|].
        exists w1. rewrite Hlast. destruct fuel; cbn [batch_loop]; fold n;
          rewrite Z.ltb_irrefl; reflexivity. }
      destruct Hrest as [w' Hrest].
      exists st1, w', [map (fun j => (job_agent j, job_task j)) jobs].
      split; [exact Hrest|]. split; [exact Hla|].
      split. { rewrite Hfirst. unfold batch_tasks. rewrite Hlast.
               apply take_ge. rewrite length_drop. unfold n. lia. }
      split. { cbn [concat]. rewrite app_nil_r, map_map. cbn [fst].
               change (map (fun x => job_agent x) jobs) with (map job_agent jobs).
               rewrite Hagents, Hlen, Hlast. reflexivity. }
      split. { repeat constructor. rewrite length_map, Hj. lia. }
      rewrite Hcount. reflexivity.
    + (* more tasks remain: the ceiling, if any, is not reached yet *)
      assert (Hdiv : ((n - s + c - 1) / c = (n - e + c - 1) / c + 1)%Z).
      { replace (n - s + c - 1)%Z with ((n - e + c - 1) + 1 * c)%Z by lia.
        apply Z.div_add. lia. }
      assert (Hpos : (1 <= (n - e + c - 1) / c)%Z).
      { apply Z.div_le_lower_bound; lia. }
      replace ((MAX_ITERATIONS cfg >? 0)%Z
               && (iteration st1 >=? MAX_ITERATIONS cfg)%Z) with false.
      2:{ symmetry. apply andb_false_iff.
          destruct Hmax as [Hmax|Hmax]; [left; lia|right].
          rewrite Hdiv in Hmax. rewrite Hit, Hlen. nia. }
      destruct (IH e st1 w1) as (st' & w' & bs & E & Hl & Hcat & Hnum & Hall & Hc');
        [|exact Hc|lia|lia|].
      { destruct Hmax as [Hmax|Hmax]; [left; exact Hmax|right].
        rewrite Hdiv in Hmax. rewrite Hit, Hlen. nia. }
      rewrite Hla in Hl. rewrite Hit in Hnum.
      exists st', w', (map (fun j => (job_agent j, job_task j)) jobs :: bs).
      split; [exact E|].
      split. { rewrite Hl, <- app_assoc. reflexivity. }
      split.
      { change (concat (map (map snd)
                  (map (fun j => (job_agent j, job_task j)) jobs :: bs)))
          with (map snd (map (fun j => (job_agent j, job_task j)) jobs)
                ++ concat (map (map snd) bs)).
        rewrite Hcat, map_map. cbn [snd].
        change (map (fun x => job_task x) jobs) with (map job_task jobs).
        rewrite Htasks. unfold batch_tasks.
        replace (Z.to_nat e) with (Z.to_nat s + Z.to_nat (e - s))%nat by lia.
        rewrite <- drop_drop. apply take_drop. }
      split.
      { cbn [concat]. rewrite map_app, Hnum, map_map. cbn [fst].
        change (map (fun x => job_agent x) jobs) with (map job_agent jobs).
        rewrite Hagents, Hlen.
        replace (n - s)%Z with ((e - s) + (n - e))%Z by lia.
        rewrite seqZ_app by lia. f_equal. f_equal; lia. }
      split.
      { constructor; [|exact Hall]. rewrite length_map, Hj. lia. }
      cbn [length]. rewrite Nat2Z.inj_succ, Hc', Hdiv. lia.
Qed.


End Scheduler.

(** ** Worktree cleanup *)

Section WorktreeCleanup.
Import Ralphy.
Local Open Scope sh_scope.


Lemma cleanup_agent_worktree_dirty dir name log w wt :
  worktrees w !! dir = Some wt -> wt_dirty wt = true ->
  cleanup_agent_worktree dir name log w
  = (Ok tt,
     if negb (String.eqb log "")
     then set_trace
            (trace w ++ [Append log
               ("Worktree left in place due to uncommitted changes: " +:+ dir)]) w
     else w).
Proof.
  intros Hwt Hd. unfold cleanup_agent_worktree, bind, dir_exists.
  rewrite bool_decide_eq_true_2 by (rewrite Hwt; eauto).
  unfold status_porcelain. rewrite Hwt, Hd.
  destruct (negb (String.eqb log "")); reflexivity.
Qed.

Lemma cleanup_agent_worktree_clean dir name log w :
  (forall wt, worktrees w !! dir = Some wt -> wt_dirty wt = false) ->
  cleanup_agent_worktree dir name log w
  = (Ok tt, set_trace (trace w ++ [WorktreeRemove dir])
              (set_worktrees (delete dir (worktrees w)) w)).
Proof.
  intros Hc. unfold cleanup_agent_worktree, bind, dir_exists.
  destruct (worktrees w !! dir) as [wt|] eqn:E.
  - rewrite bool_decide_eq_true_2 by eauto.
    unfold status_porcelain. rewrite E, (Hc wt eq_refl). reflexivity.
  - rewrite bool_decide_eq_false_2 by (intros [? ?]; discriminate). reflexivity.
Qed.

Lemma cleanup_worktree_keeps_dirty (d : string) (w : World) :
  exists w', cleanup_worktree d w = (Ok tt, w') /\
    forall dir wt, worktrees w !! dir = Some wt -> wt_dirty wt = true ->
      worktrees w' !! dir = Some wt.
Proof.
  unfold cleanup_worktree, bind, status_porcelain.
  destruct (worktrees w !! d) as [wt0|] eqn:E; [destruct (wt_dirty wt0) eqn:D|].
  - eexists. split; [reflexivity|]. intros dir wt H _. exact H.
  - eexists. split; [reflexivity|]. intros dir wt H Hd. cbn.
    rewrite lookup_delete_ne; [exact H|]. intros ->. congruence.
  - eexists. split; [reflexivity|]. intros dir wt H Hd. cbn.
    rewrite lookup_delete_ne; [exact H|]. intros ->. congruence.
Qed.

Lemma for_each_cleanup_keeps_dirty (dirs : list string) :
  forall w, exists w', for_each dirs cleanup_worktree w = (Ok tt, w') /\
    forall dir wt, worktrees w !! dir = Some wt -> wt_dirty wt = true ->
      worktrees w' !! dir = Some wt.
Proof.
  induction dirs as [|d dirs IH]; intros w; cbn [for_each].
  - exists w. split; [reflexivity|]. auto.
  - destruct (cleanup_worktree_keeps_dirty d w) as (w1 & E1 & H1).
    destruct (IH w1) as (w2 & E2 & H2).
    exists w2. unfold bind. rewrite E1. split; [exact E2|]. auto.
Qed.

Lemma cleanup_worktrees_keeps_dirty (cfg : Config) (w : World) :
  forall dir wt, worktrees w !! dir = Some wt -> wt_dirty wt = true ->
    worktrees (cleanup_worktrees cfg w).2 !! dir = Some wt.
Proof.
  intros dir wt H Hd. unfold cleanup_worktrees. unfold bind at 1.
  destruct (for_each_cleanup_keeps_dirty (map fst (map_to_list (worktrees w))) w)
    as (w1 & E1 & H1).
  unfold bind at 1. rewrite E1. unfold bind.
  destruct (map fst (map_to_list (worktrees w1))); cbn; apply H1; assumption.
Qed.

Lemma cleanup_agent_worktree_facts (dir name log : string) (w : World) :
  let once := cleanup_agent_worktree dir name log w in
  let twice := cleanup_agent_worktree dir name log once.2 in
  (* a dirty worktree is left in place, and logged *)
  (forall wt, worktrees w !! dir = Some wt -> wt_dirty wt = true ->
     worktrees once.2 = worktrees w /\
     (log <> "" ->
      trace once.2
      = trace w ++ [Append log
          ("Worktree left in place due to uncommitted changes: " +:+ dir)])) /\
  (* a clean one goes, and nothing else *)
  (forall wt, worktrees w !! dir = Some wt -> wt_dirty wt = false ->
     worktrees once.2 = delete dir (worktrees w)) /\
  (* the branch is never deleted: git's refs and the variables stay *)
  repo once.2 = repo w /\
  BASE_BRANCH once.2 = BASE_BRANCH w /\
  integration_branches once.2 = integration_branches w /\
  Forall (fun e => forall c ok, e <> Git c ok)
    (drop (length (trace w)) (trace once.2)) /\
  (* a second call is safe *)
  once.1 = Ok tt /\ twice.1 = Ok tt /\ same_state once.2 twice.2.
Proof.
  intros once twice.
  destruct (worktrees w !! dir) as [wt|] eqn:E; [destruct (wt_dirty wt) eqn:D|].
  - (* dirty *)
    assert (H1 : once = (Ok tt,
       if negb (String.eqb log "")
       then set_trace (trace w ++ [Append log
              ("Worktree left in place due to uncommitted changes: " +:+ dir)]) w
       else w)) by (apply (cleanup_agent_worktree_dirty _ _ _ _ wt); assumption).
    assert (Hw : worktrees once.2 !! dir = Some wt).
    { rewrite H1. cbn [snd]. destruct (negb (String.eqb log "")); exact E. }
    assert (H2 : twice = (Ok tt,
       if negb (String.eqb log "")
       then set_trace (trace once.2 ++ [Append log
              ("Worktree left in place due to uncommitted changes: " +:+ dir)])
              once.2
       else once.2))
      by (apply (cleanup_agent_worktree_dirty _ _ _ _ wt); assumption).
    rewrite H2. rewrite H1. cbn [fst snd].
    split.
    { intros wt' _ _. split.
      - destruct (negb (String.eqb log "")); reflexivity.
      - intros Hlog. apply String.eqb_neq in Hlog. rewrite Hlog. reflexivity. }
    split. { intros wt' [= <-] D'. congruence. }
    destruct (negb (String.eqb log "")); cbn;
      rewrite ?drop_app_length, ?drop_all;
      repeat split; try reflexivity; repeat constructor; discriminate.
  - (* clean *)
    assert (H1 : once = (Ok tt, set_trace (trace w ++ [WorktreeRemove dir])
                          (set_worktrees (delete dir (worktrees w)) w))).
    { apply cleanup_agent_worktree_clean. intros wt' Hwt'. congruence. }
    assert (H2 : twice = (Ok tt, set_trace (trace once.2 ++ [WorktreeRemove dir])
                          (set_worktrees (delete dir (worktrees once.2)) once.2))).
    { apply cleanup_agent_worktree_clean. rewrite H1. cbn.
      intros wt'. rewrite lookup_delete_eq. discriminate. }
    rewrite H2. rewrite H1. cbn [fst snd].
    split. { intros wt' [= <-] D'. congruence. }
    split. { intros; reflexivity. }
    cbn. rewrite drop_app_length, delete_delete_eq.
    repeat split; try reflexivity. repeat constructor. discriminate.
  - (* no such directory *)
    assert (H1 : once = (Ok tt, set_trace (trace w ++ [WorktreeRemove dir])
                          (set_worktrees (delete dir (worktrees w)) w))).
    { apply cleanup_agent_worktree_clean. intros wt' Hwt'. congruence. }
    assert (H2 : twice = (Ok tt, set_trace (trace once.2 ++ [WorktreeRemove dir])
                          (set_worktrees (delete dir (worktrees once.2)) once.2))).
    { apply cleanup_agent_worktree_clean. rewrite H1. cbn.
      intros wt'. rewrite lookup_delete_eq. discriminate. }
    rewrite H2. rewrite H1. cbn [fst snd].
    split. { intros wt' [=]. }
    split. { intros wt' [=]. }
    cbn. rewrite drop_app_length, delete_delete_eq.
    repeat split; try reflexivity. repeat constructor. discriminate.
Qed.


End WorktreeCleanup.

(** ** The group/integration merger *)

Section Integration.
Import Ralphy.
Local Open Scope sh_scope.
Variable cfg : Config.
Variable conflicts : Git.Tip -> Git.Tip -> list string.




(** A merge while [name] is checked out touches the tip of [name] at
    most, and leaves no merge open when it succeeds. *)
Lemma merge_on (name other : string) (r : Git.Repo) (b0 : gmap string Git.Tip)
    (t : Git.Tip) :
  Git.HEAD r = Some name -> Git.branches r = <[name := t]> b0 ->
  let out := Git.run conflicts (Git.merge other) r in
  Git.HEAD out.2 = Some name /\
  (exists t', Git.branches out.2 = <[name := t']> b0) /\
  (out.1 = false -> Git.branches out.2 = Git.branches r).
Proof.
  intros HH HB. cbn [Git.run]. rewrite HH.
  destruct (Git.MERGE_HEAD r); [cbn; eauto|].
  destruct (Git.branches r !! name) as [ours|]; [|cbn; eauto].
  destruct (Git.branches r !! other) as [theirs|]; [|cbn; eauto].
  destruct (Git.merged_in theirs ours); [cbn; eauto|].
  destruct (conflicts ours theirs); cbn; [|eauto].
  split; [reflexivity|]. split; [|discriminate].
  eexists. rewrite HB. apply insert_insert_eq.
Qed.




Lemma merge_group_branches_spec (integ : string) (b0 : gmap string Git.Tip)
    (w0 : World) (names : list string) :
  forall w, merging_into integ b0 w0 w ->
    exists (merge_failed : bool) (w' : World) (evs : list Event),
      merge_group_branches conflicts names w = (Ok merge_failed, w') /\
      merging_into integ b0 w0 w' /\
      trace w' = trace w ++ evs /\
      (merge_failed = false -> Forall (fun e => ~ failed_merge e) evs) /\
      (merge_failed = true ->
       Git.MERGE_HEAD (repo w') = None /\
       exists pre name ok,
         evs = pre ++ [Git (Git.merge name) false;
                       Echo ("[WARN] " +:+ "Conflict merging " +:+ name
                             +:+ " into integration branch");
                       Git Git.merge_abort ok] /\
         In name names /\
         Forall (fun e => ~ failed_merge e) pre).
Proof.
  induction names as [|name names IH]; intros w Hw; cbn [merge_group_branches].
  - exists false, w, []. rewrite app_nil_r.
    repeat split; try assumption; try constructor; try discriminate;
      try apply Hw.
  - destruct Hw as (HH & [t HB] & Hrest).
    destruct (merge_on integ name (repo w) b0 t HH HB) as (HH1 & [t1 HB1] & Hsame).
    erewrite bind_ok by apply git_run.
    destruct (Git.run conflicts (Git.merge name) (repo w)) as [ok r1] eqn:Erun.
    cbn [fst snd] in *. destruct ok; cbn [negb].
    + (* merged: go on *)
      destruct (IH (set_trace (trace w ++ [Git (Git.merge name) true])
                      (set_repo r1 w)))
        as (mf & w' & evs & E & Hinv & Htr & Hok & Hfail).
      { split; [exact HH1|]. split; [eauto|exact Hrest]. }
      exists mf, w', (Git (Git.merge name) true :: evs).
      split; [exact E|]. split; [exact Hinv|].
      split. { rewrite Htr. cbn. rewrite <- app_assoc. reflexivity. }
      split.
      * intros Hmf. constructor; [|auto]. intros [n Hn]. discriminate.
      * intros Hmf. destruct (Hfail Hmf) as (HM & pre & n & ok & Hevs & Hin & Hpre).
        split; [exact HM|].
        exists (Git (Git.merge name) true :: pre), n, ok.
        split; [rewrite Hevs; reflexivity|]. split; [right; exact Hin|].
        constructor; [|exact Hpre]. intros [n' Hn']. discriminate.
    + (* conflict: warn, abort, leave the loop *)
      unfold bind at 1. cbn [log_warn echo emit].
      erewrite bind_ok by apply git_run. cbn [repo set_trace set_repo trace].
      destruct (merge_abort_clears conflicts r1) as (HM & HH2 & HB2).
      destruct (Git.run conflicts Git.merge_abort r1) as [ok2 r2].
      cbn [fst snd] in *.
      eexists true, _, _. split; [reflexivity|].
      split.
      { split; [cbn; congruence|]. split; [cbn; rewrite HB2; eauto|exact Hrest]. }
      split. { cbn. rewrite <- !app_assoc. reflexivity. }
      split; [discriminate|]. intros _. split; [exact HM|].
      exists [], name, ok2. split; [reflexivity|]. split; [left; reflexivity|].
      constructor.
Qed.




Lemma integrate_group_outcome (group : string) (groups : nat)
    (names : list string) (w : World) :
  exists w',
    integrate_group cfg conflicts group groups names w = (Ok tt, w') /\
    (Exists failed_merge (added w w') -> integration_undone group names w w').
Proof.
  unfold integration_undone.
  set (integ := "ralphy/integration-group-" +:+ group).
  unfold integrate_group. fold integ.
  destruct (is_yaml (PRD_SOURCE cfg) && (0 <? length names)%nat
            && (1 <? groups)%nat).
  2:{ eexists. split; [reflexivity|]. unfold added. rewrite drop_all.
      intros H. inversion H. }
  unfold bind at 1. cbn [log_info echo emit].
  unfold bind at 1. cbn [read BASE_BRANCH set_trace].
  erewrite bind_ok by apply git_run. cbn [repo set_trace set_repo trace].
  pose proof (branch_run conflicts integ (BASE_BRANCH w) (repo w)) as Ecreate.
  destruct (Git.branches (repo w) !! integ) as [|] eqn:Efree.
  { (* the name is taken: no integration *)
    rewrite Ecreate. cbn [fst snd].
    eexists. split; [reflexivity|]. intros H.
    erewrite added_app in H by (cbn; rewrite <- !app_assoc; reflexivity).
    exfalso. repeat (apply Exists_cons in H as [[? H]|H]; [discriminate|]).
    inversion H. }
  destruct (Git.branches (repo w) !! BASE_BRANCH w) as [tip|] eqn:Ebase.
  2:{ rewrite Ecreate. cbn [fst snd].
      eexists. split; [reflexivity|]. intros H.
      erewrite added_app in H by (cbn; rewrite <- !app_assoc; reflexivity).
      exfalso. repeat (apply Exists_cons in H as [[? H]|H]; [discriminate|]).
      inversion H. }
  rewrite Ecreate. cbn [fst snd].
  unfold bind at 1. cbn [symbolic_ref_HEAD read repo set_trace set_repo Git.HEAD].
  erewrite bind_ok by apply git_run.
  cbn [repo set_trace set_repo trace Git.run Git.branches].
  rewrite lookup_insert_eq. cbn [fst snd].
  (* the merges *)
  match goal with
  | |- context [bind (merge_group_branches _ _) _ ?w1] =>
      destruct (merge_group_branches_spec integ (Git.branches (repo w)) w names w1)
        as (mf & w2 & evs & E & Hinv & Htr & Hok & Hfail)
  end.
  { split; [reflexivity|]. split; [eexists; reflexivity|].
    cbn. repeat split; reflexivity. }
  erewrite bind_ok by exact E.
  destruct Hinv as (HH2 & [t2 HB2] & Hwt & Hbase & Horig & Hint & Hti & Hto).
  unfold bind at 1. cbn [read].
  (* back to the original checkout *)
  assert (Hback : exists w3 back,
    (if negb (String.eqb (default "" (Git.HEAD (repo w))) "")
     then bind (git conflicts (Git.checkout (default "" (Git.HEAD (repo w)))))
            (fun back => if back then ret tt
               else bind (git conflicts (Git.checkout (ORIGINAL_BASE_BRANCH w2)))
                      (fun _ => ret tt))
     else bind (git conflicts (Git.checkout (ORIGINAL_BASE_BRANCH w2)))
            (fun _ => ret tt)) w2 = (Ok tt, w3) /\
    trace w3 = trace w2 ++ back /\
    Forall (fun e => exists c ok, e = Git (Git.checkout c) ok) back /\
    Git.branches (repo w3) = Git.branches (repo w2) /\
    Git.MERGE_HEAD (repo w3) = Git.MERGE_HEAD (repo w2) /\
    worktrees w3 = worktrees w2 /\ BASE_BRANCH w3 = BASE_BRANCH w2 /\
    ORIGINAL_BASE_BRANCH w3 = ORIGINAL_BASE_BRANCH w2 /\
    integration_branches w3 = integration_branches w2 /\
    total_input_tokens w3 = total_input_tokens w2 /\
    total_output_tokens w3 = total_output_tokens w2).
  { destruct (negb (String.eqb (default "" (Git.HEAD (repo w))) "")).
    - erewrite bind_ok by apply git_run.
      destruct (checkout_keeps conflicts (default "" (Git.HEAD (repo w))) (repo w2))
        as [Hb1 Hm1].
      destruct (Git.run conflicts
                  (Git.checkout (default "" (Git.HEAD (repo w)))) (repo w2))
        as [ok3 r3]. cbn [fst snd] in *. destruct ok3.
      + eexists _, _. split; [reflexivity|]. cbn.
        split; [reflexivity|]. split; [repeat constructor; eauto|].
        repeat split; auto.
      + erewrite bind_ok by apply git_run. cbn [repo set_trace set_repo trace].
        destruct (checkout_keeps conflicts (ORIGINAL_BASE_BRANCH w2) r3) as [Hb2 Hm2].
        destruct (Git.run conflicts (Git.checkout (ORIGINAL_BASE_BRANCH w2)) r3)
          as [ok4 r4]. cbn [fst snd] in *.
        eexists _, _. split; [reflexivity|]. cbn.
        split; [rewrite <- app_assoc; reflexivity|].
        split; [repeat constructor; eauto|].
        repeat split; auto; congruence.
    - erewrite bind_ok by apply git_run.
      destruct (checkout_keeps conflicts (ORIGINAL_BASE_BRANCH w2) (repo w2)) as [Hb2 Hm2].
      destruct (Git.run conflicts (Git.checkout (ORIGINAL_BASE_BRANCH w2)) (repo w2))
        as [ok4 r4]. cbn [fst snd] in *.
      eexists _, _. split; [reflexivity|]. cbn.
      split; [reflexivity|]. split; [repeat constructor; eauto|].
      repeat split; auto. }
  destruct Hback as (w3 & back & E3 & Htr3 & Hbk & Hb3 & Hm3 & Hwt3 & Hbase3
                     & Horig3 & Hint3 & Hti3 & Hto3).
  erewrite bind_ok by exact E3.
  destruct mf; cbn [negb].
  2:{ (* every merge went through: no failed merge in the trace *)
      eexists. split; [reflexivity|].
      intros H. exfalso.
      erewrite added_app in H.
      2:{ cbn [log_info echo emit snd set_trace set_base trace].
          rewrite Htr3, Htr. cbn [trace set_trace set_repo].
          rewrite <- !app_assoc. reflexivity. }
      cbn in H. repeat (apply Exists_cons in H as [[? H]|H]; [discriminate|]).
      apply Exists_app in H as [H|H].
      { apply Exists_exists in H as (e & Hin & He).
        eapply Forall_forall in Hok; eauto. }
      apply Exists_app in H as [H|H].
      { apply Exists_exists in H as (e & Hin & [n He]).
        eapply Forall_forall in Hbk; eauto.
        destruct Hbk as (c & ok & Hc). congruence. }
      repeat (apply Exists_cons in H as [[? H]|H]; [discriminate|]).
      inversion H. }
  (* a merge failed *)
  destruct (Hfail eq_refl) as (HM & pre & name & ok & Hevs & Hin & Hpre).
  erewrite bind_ok by apply git_run.
  cbn [Git.run]. rewrite Hb3, HB2, lookup_insert_eq. cbn [fst snd].
  eexists. split; [reflexivity|].
  cbn [log_warn echo emit snd set_trace set_repo repo trace BASE_BRANCH
       integration_branches ORIGINAL_BASE_BRANCH worktrees total_input_tokens
       total_output_tokens Git.branches Git.MERGE_HEAD].
  intros _.
  erewrite added_app.
  2:{ cbn [trace set_trace set_repo]. rewrite Htr3, Htr, Hevs.
      cbn [trace set_trace set_repo]. rewrite <- !app_assoc. reflexivity. }
  split.
  { exists ([Echo ("[INFO] " +:+ "Creating integration branch for group "
                   +:+ group +:+ ": " +:+ integ);
             Git (Git.branch integ (BASE_BRANCH w)) true;
             Git (Git.checkout integ) true] ++ pre), name, ok.
    eexists. split; [rewrite <- !app_assoc; cbn; reflexivity|].
    split; [exact Hin|].
    apply Forall_app. split.
    - eapply Forall_impl; [exact Hbk|].
      intros e (c & ok' & ->) other ok''. discriminate.
    - repeat constructor; intros other ok''; discriminate. }
  split; [congruence|]. split; [congruence|].
  split.
  { repeat first [progress cbn [app In] | rewrite in_app_iff].
    repeat first [left; reflexivity | right]. }
  split; [apply lookup_delete_eq|]. split; [congruence|].
  split.
  { rewrite delete_insert_eq. apply delete_id. exact Efree. }
  repeat split; congruence.
Qed.

(** C2: when a merge into the group's integration branch conflicts,
    that merge is aborted and no further branch is merged, the
    integration branch is not recorded, it is deleted, and the base
    branch for the next group is the one in effect before the attempt;
    the branches, the original base, the worktrees and the token totals
    are unchanged as well. *)
Theorem failed_integration_keeps_base (group : string) (groups : nat)
    (names : list string) (w : World) :
  let integ := "ralphy/integration-group-" +:+ group in
  let w' := (integrate_group cfg conflicts group groups names w).2 in
  Exists failed_merge (added w w') ->
  (* that merge is aborted *)
  (exists pre name ok post,
     added w w'
     = pre ++ [Git (Git.merge name) false;
               Echo ("[WARN] " +:+ "Conflict merging " +:+ name
                     +:+ " into integration branch");
               Git Git.merge_abort ok] ++ post /\
     In name names /\
     Forall (fun e => forall other ok', e <> Git (Git.merge other) ok') post) /\
  Git.MERGE_HEAD (repo w') = None /\
  (* the attempt is failed: the integration branch is not recorded *)
  integration_branches w' = integration_branches w /\
  (* the integration branch is deleted *)
  In (Git (Git.branch_D integ) true) (added w w') /\
  Git.branches (repo w') !! integ = None /\
  (* the base branch for the next group is the one before *)
  BASE_BRANCH w' = BASE_BRANCH w /\
  (* and nothing else of the run has changed *)
  Git.branches (repo w') = Git.branches (repo w) /\
  ORIGINAL_BASE_BRANCH w' = ORIGINAL_BASE_BRANCH w /\
  worktrees w' = worktrees w /\
  total_input_tokens w' = total_input_tokens w /\
  total_output_tokens w' = total_output_tokens w.
Proof.
  intros integ w'. subst w'.
  destruct (integrate_group_outcome group groups names w) as (w' & E & H).
  rewrite E. exact H.
Qed.

End Integration.

(** ** Final reconciliation *)

Section FinalIntegration.
Import Ralphy.
Local Open Scope sh_scope.
Variable cfg : Config.
Variable conflicts : Git.Tip -> Git.Tip -> list string.
Variable resolver : list string -> Git.Repo -> Z * Git.Repo.








(** The forced deletions: every name of the list is gone afterwards. *)
Lemma delete_branches_spec (names : list string) :
  forall w, exists w' evs,
    for_each names (delete_branch conflicts) w = (Ok tt, w') /\
    trace w' = trace w ++ evs /\
    git_commands evs = map Git.branch_D names /\
    (forall name, In name names -> Git.branches (repo w') !! name = None) /\
    (forall name, Git.branches (repo w) !! name = None ->
                  Git.branches (repo w') !! name = None).
Proof.
  induction names as [|name names IH]; intros w; cbn [for_each].
  - exists w, []. rewrite app_nil_r. repeat split; auto. intros ? [].
  - unfold delete_branch at 1. unfold bind at 1. unfold bind at 1.
    rewrite git_run.
    assert (Hgone : Git.branches
              (Git.run conflicts (Git.branch_D name) (repo w)).2 !! name = None
            /\ forall other, Git.branches (repo w) !! other = None ->
                 Git.branches
                   (Git.run conflicts (Git.branch_D name) (repo w)).2 !! other
                 = None).
    { cbn [Git.run]. destruct (Git.branches (repo w) !! name) eqn:E; cbn.
      - split; [apply lookup_delete_eq|]. intros other Ho.
        rewrite lookup_delete. case_decide; auto.
      - auto. }
    destruct Hgone as [Hgone Hkeep].
    destruct (Git.run conflicts (Git.branch_D name) (repo w)) as [ok r1].
    cbn [fst snd] in *.
    assert (Hstep : exists w1 ev1,
      (if ok then echo ("  Deleted " +:+ name) else ret tt)
        (set_trace (trace w ++ [Git (Git.branch_D name) ok]) (set_repo r1 w))
      = (Ok tt, w1) /\ repo w1 = r1 /\
      trace w1 = trace w ++ Git (Git.branch_D name) ok :: ev1 /\
      git_commands ev1 = []).
    { destruct ok.
      - eexists _, [_]. split; [reflexivity|]. cbn.
        rewrite <- app_assoc. auto.
      - eexists _, []. split; [reflexivity|]. cbn. auto. }
    destruct Hstep as (w1 & ev1 & E1 & Hr1 & Ht1 & Hg1). rewrite E1.
    destruct (IH w1) as (w' & evs & E & Ht & Hg & Hin & Hk).
    exists w', (Git (Git.branch_D name) ok :: ev1 ++ evs).
    split; [exact E|].
    split. { rewrite Ht, Ht1, <- app_assoc. reflexivity. }
    split. { unfold git_commands in *. cbn [omap list_omap map].
             fold (omap (fun e => match e with Git c _ => Some c | _ => None end)
                     (ev1 ++ evs)).
             rewrite omap_app, Hg1, Hg. reflexivity. }
    split.
    + intros n [<-|Hn]; [apply Hk; rewrite Hr1; exact Hgone|apply Hin, Hn].
    + intros n Hn. apply Hk. rewrite Hr1. apply Hkeep, Hn.
Qed.



Lemma for_each_echo (names : list string) (f : string -> string) :
  forall w, exists w' evs,
    for_each names (fun name => echo (f name)) w = (Ok tt, w') /\
    trace w' = trace w ++ evs /\ repo w' = repo w /\
    Forall (fun e => exists text, e = Echo text) evs.
Proof.
  induction names as [|name names IH]; intros w; cbn [for_each].
  - exists w, []. rewrite app_nil_r. auto.
  - unfold bind at 1. cbn [echo emit].
    destruct (IH (set_trace (trace w ++ [Echo (f name)]) w))
      as (w' & evs & E & Ht & Hr & Hall).
    exists w', (Echo (f name) :: evs). split; [exact E|].
    split; [rewrite Ht; cbn; rewrite <- app_assoc; reflexivity|].
    split; [rewrite Hr; reflexivity|]. constructor; eauto.
Qed.

Lemma final_reconciliation_outcome (final_integration : string)
    (completed : list string) (w : World) :
  last (integration_branches w) = Some final_integration ->
  exists w',
    final_reconciliation cfg conflicts resolver completed w = (Ok tt, w') /\
    rollup cfg final_integration completed w w'.
Proof.
  intros Hlast. unfold final_reconciliation, rollup.
  set (target := ORIGINAL_BASE_BRANCH w).
  destruct completed as [|c0 completed'] eqn:Ec.
  { exists w. split; [reflexivity|]. unfold added. rewrite drop_all.
    repeat split; intros; contradiction. }
  rewrite <- Ec. assert (Hne : completed <> []) by congruence. clear Ec.
  destruct (CREATE_PR cfg) eqn:Hpr.
  { (* pull requests were created: the branches are only listed *)
    unfold bind at 1. cbn [echo emit].
    match goal with
    | |- context [for_each completed ?f ?w0] =>
        destruct (for_each_echo completed (fun name => "  " +:+ name) w0)
          as (w' & evs & E & Ht & Hr & Hall)
    end.
    exists w'. split; [exact E|].
    erewrite added_app by (rewrite Ht; cbn; rewrite <- app_assoc; reflexivity).
    assert (Hno : forall c ok, ~ In (Git c ok)
                    ([Echo "Branches created by agents:"] ++ evs)).
    { intros c ok [H|H]; [discriminate|].
      destruct (proj1 (List.Forall_forall _ _) Hall _ H) as [text Heq].
      discriminate Heq. }
    split; [intros name ok H; exfalso; eapply Hno; exact H|].
    split; [intros H; exfalso; eapply Hno; exact H|].
    split; [intros H; exfalso; eapply Hno; exact H|].
    intros _ Habs. discriminate. }
  unfold bind at 1. cbn [read]. unfold bind at 1. cbn [read].
  rewrite Hlast. fold target. unfold merge_final_integration.
  unfold bind at 1. cbn [echo emit].
  erewrite bind_ok by apply git_run. cbn [repo set_trace set_repo trace].
  destruct (checkout_keeps conflicts target (repo w)) as [Hb1 Hm1].
  assert (Hco : (Git.run conflicts (Git.checkout target) (repo w)).1 = true
                <-> is_Some (Git.branches (repo w) !! target)).
  { cbn [Git.run]. destruct (Git.branches (repo w) !! target); cbn.
    - split; eauto.
    - split; [discriminate|]. intros [? ?]. discriminate. }
  destruct (Git.run conflicts (Git.checkout target) (repo w)) as [ok1 r1].
  cbn [fst snd] in *. destruct ok1; cbn [negb].
  2:{ (* the base cannot be checked out *)
      eexists. split; [reflexivity|].
      erewrite added_app by (cbn; rewrite <- !app_assoc; reflexivity).
      split; [intros name ok H; no_merge_in H|].
      split; [intros H; no_merge_in H|].
      split; [intros H; no_merge_in H|].
      intros _ _ Hs. apply Hco in Hs. discriminate. }
  unfold bind at 1. cbn [echo emit].
  erewrite bind_ok by apply git_run. cbn [repo set_trace set_repo trace].
  pose proof (merge_failed_keeps conflicts final_integration r1) as Hmf.
  destruct (Git.run conflicts (Git.merge final_integration) r1) as [ok2 r2].
  cbn [fst snd] in *. destruct ok2.
  - (* merged: delete the integration branches, then the agent branches *)
    unfold bind at 1. cbn [echo emit].
    unfold bind at 1. cbn [read integration_branches set_trace set_repo].
    match goal with
    | |- context [bind (for_each (integration_branches w) _) _ ?w0] =>
        destruct (delete_branches_spec (integration_branches w) w0)
          as (w3 & ev3 & E3 & Ht3 & Hg3 & Hin3 & Hk3)
    end.
    erewrite bind_ok by exact E3.
    unfold bind at 1. cbn [echo emit].
    match goal with
    | |- context [for_each completed _ ?w0] =>
        destruct (delete_branches_spec completed w0)
          as (w4 & ev4 & E4 & Ht4 & Hg4 & Hin4 & Hk4)
    end.
    exists w4. split; [exact E4|].
    erewrite added_app.
    2:{ rewrite Ht4. cbn [trace set_trace]. rewrite Ht3.
        cbn [trace set_trace set_repo]. rewrite <- !app_assoc. reflexivity. }
    assert (Hcmds : forall evs, git_commands evs = map Git.branch_D
                      (integration_branches w ++ completed) ->
              forall name ok, ~ In (Git (Git.merge name) ok) evs).
    { intros evs Hg name ok Hin.
      assert (In (Git.merge name) (git_commands evs)).
      { unfold git_commands. apply list_elem_of_In, list_elem_of_omap.
        exists (Git (Git.merge name) ok). split; [|reflexivity].
        apply list_elem_of_In, Hin. }
      rewrite Hg in H. apply in_map_iff in H as (b & Hb & _). discriminate. }
    assert (Hdel : git_commands (ev3 ++ [Echo "Cleaning up agent branches..."]
                                 ++ ev4)
                   = map Git.branch_D (integration_branches w ++ completed)).
    { unfold git_commands in *. rewrite !omap_app, Hg3, Hg4, map_app.
      reflexivity. }
    split.
    { intros name ok H. cbn [app In] in H.
      destruct H as [H|[H|[H|[H|[H|H]]]]]; try discriminate.
      - injection H as <- <-. split; [reflexivity|].
        exists [Echo ("Merging integration branch into " +:+ target +:+ "...")].
        eexists. cbn. reflexivity.
      - exfalso. eapply (Hcmds _ Hdel). exact H. }
    split.
    { intros _. split.
      - cbn [app]. rewrite !git_commands_cons.
        change (ev3 ++ Echo "Cleaning up agent branches..." :: ev4)
          with (ev3 ++ [Echo "Cleaning up agent branches..."] ++ ev4).
        rewrite Hdel. reflexivity.
      - intros name Hn. apply in_app_or in Hn as [Hn|Hn].
        + apply Hk4. cbn [repo set_trace]. apply Hin3, Hn.
        + apply Hin4, Hn. }
    split.
    { intros H. exfalso. cbn [app In] in H.
      destruct H as [H|[H|[H|[H|[H|H]]]]]; try discriminate.
      eapply (Hcmds _ Hdel). exact H. }
    intros _ _ _. exists true. cbn [app In]. auto.
  - (* conflict: abort and report *)
    unfold bind at 1. cbn [echo emit].
    erewrite bind_ok by apply git_run. cbn [repo set_trace set_repo trace].
    destruct (merge_abort_clears conflicts r2) as (HM & _ & HB).
    destruct (Git.run conflicts Git.merge_abort r2) as [ok3 r3].
    cbn [fst snd] in *.
    eexists. split; [reflexivity|].
    erewrite added_app by (cbn; rewrite <- !app_assoc; reflexivity).
    split.
    { intros name ok H. cbn [app In] in H.
      repeat (destruct H as [H|H]; [try discriminate|]); try contradiction.
      injection H as <- <-. split; [reflexivity|].
      exists [Echo ("Merging integration branch into " +:+ target +:+ "...")].
      eexists. cbn. reflexivity. }
    split.
    { intros H. exfalso. cbn [app In] in H.
      repeat (destruct H as [H|H]; [try discriminate|]); contradiction. }
    split.
    { intros _. split; [reflexivity|]. split; [exact HM|].
      split; [cbn; auto 20|]. split; [cbn; auto 20|].
      cbn. rewrite HB, (Hmf eq_refl). exact Hb1. }
    intros _ _ _. exists false. cbn [app In]. auto.
Qed.


End FinalIntegration.

(** ** Sample runs *)

Section Samples.
Import Ralphy.

(** Two agent branches that both conflict with the base. *)
Definition two_conflicts : World :=
  sample_world [("main", ["base"]); ("ralphy/agent-1-a", ["a"]);
                ("ralphy/agent-2-b", ["b"])] [].

(** C7: the code at a run where two completed branches conflict with
    the base and the engine resolves nothing.  The first branch gets its
    agent-assisted pass; the second, collected because a merge was
    already open, is retried with a plain merge, conflicts, and is
    reported as unresolved without any pass: one [Resolve] in all. *)
Theorem second_conflict_gets_no_resolution_pass :
  let out :=
    final_reconciliation (sample_cfg 0 markdown) always_conflicts idle_resolver
      ["ralphy/agent-1-a"; "ralphy/agent-2-b"] two_conflicts in
  out.1 = Ok tt /\
  trace out.2
  = [Echo "Merging agent branches into main...";
     Git (Git.checkout "main") true;
     Echo "  Merging ralphy/agent-1-a...";
     Git (Git.merge "ralphy/agent-1-a") false;
     Echo " conflict";
     Echo "  Merging ralphy/agent-2-b...";
     Git (Git.merge "ralphy/agent-2-b") false;
     Echo " conflict";
     Echo "Using AI to resolve 2 merge conflict(s)...";
     Echo "  Resolving ralphy/agent-1-a...";
     Resolve ["app.js"];
     Echo " failed (AI couldn't resolve)";
     Git Git.merge_abort true;
     Echo "  Resolving ralphy/agent-2-b...";
     Git Git.merge_abort false;
     Git (Git.merge "ralphy/agent-2-b") false;
     Echo " failed";
     Git Git.merge_abort true;
     Echo "Some conflicts could not be resolved automatically:";
     Echo "  ralphy/agent-1-a";
     Echo "  ralphy/agent-2-b";
     Echo "Resolve conflicts manually: git merge <branch>"] /\
  length (resolutions (trace out.2)) = 1%nat.
Proof. vm_compute. repeat split. Qed.




Lemma failed_integration_keeps_base_witness :
  let w' := (integrate_group (sample_cfg 0 yaml) always_conflicts "1" 2
               ["ralphy/agent-1-a"; "ralphy/agent-2-b"] two_conflicts).2 in
  BASE_BRANCH w' = "main" /\
  Git.branches (repo w') !! "ralphy/integration-group-1" = None /\
  integration_branches w' = [].
Proof.
  destruct (failed_integration_keeps_base (sample_cfg 0 yaml) always_conflicts
              "1" 2 ["ralphy/agent-1-a"; "ralphy/agent-2-b"] two_conflicts)
    as (_ & _ & Hint & _ & Hgone & Hbase & _).
  - vm_compute.
    repeat first [ apply Exists_cons_hd; eexists; reflexivity
                 | apply Exists_cons_tl ].
  - split; [exact Hbase|]. split; [exact Hgone|exact Hint].
Defined.


End Samples.

(** ** The retry envelope, for any operation *)

Section RetryAnyOperation.
Import Retry.
Context {T : Type}.
Variable fn : Z -> Outcome T.
Variable options : RetryOptions.
Variable random : Z -> Q.

Lemma retried_nil (a len : Z) : (len <= 0)%Z -> retried fn options random a len = [].
Proof. intros H. unfold retried. rewrite seqZ_nil by lia. reflexivity. Qed.

Lemma retried_cons (a len : Z) (e : JSValue) :
  fn a = Rejected e -> (0 < len)%Z ->
  retried fn options random a len
  = EvCall a :: backoff options random a (asError e) ++ retried fn options random (a + 1) (len - 1).
Proof.
  intros Efn H. unfold retried. rewrite (seqZ_cons a) by lia.
  replace (Z.succ a) with (a + 1)%Z by lia.
  replace (Z.pred len) with (len - 1)%Z by lia.
  cbn [flat_map]. rewrite Efn. reflexivity.
Qed.

Lemma retryLoop_runs (rem : nat) :
  forall (fuel : nat) (a : Z) (last : option JSError) (tr : list Event),
    (a + Z.of_nat rem = maxRetries options + 1)%Z -> (rem < fuel)%nat ->
    exists (o : Outcome T) (n : Z),
      retryLoop fn options random fuel a last tr
      = Some (o, tr ++ retried fn options random a (n - a) ++ (if (a <=? n)%Z then [EvCall n] else [])) /\
      (a - 1 <= n <= maxRetries options)%Z /\
      (forall j, (a <= j < n)%Z -> exists e, fn j = Rejected e) /\
      match o with
      | Resolved v => (a <= n)%Z /\ fn n = Resolved v
      | Rejected e =>
        n = maxRetries options /\
        e = VError (if (a <=? n)%Z
                    then asError (match fn n with
                                  | Rejected e => e
                                  | Resolved _ => VOther ""
                                  end)
                    else default {| message := "All retry attempts failed" |} last) /\
        forall j, (a <= j <= n)%Z -> exists e, fn j = Rejected e
      end.
Proof.
  induction rem as [|rem IH]; intros fuel a last tr Ha Hfuel.
  - destruct fuel as [|fuel]; [lia|]. cbn [retryLoop].
    destruct (Z.leb_spec a (maxRetries options)); [exfalso; lia|].
    exists (Rejected (VError (default {| message := "All retry attempts failed" |} last))),
      (maxRetries options).
    destruct (Z.leb_spec a (maxRetries options)); [exfalso; lia|].
    rewrite retried_nil by lia. rewrite !app_nil_r.
    split; [reflexivity|]. split; [lia|]. split; [intros; lia|].
    split; [reflexivity|]. split; [reflexivity|]. intros; lia.
  - destruct fuel as [|fuel]; [lia|]. cbn [retryLoop].
    destruct (Z.leb_spec a (maxRetries options)). 2:{ exfalso; lia. }
    destruct (fn a) as [v|e] eqn:Efn.
    + exists (Resolved v), a.
      destruct (Z.leb_spec a a); [|exfalso; lia].
      rewrite retried_nil by lia.
      split; [reflexivity|]. split; [lia|]. split; [intros; lia|].
      split; [lia|exact Efn].
    + destruct (IH fuel (a + 1)%Z (Some (asError e))
                  ((tr ++ [EvCall a]) ++
                   (if (a <? maxRetries options)%Z
                    then backoff options random a (asError e) else [])))
        as (o & n & Hrun & Hn & Hbefore & Ho); [lia|lia|].
      assert (Hrun' :
        retryLoop fn options random fuel (a + 1) (Some (asError e))
          (if (a <? maxRetries options)%Z
           then (tr ++ [EvCall a]) ++ backoff options random a (asError e)
           else tr ++ [EvCall a])
        = Some (o, ((tr ++ [EvCall a]) ++
                   (if (a <? maxRetries options)%Z
                    then backoff options random a (asError e) else []))
                   ++ retried fn options random (a + 1) (n - (a + 1))
                   ++ (if (a + 1 <=? n)%Z then [EvCall n] else []))).
      { rewrite <- Hrun. f_equal.
        destruct (a <? maxRetries options)%Z; [reflexivity|].
        rewrite app_nil_r. reflexivity. }
      rewrite Hrun'. clear Hrun Hrun'.
      exists o, (if (a <? maxRetries options)%Z then n else a).
      destruct (Z.ltb_spec a (maxRetries options)) as [Hlt|Hge].
      * (* more attempts follow: n >= a *)
        assert (a <= n)%Z by lia.
        destruct (Z.leb_spec a n); [|exfalso; lia].
        split.
        { destruct (Z.leb_spec (a + 1) n) as [Hle|Hgt].
          - rewrite (retried_cons a (n - a) e) by (assumption || lia).
            replace (n - a - 1)%Z with (n - (a + 1))%Z by lia.
            do 2 f_equal. rewrite <- !app_assoc. f_equal. cbn [app]. f_equal.
            rewrite <- app_assoc. reflexivity.
          - exfalso.
            destruct o as [v|e']; [destruct Ho; lia|destruct Ho; lia]. }
        split; [lia|].
        split.
        { intros j Hj. destruct (Z.eq_dec j a) as [->|Hne]; [eauto|].
          apply Hbefore. lia. }
        destruct o as [v|e'].
        { destruct Ho as [Hle Hv]. split; [lia|exact Hv]. }
        destruct Ho as (-> & He & Hall).
        split; [reflexivity|]. split.
        { rewrite He. destruct (Z.leb_spec (a + 1) (maxRetries options));
            [reflexivity|exfalso; lia]. }
        intros j Hj. destruct (Z.eq_dec j a) as [->|Hne]; [eauto|].
        apply Hall. lia.
      * (* [a] was the last attempt *)
        assert (a = maxRetries options) by lia.
        assert (n = a) by lia. subst n.
        destruct (Z.leb_spec a a); [|exfalso; lia].
        destruct (Z.leb_spec (a + 1) a); [exfalso; lia|].
        rewrite !retried_nil by lia. rewrite !app_nil_r.
        split; [reflexivity|]. split; [lia|].
        split; [intros; lia|].
        destruct o as [v|e']; [destruct Ho; lia|].
        destruct Ho as (_ & He & _).
        split; [lia|]. split.
        { rewrite He, Efn. reflexivity. }
        intros j Hj. assert (j = a) as -> by lia. eauto.
Qed.

Lemma withRetry_runs :
  exists (o : Outcome T) (n : Z),
    withRetry fn options random
    = Some (o, retried fn options random 1 (n - 1) ++ (if (1 <=? n)%Z then [EvCall n] else [])) /\
    (0 <= n <= Z.max 0 (maxRetries options))%Z /\
    (forall j, (1 <= j < n)%Z -> exists e, fn j = Rejected e) /\
    match o with
    | Resolved v => (1 <= n)%Z /\ fn n = Resolved v
    | Rejected e =>
      n = Z.max 0 (maxRetries options) /\
      (forall j, (1 <= j <= n)%Z -> exists e', fn j = Rejected e') /\
      ((1 <= n)%Z -> exists e', fn n = Rejected e' /\ e = VError (asError e')) /\
      ((n < 1)%Z -> e = VError {| message := "All retry attempts failed" |})
    end.
Proof.
  unfold withRetry.
  destruct (Z.le_gt_cases 0 (maxRetries options)) as [Hn|Hn].
  - destruct (retryLoop_runs (Z.to_nat (maxRetries options))
                (S (Z.to_nat (maxRetries options))) 1 None [])
      as (o & n & Hrun & Hrange & Hbefore & Ho); [lia|lia|].
    exists o, n. split; [exact Hrun|]. split; [lia|]. split; [exact Hbefore|].
    destruct o as [v|e]; [exact Ho|].
    destruct Ho as (-> & He & Hall).
    split; [lia|]. split; [exact Hall|]. split.
    + intros H1. destruct (Hall (maxRetries options)) as [e' He']; [lia|].
      exists e'. split; [exact He'|]. rewrite He, He'.
      destruct (Z.leb_spec 1 (maxRetries options)); [reflexivity|exfalso; lia].
    + intros H1. rewrite He.
      destruct (Z.leb_spec 1 (maxRetries options)); [exfalso; lia|reflexivity].
  - exists (Rejected (VError {| message := "All retry attempts failed" |})), 0%Z.
    cbn [retryLoop].
    destruct (Z.leb_spec 1 (maxRetries options)); [exfalso; lia|].
    split; [reflexivity|]. split; [lia|]. split; [intros; lia|].
    split; [lia|]. split; [intros; lia|]. split; [intros; lia|]. reflexivity.
Qed.

Lemma calls_retried (a len : Z) : calls (retried fn options random a len) = seqZ a len.
Proof.
  unfold retried, calls.
  induction (seqZ a len) as [|k l IH]; [reflexivity|].
  cbn [flat_map]. rewrite <- app_comm_cons. cbn [omap list_omap].
  rewrite omap_app, IH. unfold backoff.
  destruct (onRetry options); reflexivity.
Qed.

Lemma sleeps_retried (a len : Z) :
  sleeps (retried fn options random a len) = map (delayFor options random) (seqZ a len).
Proof.
  unfold retried, sleeps.
  induction (seqZ a len) as [|k l IH]; [reflexivity|].
  cbn [flat_map map]. rewrite <- app_comm_cons. cbn [omap list_omap].
  rewrite omap_app, IH. unfold backoff.
  destruct (onRetry options); reflexivity.
Qed.

Lemma withRetry_calls_sleeps :
  exists (o : Outcome T) (n : Z) (tr : list Event),
    withRetry fn options random = Some (o, tr) /\
    (0 <= n <= Z.max 0 (maxRetries options))%Z /\
    calls tr = seqZ 1 n /\
    sleeps tr = map (delayFor options random) (seqZ 1 (n - 1)) /\
    (forall j, (1 <= j < n)%Z -> exists e, fn j = Rejected e) /\
    match o with
    | Resolved v => (1 <= n)%Z /\ fn n = Resolved v
    | Rejected e =>
      n = Z.max 0 (maxRetries options) /\
      (forall j, (1 <= j <= n)%Z -> exists e', fn j = Rejected e') /\
      ((1 <= n)%Z -> exists e', fn n = Rejected e' /\ e = VError (asError e')) /\
      ((n < 1)%Z -> e = VError {| message := "All retry attempts failed" |})
    end.
Proof.
  destruct withRetry_runs as (o & n & Hrun & Hrange & Hbefore & Ho).
  exists o, n. eexists. split; [exact Hrun|]. split; [exact Hrange|].
  split.
  { unfold calls. rewrite omap_app. fold (calls (retried fn options random 1 (n - 1))).
    rewrite calls_retried.
    destruct (Z.leb_spec 1 n).
    - cbn [omap list_omap].
      replace n with ((n - 1) + 1)%Z at 3 by lia.
      rewrite seqZ_app by lia. f_equal.
      replace (1 + (n - 1))%Z with n by lia. symmetry. apply seqZ_one.
    - rewrite !seqZ_nil by lia. reflexivity. }
  split.
  { unfold sleeps. rewrite omap_app. fold (sleeps (retried fn options random 1 (n - 1))).
    rewrite sleeps_retried.
    destruct (1 <=? n)%Z; cbn [omap list_omap]; rewrite app_nil_r; reflexivity. }
  split; [exact Hbefore|exact Ho].
Qed.
End RetryAnyOperation.

Section RetryDelays.
Import Retry.
Local Open Scope Q_scope.

Lemma delay_range (k : Z) (b m r : Q) (j : bool) :
  0 <= b -> 0 <= m -> 0 <= r -> r < 1 ->
  (0 <= calculateBackoffDelay k b m j r)%Z /\
  inject_Z (calculateBackoffDelay k b m j r) <= (5 # 4) * m.
Proof.
  intros Hb Hm Hr0 Hr1. unfold calculateBackoffDelay.
  pose proof (pow2_pos (k - 1)) as Hp.
  set (c := Qmin (b * Qpower 2 (k - 1)) m).
  assert (Hc0 : 0 <= c).
  { unfold c. apply Q.min_glb; [|exact Hm]. nra. }
  assert (Hcm : c <= m) by apply Q.le_min_r.
  destruct (jitter_range c r Hc0 Hr0 Hr1) as [Hlo Hhi].
  destruct j.
  - split.
    + change 0%Z with (Qfloor 0). apply Qfloor_resp_le. lra.
    + eapply Qle_trans; [apply Qfloor_le|]. lra.
  - split.
    + change 0%Z with (Qfloor 0). apply Qfloor_resp_le. exact Hc0.
    + eapply Qle_trans; [apply Qfloor_le|]. lra.
Qed.
End RetryDelays.

Section RetryProperties.
Import Retry.
Context {T : Type}.
Variable fn : Z -> Outcome T.
Variable options : RetryOptions.
Variable random : Z -> Q.

(** X1: whatever the wrapped operation does, [withRetry] ends.  It
    calls the operation for the attempts 1, 2, ... [n] in order, where
    [n] is the first attempt that resolves (the result is its value) or,
    when none does, [maxRetries] (the result is the rejection with the
    last error; with no attempt at all, with the error "All retry
    attempts failed").  It sleeps once after each attempt but the last
    one made, for the delay computed for that attempt. *)
Theorem withRetry_attempts_in_order :
  exists (o : Outcome T) (n : Z) (tr : list Event),
    withRetry fn options random = Some (o, tr) /\
    (0 <= n <= Z.max 0 (maxRetries options))%Z /\
    calls tr = seqZ 1 n /\
    sleeps tr = map (delayFor options random) (seqZ 1 (n - 1)) /\
    (forall j, (1 <= j < n)%Z -> exists e, fn j = Rejected e) /\
    match o with
    | Resolved v => (1 <= n)%Z /\ fn n = Resolved v
    | Rejected e =>
      n = Z.max 0 (maxRetries options) /\
      (forall j, (1 <= j <= n)%Z -> exists e', fn j = Rejected e') /\
      ((1 <= n)%Z -> exists e', fn n = Rejected e' /\ e = VError (asError e')) /\
      ((n < 1)%Z -> e = VError {| message := "All retry attempts failed" |})
    end.
Proof. apply withRetry_calls_sleeps. Qed.

(** X2: with [maxRetries <= 0] the operation is never called: the
    result is the rejection with a new error "All retry attempts
    failed", and nothing is logged or slept. *)
Theorem withRetry_without_attempts :
  (maxRetries options <= 0)%Z ->
  withRetry fn options random
  = Some (Rejected (VError {| message := "All retry attempts failed" |}), []).
Proof.
  intros Hn.
  destruct (withRetry_runs fn options random) as (o & n & Hrun & Hrange & _ & Ho).
  assert (n = 0%Z) as -> by lia.
  rewrite Hrun. rewrite retried_nil by lia.
  destruct o as [v|e]; [destruct Ho; lia|].
  destruct Ho as (_ & _ & _ & He). rewrite He by lia. reflexivity.
Qed.


(** X4: with [exponentialBackoff: false] every sleep lasts
    [retryDelay * 1000] milliseconds exactly: neither [maxDelay] nor
    [jitter] applies. *)
Theorem withRetry_fixed_delay :
  exponentialBackoff options = Some false ->
  exists (o : Outcome T) (tr : list Event),
    withRetry fn options random = Some (o, tr) /\
    Forall (fun d => d = retryDelay options * 1000)%Q (sleeps tr).
Proof.
  intros Hexp.
  destruct (withRetry_calls_sleeps fn options random)
    as (o & n & tr & Hrun & _ & _ & Hsleeps & _).
  exists o, tr. split; [exact Hrun|]. rewrite Hsleeps.
  apply Forall_map, Forall_forall. intros k _. cbn beta.
  unfold delayFor. rewrite Hexp. reflexivity.
Qed.
End RetryProperties.

Section RetryableErrors.
Import Retry.
Local Open Scope string_scope.

Lemma prefix_append (p s t : string) :
  String.prefix p s = true -> String.prefix p (s ++ t) = true.
Proof.
  revert s. induction p as [|a p IH]; intros s H.
  - apply prefix_empty.
  - destruct s as [|b s]; [discriminate|].
    change (String b s ++ t) with (String b (s ++ t)).
    cbn [String.prefix] in *.
    destruct (ascii_dec a b); [apply IH; exact H|discriminate].
Qed.

Lemma contains_append (p s t : string) :
  contains p s = true -> contains p (s ++ t) = true.
Proof.
  induction s as [|b s IH]; intros H.
  - cbn [contains] in H. rewrite orb_false_r in H.
    destruct p; [|discriminate]. destruct t; reflexivity.
  - change (String b s ++ t) with (String b (s ++ t)).
    cbn [contains] in *. apply orb_true_iff in H. apply orb_true_iff.
    destruct H as [H|H]; [left; exact (prefix_append _ (String b s) t H)|right; auto].
Qed.

Lemma contains_prepend (p s t : string) :
  contains p s = true -> contains p (t ++ s) = true.
Proof.
  intros H. induction t as [|b t IH]; [exact H|].
  change (String b t ++ s) with (String b (t ++ s)).
  cbn [contains]. rewrite IH. apply orb_true_r.
Qed.

Lemma toLower_append (s t : string) : toLower (s ++ t) = toLower s ++ toLower t.
Proof.
  induction s as [|a s IH]; [reflexivity|].
  change (String a s ++ t) with (String a (s ++ t)).
  cbn [toLower]. rewrite IH. reflexivity.
Qed.

Lemma containsNoCase_context (p pre s post : string) :
  containsNoCase p s = true -> containsNoCase p (pre ++ s ++ post) = true.
Proof.
  unfold containsNoCase. intros H. rewrite !toLower_append.
  apply contains_prepend, contains_append, H.
Qed.

Lemma contains_context (p pre s post : string) :
  contains p s = true -> contains p (pre ++ s ++ post) = true.
Proof. intros H. apply contains_prepend, contains_append, H. Qed.

(** X5: the patterns of [isRetryableError] are not anchored: a message
    that is retryable stays so with any text before and after it. *)
Theorem isRetryableError_in_context (pre error post : string) :
  isRetryableError error = true ->
  isRetryableError (pre ++ error ++ post) = true.
Proof.
  unfold isRetryableError. rewrite !existsb_exists.
  intros (test & Hin & Htest). exists test. split; [exact Hin|].
  cbn [In] in Hin.
  repeat (destruct Hin as [<-|Hin];
          [first [apply containsNoCase_context | apply contains_context]; exact Htest|]).
  contradiction.
Qed.
End RetryableErrors.

(** ** The markdown task source: listing and completing tasks *)

Section MarkdownTasks.
Import Markdown.
Local Open Scope string_scope.

Lemma scanLines_open (ls : list string) :
  forall i tasks r c,
    scanLines i ls tasks r c
    = ((tasks ++ openTasks i ls)%list, r + List.length (openTasks i ls),
       c + completedLines ls).
Proof.
  induction ls as [|l ls IH]; intros i tasks r c; cbn [scanLines openTasks completedLines].
  - rewrite app_nil_r. cbn [List.length]. rewrite !Nat.add_0_r. reflexivity.
  - destruct (incompleteMatch l) as [m|]; rewrite IH.
    + rewrite <- app_assoc. cbn [List.length app].
      replace (S r + List.length (openTasks (S i) ls))
        with (r + S (List.length (openTasks (S i) ls))) by lia.
      destruct (completedTest l); rewrite ?Nat.add_assoc;
        [replace (c + 1) with (S c) by lia|rewrite Nat.add_0_r]; reflexivity.
    + destruct (completedTest l); rewrite ?Nat.add_assoc;
        [replace (c + 1) with (S c) by lia|rewrite Nat.add_0_r]; reflexivity.
Qed.

Lemma loadCache_open (f : File) :
  incompleteTasks (loadCache f).1 = openTasks 0 (fileLines f) /\
  remainingCount (loadCache f).1 = List.length (openTasks 0 (fileLines f)) /\
  fileMtime (loadCache f).1 = mtimeMs f /\
  cache (loadCache f).2 = Some (loadCache f).1.
Proof.
  unfold loadCache. rewrite scanLines_open. cbn. auto.
Qed.

Lemma getCache_coherent (f : File) (this : MarkdownTaskSource) :
  cacheCoherent f this ->
  (getCache f this).1 = (loadCache f).1 /\
  cache (getCache f this).2 = Some (loadCache f).1.
Proof.
  unfold cacheCoherent, getCache. destruct (cache this) as [c|] eqn:E; intros H.
  - destruct (negb (getFileMtime f =? fileMtime c)%Z).
    + split; [reflexivity|apply loadCache_open].
    + cbn. subst c. auto.
  - split; [reflexivity|apply loadCache_open].
Qed.

Lemma getAllTasks_eq (f : File) (this : MarkdownTaskSource) :
  getAllTasks f this = (incompleteTasks (getCache f this).1, (getCache f this).2).
Proof. unfold getAllTasks. destruct (getCache f this). reflexivity. Qed.

Lemma getNextTask_eq (f : File) (this : MarkdownTaskSource) :
  getNextTask f this
  = (head (incompleteTasks (getCache f this).1), (getCache f this).2).
Proof. unfold getNextTask. destruct (getCache f this). reflexivity. Qed.

Lemma countRemaining_eq (f : File) (this : MarkdownTaskSource) :
  countRemaining f this = (remainingCount (getCache f this).1, (getCache f this).2).
Proof. unfold countRemaining. destruct (getCache f this). reflexivity. Qed.

Lemma countCompleted_eq (f : File) (this : MarkdownTaskSource) :
  countCompleted f this = (completedCount (getCache f this).1, (getCache f this).2).
Proof. unfold countCompleted. destruct (getCache f this). reflexivity. Qed.

Lemma getAllTasks_coherent (f : File) (this : MarkdownTaskSource) :
  cacheCoherent f this ->
  (getAllTasks f this).1 = openTasks 0 (fileLines f).
Proof.
  intros H. rewrite getAllTasks_eq. cbn [fst].
  rewrite (proj1 (getCache_coherent f this H)). apply loadCache_open.
Qed.

(** X6: the three queries answer from the same cache: [getNextTask]
    gives the first task of [getAllTasks] (or null), [countRemaining]
    the number of those tasks, and a query repeated on the unchanged
    file gives the same answer. *)
Theorem task_queries_agree (f : File) (this : MarkdownTaskSource) :
  cacheCoherent f this ->
  let tasks := (getAllTasks f this).1 in
  (getNextTask f this).1 = head tasks /\
  (countRemaining f this).1 = List.length tasks /\
  (* a query leaves a cache that the next query answers from *)
  cacheCoherent f (getAllTasks f this).2 /\
  (getAllTasks f (getAllTasks f this).2).1 = tasks /\
  (getAllTasks f (countRemaining f this).2).1 = tasks.
Proof.
  intros H tasks. subst tasks.
  destruct (getCache_coherent f this H) as [E1 E2].
  rewrite getAllTasks_eq, getNextTask_eq, countRemaining_eq. cbn [fst snd].
  rewrite E1.
  assert (Hco : cacheCoherent f (getCache f this).2).
  { unfold cacheCoherent. rewrite E2. reflexivity. }
  split; [reflexivity|]. split; [rewrite (proj1 (loadCache_open f)); apply loadCache_open|].
  split; [exact Hco|].
  rewrite (getAllTasks_coherent _ _ Hco). split; symmetry; apply loadCache_open.
Qed.
End MarkdownTasks.

Section MarkdownIds.
Import Markdown.
Local Open Scope string_scope.

Lemma parseDigits_uint (d : Decimal.uint) :
  forall acc : nat,
    parseDigits (NilEmpty.string_of_uint d) (Z.of_nat acc) true
    = Some (Z.of_nat (Nat.of_uint_acc d acc)).
Proof.
  induction d as [|d IH|d IH|d IH|d IH|d IH|d IH|d IH|d IH|d IH|d IH];
    intros acc; [reflexivity|..];
    cbn [NilEmpty.string_of_uint parseDigits Nat.of_uint_acc];
    change (isDigit _) with true; cbn match;
    rewrite <- IH; f_equal; rewrite Nat.tail_mul_spec;
    match goal with
    | |- context [Z.of_nat (nat_of_ascii ?c)] =>
      let v := eval vm_compute in (Z.of_nat (nat_of_ascii c)) in
      change (Z.of_nat (nat_of_ascii c)) with v
    end; lia.
Qed.

Lemma parseInt_digit (c : ascii) (s : string) :
  isDigit c = true ->
  parseInt (String c s) = parseDigits (String c s) 0 false.
Proof.
  destruct c as [[] [] [] [] [] [] [] []]; try discriminate; reflexivity.
Qed.

Lemma parseInt_stringOfNat (n : nat) : parseInt (stringOfNat n) = Some (Z.of_nat n).
Proof.
  unfold stringOfNat.
  rewrite <- (DecimalNat.Unsigned.of_to n) at 2.
  unfold Nat.of_uint.
  destruct (Nat.to_uint n) as [|d|d|d|d|d|d|d|d|d|d]; [reflexivity|..];
    cbn [NilZero.string_of_uint NilEmpty.string_of_uint];
    rewrite parseInt_digit by reflexivity;
    match goal with
    | |- _ = Some (Z.of_nat (Nat.of_uint_acc ?D 0)) => exact (parseDigits_uint D 0)
    end.
Qed.

Lemma stringOfNat_inj (n m : nat) : stringOfNat n = stringOfNat m -> n = m.
Proof.
  intros E. apply (f_equal parseInt) in E.
  rewrite !parseInt_stringOfNat in E. injection E. lia.
Qed.
End MarkdownIds.

Section MarkdownOpenTasks.
Import Markdown.
Local Open Scope string_scope.

Lemma dropPrefix_unchecked (r : string) : dropPrefix 6 ("- [ ] " ++ r) = r.
Proof.
  rewrite unchecked_cons. unfold dropPrefix. cbn.
  rewrite Nat.sub_0_r. apply substring_all.
Qed.

Lemma prefix_unchecked (r : string) : String.prefix "- [ ] " ("- [ ] " ++ r) = true.
Proof. rewrite unchecked_cons. cbn. apply prefix_empty. Qed.

Lemma incompleteMatch_Some (line m : string) :
  incompleteMatch line = Some m <-> line = "- [ ] " ++ m /\ m <> "".
Proof.
  unfold incompleteMatch. split.
  - destruct (String.prefix "- [ ] " line) eqn:E; [|discriminate].
    destruct (prefix_app _ _ E) as [r ->]. rewrite dropPrefix_unchecked.
    destruct r; [discriminate|]. intros [= <-]. split; [reflexivity|discriminate].
  - intros [-> Hm]. rewrite prefix_unchecked, dropPrefix_unchecked.
    destruct m; [congruence|reflexivity].
Qed.

Lemma incompleteMatch_checked (r : string) : incompleteMatch ("- [x] " ++ r) = None.
Proof. rewrite checked_cons. reflexivity. Qed.

Lemma completedTest_unchecked (r : string) : completedTest ("- [ ] " ++ r) = false.
Proof. rewrite unchecked_cons. reflexivity. Qed.

Lemma completedTest_checked (r : string) : completedTest ("- [x] " ++ r) = true.
Proof. rewrite checked_cons. unfold completedTest. cbn. rewrite prefix_empty. reflexivity. Qed.

(** Every open task comes from a line, and carries its number. *)
Lemma openTasks_elem (ls : list string) :
  forall (i : nat) (t : Task),
    In t (openTasks i ls) ->
    exists (k : nat) (m : string),
      ls !! k = Some ("- [ ] " ++ m) /\ m <> "" /\
      t = {| id := stringOfNat (i + k + 1); title := trim m; completed := false |}.
Proof.
  induction ls as [|l ls IH]; intros i t H; [destruct H|].
  cbn [openTasks] in H.
  assert (Hrest : In t (openTasks (S i) ls) ->
    exists (k : nat) (m : string),
      (l :: ls) !! k = Some ("- [ ] " ++ m) /\ m <> "" /\
      t = {| id := stringOfNat (i + k + 1); title := trim m; completed := false |}).
  { intros H'. destruct (IH _ _ H') as (k & m & Hk & Hm & ->).
    exists (S k), m. split; [exact Hk|]. split; [exact Hm|].
    replace (S i + k + 1) with (i + S k + 1) by lia. reflexivity. }
  destruct (incompleteMatch l) as [m|] eqn:E; [|auto].
  destruct H as [<-|H]; [|auto].
  apply incompleteMatch_Some in E. destruct E as [-> Hm].
  exists 0, m. split; [reflexivity|]. split; [exact Hm|].
  rewrite Nat.add_0_r. reflexivity.
Qed.

Lemma openTasks_ids (ls : list string) (i : nat) :
  map id (openTasks i ls) = map stringOfNat (openNumbers i ls).
Proof.
  revert i. induction ls as [|l ls IH]; intros i; [reflexivity|].
  cbn [openTasks openNumbers]. destruct (incompleteMatch l); cbn [map];
    rewrite IH; reflexivity.
Qed.

Lemma openNumbers_above (ls : list string) (i : nat) :
  Forall (fun n => i < n <= i + List.length ls) (openNumbers i ls).
Proof.
  revert i. induction ls as [|l ls IH]; intros i; [constructor|].
  cbn [openNumbers List.length].
  assert (H : Forall (fun n => i < n <= i + S (List.length ls)) (openNumbers (S i) ls)).
  { eapply Forall_impl; [apply IH|]. cbn beta. intros n Hn. lia. }
  destruct (incompleteMatch l); [constructor; [lia|exact H]|exact H].
Qed.

Lemma openNumbers_sorted (ls : list string) (i : nat) :
  StronglySorted lt (openNumbers i ls).
Proof.
  revert i. induction ls as [|l ls IH]; intros i; [constructor|].
  cbn [openNumbers]. destruct (incompleteMatch l); [|apply IH].
  constructor; [apply IH|].
  eapply Forall_impl; [apply openNumbers_above|]. cbn beta. intros n Hn. lia.
Qed.

Lemma openTasks_NoDup (ls : list string) (i : nat) :
  NoDup (map id (openTasks i ls)).
Proof.
  rewrite openTasks_ids. apply NoDup_fmap_2.
  - intros n m. apply stringOfNat_inj.
  - pose proof (openNumbers_sorted ls i) as H.
    induction H as [|n ns Hs IH Hall]; constructor; [|exact IH].
    intros Hin. rewrite Forall_forall in Hall. specialize (Hall n Hin). lia.
Qed.

(** X7: the id of every task listed is the decimal number of its
    line: [parseInt] reads it back, the line it names is an unchecked
    box with a non-empty text, whose trimmed form is the title.  The
    ids come in the order of the file and none comes twice. *)
Theorem task_ids_are_line_numbers (f : File) (this : MarkdownTaskSource) :
  cacheCoherent f this ->
  let tasks := (getAllTasks f this).1 in
  (forall t, In t tasks ->
     exists (n : nat) (rest : string),
       id t = stringOfNat n /\
       parseInt (id t) = Some (Z.of_nat n) /\
       1 <= n <= List.length (fileLines f) /\
       fileLines f !! (n - 1) = Some ("- [ ] " ++ rest) /\ rest <> "" /\
       title t = trim rest /\ completed t = false) /\
  (* in the order of the file, and no id twice *)
  (exists ns : list nat,
     map id tasks = map stringOfNat ns /\ StronglySorted lt ns) /\
  NoDup (map id tasks).
Proof.
  intros H tasks. subst tasks. rewrite (getAllTasks_coherent f this H).
  split; [|split].
  - intros t Ht. destruct (openTasks_elem _ _ _ Ht) as (k & m & Hk & Hm & ->).
    exists (k + 1), m. cbn [id title completed].
    split; [reflexivity|]. split; [apply parseInt_stringOfNat|].
    split; [apply lookup_lt_Some in Hk; lia|].
    replace (k + 1 - 1) with k by lia. auto.
  - exists (openNumbers 0 (fileLines f)).
    split; [apply openTasks_ids|apply openNumbers_sorted].
  - apply openTasks_NoDup.
Qed.
End MarkdownOpenTasks.

Section MarkdownRoundTrip.
Import Markdown.
Local Open Scope string_scope.

(** Checking off line [k] removes its task and leaves the others. *)
Lemma openTasks_checked (ls : list string) :
  forall (i k : nat) (m new : string),
    ls !! k = Some ("- [ ] " ++ m) -> m <> "" -> incompleteMatch new = None ->
    exists before after : list Task,
      openTasks i ls
      = (before ++ {| id := stringOfNat (i + k + 1); title := trim m;
                     completed := false |} :: after)%list /\
      openTasks i (<[k := new]> ls) = (before ++ after)%list.
Proof.
  induction ls as [|l ls IH]; intros i k m new Hk Hm Hnew; [discriminate|].
  destruct k as [|k].
  - injection Hk as ->. exists [], (openTasks (S i) ls).
    cbn [openTasks insert list_insert].
    rewrite (proj2 (incompleteMatch_Some _ m) (conj eq_refl Hm)), Hnew.
    rewrite Nat.add_0_r. split; reflexivity.
  - destruct (IH (S i) k m new Hk Hm Hnew) as (before & after & E1 & E2).
    replace (S i + k + 1) with (i + S k + 1) in E1 by lia.
    change (<[S k := new]> (l :: ls)) with (l :: <[k := new]> ls).
    cbn [openTasks]. destruct (incompleteMatch l) as [m'|].
    + eexists (_ :: before), after. rewrite E1, E2. split; reflexivity.
    + exists before, after. rewrite E1, E2. split; reflexivity.
Qed.

Lemma completedLines_checked (ls : list string) :
  forall (k : nat) (old new : string),
    ls !! k = Some old -> completedTest old = false -> completedTest new = true ->
    completedLines (<[k := new]> ls) = S (completedLines ls).
Proof.
  induction ls as [|l ls IH]; intros k old new Hk Hold Hnew; [discriminate|].
  destruct k as [|k].
  - injection Hk as ->. cbn. rewrite Hold, Hnew. reflexivity.
  - change (<[S k := new]> (l :: ls)) with (l :: <[k := new]> ls).
    cbn [completedLines]. rewrite (IH k old new Hk Hold Hnew). lia.
Qed.

(** X8: [markComplete] of the id of a listed task removes that task
    from the list and no other, in the same order; [countRemaining]
    goes down by one and [countCompleted] up by one. *)
Theorem markComplete_removes_listed_task
    (t : Task) (now : Z) (f : File) (this : MarkdownTaskSource) :
  cacheCoherent f this ->
  In t (getAllTasks f this).1 ->
  let after := markComplete (id t) now f (getAllTasks f this).2 in
  (exists before behind : list Task,
     (getAllTasks f this).1 = (before ++ t :: behind)%list /\
     (getAllTasks after.1 after.2).1 = (before ++ behind)%list) /\
  S (countRemaining after.1 after.2).1 = (countRemaining f this).1 /\
  (countCompleted after.1 after.2).1 = S (countCompleted f this).1.
Proof.
  intros H Ht after.
  assert (Hco : cacheCoherent after.1 after.2).
  { unfold after, cacheCoherent. rewrite markComplete_cache. exact I. }
  rewrite (getAllTasks_coherent f this H) in *.
  rewrite (getAllTasks_coherent _ _ Hco).
  rewrite !countRemaining_eq, !countCompleted_eq. cbn [fst].
  rewrite (proj1 (getCache_coherent _ _ Hco)), (proj1 (getCache_coherent _ _ H)).
  rewrite !(proj1 (proj2 (loadCache_open _))), !loadCache_completed.
  destruct (openTasks_elem _ _ _ Ht) as (k & m & Hk & Hm & ->).
  cbn [id] in after.
  assert (Hlines : fileLines after.1 = <[k := "- [x] " ++ m]> (fileLines f)).
  { unfold after.
    rewrite (markComplete_inside _ now (Z.of_nat (0 + k + 1))).
    - cbn [fst]. rewrite fileLines_marked. unfold markedLines.
      replace (Z.to_nat (Z.of_nat (0 + k + 1) - 1)) with k by lia.
      rewrite Hk. cbn [from_option Datatypes.id].
      rewrite checkOff_unchecked. reflexivity.
    - apply parseInt_stringOfNat.
    - apply lookup_lt_Some in Hk. lia. }
  rewrite Hlines.
  destruct (openTasks_checked (fileLines f) 0 k m ("- [x] " ++ m) Hk Hm
              (incompleteMatch_checked m)) as (before & behind & E1 & E2).
  rewrite E1, E2. split; [exists before, behind; split; reflexivity|].
  split.
  - rewrite !length_app. cbn [List.length]. lia.
  - apply (completedLines_checked _ k ("- [ ] " ++ m));
      [exact Hk|apply completedTest_unchecked|apply completedTest_checked].
Qed.

(** X9: the cache is keyed on the modification time alone.  After a
    query, a file changed from outside is read again if its
    modification time differs; with the same modification time the
    answer is still the one of the old content. *)
Theorem cache_follows_mtime (f f' : File) (this : MarkdownTaskSource) :
  let this1 := (getAllTasks f this).2 in
  (mtimeMs f' = mtimeMs f ->
   (getAllTasks f' this1).1 = (getAllTasks f this).1) /\
  (mtimeMs f' <> mtimeMs f ->
   (getAllTasks f' this1).1 = openTasks 0 (fileLines f')).
Proof.
  intros this1. subst this1. rewrite !getAllTasks_eq. cbn [fst snd].
  assert (H : exists c, getCache f this = (c, {| cache := Some c |})
                        /\ fileMtime c = mtimeMs f).
  { unfold getCache. destruct this as [[c|]]; cbn [cache].
    - destruct (Z.eqb_spec (getFileMtime f) (fileMtime c)) as [E|E]; cbn [negb].
      + exists c. split; [reflexivity|symmetry; exact E].
      + exists (loadCache f).1. split; [|apply loadCache_open].
        unfold loadCache. destruct (scanLines _ _ _ _ _) as [[? ?] ?]. reflexivity.
    - exists (loadCache f).1. split; [|apply loadCache_open].
      unfold loadCache. destruct (scanLines _ _ _ _ _) as [[? ?] ?]. reflexivity. }
  destruct H as (c & -> & Hc). cbn [fst snd]. unfold getCache. cbn [cache].
  unfold getFileMtime. rewrite Hc. split; intros E.
  - rewrite E, Z.eqb_refl. reflexivity.
  - destruct (Z.eqb_spec (mtimeMs f') (mtimeMs f)); [contradiction|].
    cbn [negb]. apply loadCache_open.
Qed.
End MarkdownRoundTrip.

Section MarkdownLineEndings.
Import Markdown.
Local Open Scope string_scope.

Lemma join_split (s : string) : join (split s) = s.
Proof.
  induction s as [|c s IH]; [reflexivity|].
  cbn [split]. pose proof (split_nonempty s) as Hne.
  destruct (isChar c LF) eqn:E.
  - apply Ascii.eqb_eq in E. subst c.
    destruct (split s) as [|l rest]; [congruence|].
    change (join (EmptyString :: l :: rest))
      with (String LF (join (l :: rest))).
    rewrite IH. reflexivity.
  - destruct (split s) as [|l rest]; [congruence|].
    destruct rest as [|l' rest].
    + cbn [join] in *. rewrite IH. reflexivity.
    + change (join (String c l :: l' :: rest))
        with (String c (l ++ String LF (join (l' :: rest)))).
      change (join (l :: l' :: rest))
        with (l ++ String LF (join (l' :: rest))) in IH.
      rewrite IH. reflexivity.
Qed.

(** X10: [markComplete] of a line number inside the file always writes
    the file, with Unix line endings and a new modification time; when
    the line is not an unchecked box the content written is the
    normalised content read. *)
Theorem markComplete_writes_unix_endings
    (id : string) (n now : Z) (f : File) (this : MarkdownTaskSource) :
  parseInt id = Some n ->
  (1 <= n <= Z.of_nat (List.length (fileLines f)))%Z ->
  let once := markComplete id now f this in
  without CR (data once.1) /\
  mtimeMs once.1 = now /\
  (forall line,
     fileLines f !! Z.to_nat (n - 1) = Some line ->
     String.prefix "- [ ] " line = false ->
     data once.1 = readFileNormalized f).
Proof.
  intros Hid Hn once. unfold once.
  rewrite (markComplete_inside id now n f this Hid Hn). cbn [fst data mtimeMs].
  destruct (fileLines_clean f) as (Hne & HLF & HCR).
  split; [|split; [reflexivity|]].
  - apply join_without_CR.
    apply (markedLines_clean _ _ Hne HLF HCR).
  - intros line Hline Hpre. unfold markedLines. rewrite Hline.
    cbn [from_option Datatypes.id]. rewrite (checkOff_other line Hpre).
    rewrite list_insert_id by exact Hline. apply join_split.
Qed.

Lemma toCRLF_normalised (s : string) :
  without CR s -> replaceCRLF (toCRLF s) = s.
Proof.
  induction s as [|c s IH]; [reflexivity|]. intros [Hc Hs].
  cbn [toCRLF]. destruct (isChar c LF) eqn:E.
  - apply Ascii.eqb_eq in E. subst c. cbn [replaceCRLF].
    change (isChar CR CR && isChar LF LF) with true. cbn match.
    rewrite (IH Hs). reflexivity.
  - cbn [replaceCRLF]. rewrite Hc. cbn [andb].
    specialize (IH Hs). destruct (toCRLF s) as [|c' s'] eqn:Es.
    + destruct s as [|c'' s'']; [reflexivity|].
      cbn [toCRLF] in Es. destruct (isChar c'' LF); discriminate.
    + rewrite IH. reflexivity.
Qed.

(** X11: a file saved with Windows line endings has the same lines,
    tasks and counts as the same text with Unix line endings, and
    [markComplete] writes the same content for both. *)
Theorem crlf_file_reads_the_same (s : string) (t t' : Z) :
  without CR s ->
  let dos := {| data := toCRLF s; mtimeMs := t |} in
  let unix := {| data := s; mtimeMs := t' |} in
  fileLines dos = split s /\
  (getAllTasks dos {| cache := None |}).1 = (getAllTasks unix {| cache := None |}).1 /\
  (countRemaining dos {| cache := None |}).1
  = (countRemaining unix {| cache := None |}).1 /\
  (countCompleted dos {| cache := None |}).1
  = (countCompleted unix {| cache := None |}).1 /\
  (* and a write brings the Unix endings *)
  (forall id now n,
     parseInt id = Some n -> (1 <= n <= Z.of_nat (List.length (split s)))%Z ->
     data (markComplete id now dos {| cache := None |}).1
     = data (markComplete id now unix {| cache := None |}).1).
Proof.
  intros Hs dos unix.
  assert (Edos : readFileNormalized dos = s).
  { unfold readFileNormalized, dos. cbn [data].
    rewrite (toCRLF_normalised s Hs). apply replaceCR_id, Hs. }
  assert (Eunix : readFileNormalized unix = s).
  { unfold readFileNormalized, unix. cbn [data].
    rewrite replaceCRLF_id by exact Hs. apply replaceCR_id, Hs. }
  assert (Elines : fileLines dos = fileLines unix).
  { unfold fileLines. rewrite Edos, Eunix. reflexivity. }
  split; [unfold fileLines; rewrite Edos; reflexivity|].
  assert (Hco : forall g, cacheCoherent g {| cache := None |}) by (intros g; exact I).
  rewrite !getAllTasks_coherent, !countRemaining_eq, !countCompleted_eq by apply Hco.
  cbn [fst]. rewrite !(proj1 (getCache_coherent _ _ (Hco _))).
  rewrite !(proj1 (proj2 (loadCache_open _))), !loadCache_completed, Elines.
  split; [reflexivity|]. split; [reflexivity|]. split; [reflexivity|].
  intros id now n Hid Hn.
  assert (Hn' : (1 <= n <= Z.of_nat (List.length (fileLines dos)))%Z).
  { unfold fileLines. rewrite Edos. exact Hn. }
  rewrite (markComplete_inside id now n dos) by assumption.
  rewrite (markComplete_inside id now n unix) by (rewrite <- ?Elines; assumption).
  cbn [fst data]. rewrite Elines. reflexivity.
Qed.
End MarkdownLineEndings.

(** ** Names of branches and worktrees *)

Section Slugs.
Import Ralphy.
Local Open Scope string_scope.

Lemma isSlugChar_not_dash (c : ascii) : isSlugChar c = true -> Ascii.eqb c "-" = false.
Proof. destruct c as [[] [] [] [] [] [] [] []]; try discriminate; reflexivity. Qed.

Lemma dashRuns_separated (s : string) :
  forall inRun, separated inRun (dashRuns s inRun) = true.
Proof.
  induction s as [|c s IH]; intros inRun; [reflexivity|].
  cbn [dashRuns]. destruct (isSlugChar c) eqn:E.
  - cbn [separated]. rewrite (isSlugChar_not_dash c E), E. apply IH.
  - destruct inRun; [apply IH|].
    cbn [separated]. change (Ascii.eqb "-" "-") with true. cbn match.
    apply IH.
Qed.

Lemma separated_weaken (s : string) (b : bool) :
  separated b s = true -> separated false s = true.
Proof.
  destruct s as [|c s]; [reflexivity|]. cbn [separated].
  destruct (Ascii.eqb c "-"); [|tauto].
  destruct b; [discriminate|tauto].
Qed.

Lemma dropLastDash_separated (s : string) :
  forall b, separated b s = true -> separated b (dropLastDash s) = true.
Proof.
  induction s as [|c s IH]; intros b H; [reflexivity|].
  cbn [dropLastDash]. destruct s as [|c' s'].
  - destruct (Ascii.eqb c "-"); [reflexivity|exact H].
  - cbn [separated] in H |- *.
    destruct (Ascii.eqb c "-").
    + apply andb_true_iff in H as [H1 H2]. rewrite H1. cbn [andb].
      apply IH, H2.
    + apply andb_true_iff in H as [H1 H2]. rewrite H1. cbn [andb].
      apply IH, H2.
Qed.

Lemma substring_separated (s : string) :
  forall n b, separated b s = true -> separated b (String.substring 0 n s) = true.
Proof.
  induction s as [|c s IH]; intros n b H; [destruct n; reflexivity|].
  destruct n as [|n]; [reflexivity|].
  cbn [String.substring separated] in H |- *.
  destruct (Ascii.eqb c "-");
    apply andb_true_iff in H as [H1 H2]; rewrite H1; cbn [andb]; apply IH, H2.
Qed.

Lemma substring_length_le (s : string) :
  forall n, String.length (String.substring 0 n s) <= n.
Proof.
  induction s as [|c s IH]; intros n; [destruct n; cbn; lia|].
  destruct n as [|n]; [cbn; lia|]. cbn [String.substring String.length].
  specialize (IH n). lia.
Qed.

Lemma separated_chars (s : string) (b : bool) :
  separated b s = true ->
  allChars (fun c => isSlugChar c || Ascii.eqb c "-") s = true.
Proof.
  revert b. induction s as [|c s IH]; intros b H; [reflexivity|].
  cbn [separated allChars] in H |- *.
  destruct (Ascii.eqb c "-"); apply andb_true_iff in H as [H1 H2].
  - rewrite orb_true_r. exact (IH _ H2).
  - rewrite H1. exact (IH _ H2).
Qed.

Lemma prefix_cons (a c : ascii) (p s : string) :
  String.prefix (String a p) (String c s) = Ascii.eqb a c && String.prefix p s.
Proof.
  cbn [String.prefix]. destruct (ascii_dec a c) as [->|Hne].
  - rewrite Ascii.eqb_refl. reflexivity.
  - apply Ascii.eqb_neq in Hne. rewrite Hne. reflexivity.
Qed.

Lemma separated_no_double (s : string) (b : bool) :
  separated b s = true -> Retry.contains "--" s = false.
Proof.
  revert b. induction s as [|c s IH]; intros b H; [reflexivity|].
  cbn [Retry.contains]. cbn [separated] in H.
  destruct (Ascii.eqb c "-") eqn:Ec; apply andb_true_iff in H as [H1 H2].
  - rewrite (IH _ H2), orb_false_r.
    destruct s as [|c' s']; [rewrite prefix_cons, andb_false_r; reflexivity|].
    cbn [separated] in H2. rewrite !prefix_cons.
    rewrite (Ascii.eqb_sym "-" c').
    destruct (Ascii.eqb c' "-"); [discriminate|].
    rewrite andb_false_r. reflexivity.
  - rewrite (IH _ H2), orb_false_r. rewrite prefix_cons.
    rewrite (Ascii.eqb_sym "-" c), Ec. reflexivity.
Qed.

Lemma separated_no_lead (s : string) :
  separated true s = true -> String.prefix "-" s = false.
Proof.
  destruct s as [|c s]; [reflexivity|]. cbn [separated].
  rewrite prefix_cons, (Ascii.eqb_sym "-" c).
  destruct (Ascii.eqb c "-"); [discriminate|reflexivity].
Qed.

Lemma slugify_separated (text : string) : separated true (slugify text) = true.
Proof.
  unfold slugify. apply substring_separated, dropLastDash_separated.
  pose proof (dashRuns_separated (Retry.toLower text) false) as H.
  destruct (dashRuns (Retry.toLower text) false) as [|c s]; [reflexivity|].
  destruct (Ascii.eqb c "-") eqn:Ec.
  - apply Ascii.eqb_eq in Ec. subst c. cbn [separated] in H.
    change (Ascii.eqb "-" "-") with true in H. exact H.
  - assert (Hc : c <> "-"%char) by (intros ->; discriminate).
    assert (E : match c with
                | "-"%char => s
                | _ => String c s
                end = String c s).
    { destruct c as [[] [] [] [] [] [] [] []]; try reflexivity. congruence. }
    rewrite E. cbn [separated] in H |- *. rewrite Ec in *. exact H.
Qed.

End Slugs.

Section Numbers.
Import Ralphy.
Local Open Scope string_scope.

Lemma showZ_inj (a b : Z) : showZ a = showZ b -> a = b.
Proof.
  unfold showZ. intros E.
  apply DecimalZ.to_int_inj.
  assert (H : forall z, NilZero.int_of_string (NilZero.string_of_int (Z.to_int z))
                        = Some (Z.to_int z)).
  { intros z. apply NilZero.isi; destruct z; cbn; try discriminate;
      intros [= H]; exact (DecimalPos.Unsigned.to_uint_nonnil _ H). }
  apply (f_equal NilZero.int_of_string) in E. rewrite !H in E.
  congruence.
Qed.

Lemma uint_digits (d : Decimal.uint) :
  allChars Markdown.isDigit (NilEmpty.string_of_uint d) = true.
Proof. induction d; cbn [NilEmpty.string_of_uint allChars]; try rewrite IHd; reflexivity. Qed.

Lemma showZ_digits (z : Z) : (0 <= z)%Z -> allChars Markdown.isDigit (showZ z) = true.
Proof.
  intros Hz. unfold showZ. destruct z as [|p|p]; [reflexivity| |lia].
  cbn [Z.to_int NilZero.string_of_int]. unfold NilZero.string_of_uint.
  destruct (Pos.to_uint p) eqn:E; [reflexivity|..]; rewrite <- E; apply uint_digits.
Qed.

Lemma append_inj_l (p s t : string) : p ++ s = p ++ t -> s = t.
Proof.
  induction p as [|c p IH]; [tauto|].
  change (String c p ++ s) with (String c (p ++ s)).
  change (String c p ++ t) with (String c (p ++ t)).
  intros [= H]. auto.
Qed.

(** Two runs of digits, each followed by a dash: equal texts have equal
    runs. *)
Lemma digits_then_dash (d1 d2 r1 r2 : string) :
  allChars Markdown.isDigit d1 = true -> allChars Markdown.isDigit d2 = true ->
  d1 ++ String "-" r1 = d2 ++ String "-" r2 -> d1 = d2.
Proof.
  revert d2. induction d1 as [|c d1 IH]; intros d2 H1 H2 E.
  - destruct d2 as [|c d2]; [reflexivity|].
    change (String c d2 ++ String "-" r2) with (String c (d2 ++ String "-" r2)) in E.
    injection E as <- _. discriminate.
  - destruct d2 as [|c' d2].
    + change (String c d1 ++ String "-" r1) with (String c (d1 ++ String "-" r1)) in E.
      injection E as -> _. discriminate.
    + change (String c d1 ++ String "-" r1) with (String c (d1 ++ String "-" r1)) in E.
      change (String c' d2 ++ String "-" r2) with (String c' (d2 ++ String "-" r2)) in E.
      injection E as -> E. cbn [allChars] in H1, H2.
      apply andb_true_iff in H1 as [_ H1]. apply andb_true_iff in H2 as [_ H2].
      f_equal. exact (IH d2 H1 H2 E).
Qed.
End Numbers.

Section Names.
Import Ralphy.
Local Open Scope string_scope.
Variable cfg : Config.
Variable conflicts : Git.Tip -> Git.Tip -> list string.

Lemma create_agent_worktree_names (task : string) (agent : Z) (w : World) :
  exists w',
    create_agent_worktree cfg conflicts task agent w
    = (Ok (WORKTREE_BASE cfg +:+ "/agent-" +:+ showZ agent,
           "ralphy/agent-" +:+ showZ agent +:+ "-" +:+ slugify task), w').
Proof.
  unfold create_agent_worktree.
  unfold bind at 1. unfold git at 1.
  destruct (Git.run conflicts (Git.branch_D _) (repo w)) as [ok1 r1].
  unfold bind at 1. cbn [read BASE_BRANCH set_trace set_repo].
  unfold bind at 1. unfold bind at 1. unfold git at 1.
  cbn [repo set_trace set_repo].
  destruct (Git.run conflicts (Git.branch _ (BASE_BRANCH w)) r1) as [ok2 r2].
  destruct ok2; eexists; reflexivity.
Qed.

(** X13: two agents with different numbers get different worktree
    directories and different branch names, whatever their tasks (also
    when the tasks have the same slug). *)
Theorem agents_do_not_share (task1 task2 : string) (a1 a2 : Z) (w1 w2 : World) :
  (0 <= a1)%Z -> (0 <= a2)%Z -> a1 <> a2 ->
  exists d1 b1 w1' d2 b2 w2',
    create_agent_worktree cfg conflicts task1 a1 w1 = (Ok (d1, b1), w1') /\
    create_agent_worktree cfg conflicts task2 a2 w2 = (Ok (d2, b2), w2') /\
    d1 <> d2 /\ b1 <> b2.
Proof.
  intros H1 H2 Hne.
  destruct (create_agent_worktree_names task1 a1 w1) as [w1' E1].
  destruct (create_agent_worktree_names task2 a2 w2) as [w2' E2].
  eexists _, _, w1', _, _, w2'. split; [exact E1|]. split; [exact E2|].
  split.
  - intros E. apply append_inj_l, append_inj_l, showZ_inj in E. contradiction.
  - intros E. apply append_inj_l in E.
    apply Hne, showZ_inj.
    apply (digits_then_dash _ _ (slugify task1) (slugify task2));
      [apply showZ_digits; assumption..|exact E].
Qed.

Lemma occurs_append (c : ascii) (s t : string) :
  occurs c (s ++ t) = occurs c s || occurs c t.
Proof.
  induction s as [|a s IH]; [reflexivity|].
  change (String a s ++ t) with (String a (s ++ t)).
  cbn [occurs]. rewrite IH, orb_assoc. reflexivity.
Qed.

Lemma occurs_allChars (P : ascii -> bool) (c : ascii) (s : string) :
  P c = false -> allChars P s = true -> occurs c s = false.
Proof.
  intros Hc. induction s as [|a s IH]; [reflexivity|].
  cbn [allChars occurs]. intros H. apply andb_true_iff in H as [Ha Hs].
  rewrite (IH Hs), orb_false_r.
  destruct (Ascii.eqb_spec a c) as [->|]; [congruence|reflexivity].
Qed.

Lemma before_first_append (c : ascii) (d r : string) :
  occurs c d = false -> before_first c (d ++ String c r) = d.
Proof.
  induction d as [|a d IH]; intros H.
  - change ("" ++ String c r) with (String c r).
    cbn [before_first]. rewrite Ascii.eqb_refl. reflexivity.
  - change (String a d ++ String c r) with (String a (d ++ String c r)).
    cbn [occurs before_first] in *. apply orb_false_iff in H as [Ha Hd].
    rewrite Ha, (IH Hd). reflexivity.
Qed.

Lemma after_last_none (c : ascii) (r : string) :
  occurs c r = false -> after_last c r = r.
Proof.
  destruct r as [|a r]; [reflexivity|]. cbn [occurs after_last].
  intros H. apply orb_false_iff in H as [Ha Hr]. rewrite Hr, Ha. reflexivity.
Qed.

Lemma after_last_append (c : ascii) (d r : string) :
  occurs c r = false -> after_last c (d ++ String c r) = r.
Proof.
  intros Hr. induction d as [|a d IH].
  - change ("" ++ String c r) with (String c r).
    cbn [after_last]. rewrite Hr, Ascii.eqb_refl. reflexivity.
  - change (String a d ++ String c r) with (String a (d ++ String c r)).
    cbn [after_last]. rewrite occurs_append. cbn [occurs].
    rewrite Ascii.eqb_refl, orb_true_r. exact IH.
Qed.

Lemma slugify_occurs (c : ascii) (text : string) :
  isSlugChar c || Ascii.eqb c "-" = false -> occurs c (slugify text) = false.
Proof.
  intros Hc.
  apply (occurs_allChars (fun c => isSlugChar c || Ascii.eqb c "-")); [exact Hc|].
  exact (separated_chars _ true (slugify_separated text)).
Qed.

(** X14: when the worktree base holds no [|], the line that
    [create_agent_worktree] prints is read back by [run_parallel_agent]
    as the same directory and branch name. *)
Theorem worktree_info_round_trip (task : string) (agent : Z) (w w' : World)
    (p : string * string) :
  occurs "|" (WORKTREE_BASE cfg) = false -> (0 <= agent)%Z ->
  create_agent_worktree cfg conflicts task agent w = (Ok p, w') ->
  read_worktree_info (worktree_info p) = p.
Proof.
  intros Hbase Hagent E.
  destruct (create_agent_worktree_names task agent w) as [w'' E'].
  rewrite E' in E. injection E as <- _.
  assert (Hnum : occurs "|" (showZ agent) = false).
  { apply (occurs_allChars Markdown.isDigit); [reflexivity|].
    apply showZ_digits, Hagent. }
  unfold read_worktree_info, worktree_info. cbn [fst snd].
  f_equal.
  - apply before_first_append.
    rewrite !occurs_append, Hbase, Hnum. reflexivity.
  - apply after_last_append.
    rewrite !occurs_append, Hnum, slugify_occurs by reflexivity. reflexivity.
Qed.

(** X15: the issue number taken from a task of the GitHub source is the
    number of the issue, whatever the title holds (colons included). *)
Theorem issue_num_of_github_task (number : Z) (title : string) :
  (0 <= number)%Z ->
  issue_num (github_task number title) = showZ number.
Proof.
  intros H. unfold issue_num, github_task. apply before_first_append.
  apply (occurs_allChars Markdown.isDigit); [reflexivity|].
  apply showZ_digits, H.
Qed.
End Names.

(** ** The agent runner, for any engine *)


Section AgentAttempts.
Import Ralphy.
Local Open Scope sh_scope.
Variable cfg : Config.
Variable conflicts : Git.Tip -> Git.Tip -> list string.
Variable engine : Z -> string -> Z -> Invocation.
Variable parse_tokens : string -> Z * Z.
Variable setup_dirty : Z -> bool.

Lemma engine_runs_app (a b : list Event) :
  engine_runs (a ++ b) = engine_runs a ++ engine_runs b.
Proof. apply omap_app. Qed.

Lemma pauses_app (a b : list Event) : pauses (a ++ b) = (pauses a + pauses b)%nat.
Proof. unfold pauses. rewrite List.filter_app, length_app. reflexivity. Qed.

Lemma quiet_runs (evs : list Event) :
  Forall quiet evs -> engine_runs evs = [] /\ pauses evs = 0%nat.
Proof.
  induction 1 as [|e evs He _ [IH1 IH2]]; [split; reflexivity|].
  unfold engine_runs, pauses in *. cbn [omap list_omap List.filter].
  destruct e; try contradiction; cbn; rewrite ?IH1; auto.
Qed.

Lemma apply_invocation_trace (dir : string) (inv : Invocation) (w : World) :
  exists w', apply_invocation dir inv w = (Ok tt, w') /\ trace w' = trace w.
Proof.
  unfold apply_invocation. destruct (worktrees w !! dir); eexists; split; reflexivity.
Qed.

Lemma create_agent_worktree_quiet (task : string) (agent : Z) (w : World) :
  exists w' evs,
    create_agent_worktree cfg conflicts task agent w
    = (Ok (WORKTREE_BASE cfg +:+ "/agent-" +:+ showZ agent,
           "ralphy/agent-" +:+ showZ agent +:+ "-" +:+ slugify task), w') /\
    trace w' = trace w ++ evs /\ Forall quiet evs.
Proof.
  unfold create_agent_worktree.
  unfold bind at 1. unfold git at 1.
  destruct (Git.run conflicts (Git.branch_D _) (repo w)) as [ok1 r1].
  unfold bind at 1. cbn [read BASE_BRANCH set_trace set_repo].
  unfold bind at 1. unfold bind at 1. unfold git at 1.
  cbn [repo set_trace set_repo].
  destruct (Git.run conflicts (Git.branch _ (BASE_BRANCH w)) r1) as [ok2 r2].
  destruct ok2; eexists _, _; (split; [reflexivity|]); cbn;
    rewrite <- ?app_assoc; (split; [reflexivity|]); repeat constructor.
Qed.

Lemma cleanup_agent_worktree_quiet (dir name log : string) (w : World) :
  exists w' evs,
    cleanup_agent_worktree dir name log w = (Ok tt, w') /\
    trace w' = trace w ++ evs /\ Forall quiet evs.
Proof.
  unfold cleanup_agent_worktree. unfold bind at 1. unfold dir_exists at 1.
  destruct (bool_decide (is_Some (worktrees w !! dir)));
    unfold bind at 1; cbn [status_porcelain ret];
    [destruct (match worktrees w !! dir with Some wt => wt_dirty wt | None => false end)|];
    try (destruct (negb (String.eqb log "")));
    eexists _, _; (split; [reflexivity|]); cbn;
    try (split; [reflexivity|]; repeat constructor);
    (split; [symmetry; apply app_nil_r|constructor]).
Qed.

(** The retry loop, whatever the engine does. *)
Lemma engine_loop_runs (task : string) (agent : Z) (dir log : string)
    (remaining : nat) :
  forall (retry : Z) (w : World),
    exists (res : EngineResult) (w' : World) (n : nat) (evs : list Event),
      engine_loop cfg engine remaining retry task agent dir log w = (Ok res, w') /\
      trace w' = trace w ++ evs /\
      engine_runs evs = seqZ retry (Z.of_nat n) /\
      (n <= remaining)%nat /\
      (forall j, (S j < n)%nat ->
         attempt_fails (engine agent task (retry + Z.of_nat j))) /\
      match res with
      | Succeeded r =>
        (1 <= n)%nat /\ pauses evs = (n - 1)%nat /\
        attempt_succeeds (engine agent task (retry + Z.of_nat (n - 1))) /\
        r = result (engine agent task (retry + Z.of_nat (n - 1)))
      | Exhausted =>
        n = remaining /\ pauses evs = n /\
        forall j, (j < n)%nat ->
          attempt_fails (engine agent task (retry + Z.of_nat j))
      | Killed =>
        (1 <= n)%nat /\ pauses evs = (n - 1)%nat /\
        exit_status (engine agent task (retry + Z.of_nat (n - 1))) <> 0%Z
      end.
Proof.
  induction remaining as [|rem IH]; intros retry w; cbn [engine_loop].
  - exists Exhausted, w, 0%nat, []. rewrite app_nil_r.
    split; [reflexivity|]. split; [reflexivity|]. split; [reflexivity|].
    split; [lia|]. split; [intros; lia|].
    split; [reflexivity|]. split; [reflexivity|]. intros; lia.
  - unfold bind at 1. cbn [emit].
    match goal with
    | |- context [bind (apply_invocation dir ?i) _ ?w0] =>
        destruct (apply_invocation_trace dir i w0) as (w1 & E1 & Htr1)
    end.
    erewrite bind_ok by exact E1. cbn [trace set_trace] in Htr1.
    set (inv := engine agent task retry) in *.
    assert (Hinv0 : engine agent task (retry + Z.of_nat 0) = inv).
    { unfold inv. f_equal. lia. }
    (* one more turn of the loop after a failed attempt *)
    assert (Hturn : attempt_fails inv ->
      forall w2 note,
        trace w2 = trace w ++ [Engine dir retry; Append log note; Sleep] ->
        exists (res : EngineResult) (w' : World) (n : nat) (evs : list Event),
          engine_loop cfg engine rem (retry + 1) task agent dir log w2 = (Ok res, w') /\
          trace w' = trace w ++ evs /\
          engine_runs evs = seqZ retry (Z.of_nat n) /\
          (n <= S rem)%nat /\
          (forall j, (S j < n)%nat ->
             attempt_fails (engine agent task (retry + Z.of_nat j))) /\
          match res with
          | Succeeded r =>
            (1 <= n)%nat /\ pauses evs = (n - 1)%nat /\
            attempt_succeeds (engine agent task (retry + Z.of_nat (n - 1))) /\
            r = result (engine agent task (retry + Z.of_nat (n - 1)))
          | Exhausted =>
            n = S rem /\ pauses evs = n /\
            forall j, (j < n)%nat ->
              attempt_fails (engine agent task (retry + Z.of_nat j))
          | Killed =>
            (1 <= n)%nat /\ pauses evs = (n - 1)%nat /\
            exit_status (engine agent task (retry + Z.of_nat (n - 1))) <> 0%Z
          end).
    { intros Hfails w2 note Htr2.
      destruct (IH (retry + 1)%Z w2) as (res & w' & n & evs & E & Htr & Hruns & Hn & Hbefore & Hres).
      assert (Hshift : forall j, engine agent task (retry + 1 + Z.of_nat j)
                                 = engine agent task (retry + Z.of_nat (S j))).
      { intros j. f_equal. lia. }
      exists res, w', (S n), ([Engine dir retry; Append log note; Sleep] ++ evs).
      split; [exact E|].
      split; [rewrite Htr, Htr2, <- app_assoc; reflexivity|].
      split.
      { rewrite engine_runs_app, Hruns. cbn [engine_runs omap list_omap app].
        rewrite (seqZ_cons retry) by lia. f_equal. f_equal; lia. }
      split; [lia|].
      split.
      { intros j Hj. destruct j as [|j]; [rewrite Hinv0; exact Hfails|].
        rewrite <- Hshift. apply Hbefore. lia. }
      destruct res as [r| |].
      - destruct Hres as (H1 & Hp & Hok & Hr).
        split; [lia|]. split; [rewrite pauses_app, Hp; cbn; lia|].
        replace (S n - 1)%nat with (S (n - 1)) by lia.
        rewrite <- Hshift. split; assumption.
      - destruct Hres as (H1 & Hp & Hall).
        split; [lia|]. split; [rewrite pauses_app, Hp; cbn; lia|].
        intros j Hj. destruct j as [|j]; [rewrite Hinv0; exact Hfails|].
        rewrite <- Hshift. apply Hall. lia.
      - destruct Hres as (H1 & Hp & Hexit).
        split; [lia|]. split; [rewrite pauses_app, Hp; cbn; lia|].
        replace (S n - 1)%nat with (S (n - 1)) by lia.
        rewrite <- Hshift. exact Hexit. }
    destruct (Z.eqb_spec (exit_status inv) 0) as [Hexit|Hexit]; cbn [negb].
    + destruct (String.eqb_spec (result inv) "") as [Hempty|Hfull]; cbn [negb].
      * unfold bind at 1. cbn [emit]. unfold bind at 1. cbn [emit].
        eapply Hturn; [split; [exact Hexit|left; exact Hempty]|].
        cbn [trace set_trace]. rewrite Htr1, <- !app_assoc. reflexivity.
      * destruct (check_for_errors (result inv)) eqn:Herr; cbn [negb].
        -- exists (Succeeded (result inv)), w1, 1%nat, [Engine dir retry].
           split; [reflexivity|]. split; [exact Htr1|].
           split; [rewrite seqZ_one; reflexivity|]. split; [lia|].
           split; [intros; lia|]. split; [lia|]. split; [reflexivity|].
           cbn [Nat.sub]. rewrite Hinv0. repeat split; assumption.
        -- unfold bind at 1. cbn [emit]. unfold bind at 1. cbn [emit].
           eapply Hturn; [split; [exact Hexit|right; exact Herr]|].
           cbn [trace set_trace]. rewrite Htr1, <- !app_assoc. reflexivity.
    + exists Killed, w1, 1%nat, [Engine dir retry].
      split; [reflexivity|]. split; [exact Htr1|].
      split; [rewrite seqZ_one; reflexivity|]. split; [lia|].
      split; [intros; lia|]. split; [lia|]. split; [reflexivity|].
      cbn [Nat.sub]. rewrite Hinv0. exact Hexit.
Qed.

End AgentAttempts.

Section AgentEdges.
Import Ralphy.
Local Open Scope sh_scope.
Variable cfg : Config.
Variable conflicts : Git.Tip -> Git.Tip -> list string.
Variable engine : Z -> string -> Z -> Invocation.
Variable parse_tokens : string -> Z * Z.
Variable setup_dirty : Z -> bool.


Lemma batch_result_totals (job : Job) (names : list string * list string)
    (w : World) :
  exists names' w',
    batch_result cfg job names w = (Ok names', w') /\
    total_input_tokens w' = (total_input_tokens w + done_input [job])%Z /\
    total_output_tokens w' = (total_output_tokens w + done_output [job])%Z /\
    names'.1 = names.1 ++ done_branches [job] /\
    names'.2 = names.2 ++ done_branches [job] /\
    repo w' = repo w /\ worktrees w' = worktrees w.
Proof.
  unfold batch_result, done_input, done_output, done_branches, is_done.
  cbn [List.filter].
  destruct (status_file (job_files job)); cbn [List.filter map foldr];
    try (eexists _, _; split; [reflexivity|]; cbn;
         rewrite ?Z.add_0_r, ?app_nil_r; auto 10; fail).
  destruct (String.eqb (output_branch (job_files job)) ""); cbn [negb];
    eexists _, _; (split; [reflexivity|]); cbn;
    rewrite ?Z.add_0_r, ?app_nil_r; auto 10.
Qed.

Lemma done_input_cons job jobs :
  done_input (job :: jobs) = (done_input [job] + done_input jobs)%Z.
Proof.
  unfold done_input. cbn [List.filter]. destruct (is_done job); cbn; lia.
Qed.

Lemma done_output_cons job jobs :
  done_output (job :: jobs) = (done_output [job] + done_output jobs)%Z.
Proof.
  unfold done_output. cbn [List.filter]. destruct (is_done job); cbn; lia.
Qed.

Lemma done_branches_cons job jobs :
  done_branches (job :: jobs) = done_branches [job] ++ done_branches jobs.
Proof.
  unfold done_branches. cbn [List.filter]. destruct (is_done job); cbn [map List.filter app];
    [|reflexivity].
  destruct (negb (String.eqb (output_branch (job_files job)) "")); reflexivity.
Qed.

End AgentEdges.

(** ** The iteration ceiling *)

Section IterationCeiling.
Import Ralphy.
Local Open Scope sh_scope.
Variable cfg : Config.
Variable conflicts : Git.Tip -> Git.Tip -> list string.
Variable engine : Z -> string -> Z -> Invocation.
Variable parse_tokens : string -> Z * Z.
Variable setup_dirty : Z -> bool.

Lemma batch_loop_ceiling (tasks : list string) (label : string) (fuel : nat) :
  forall (s : Z) (st : Sched) (w : World),
    let n := Z.of_nat (length tasks) in
    let c := MAX_PARALLEL cfg in
    let m := MAX_ITERATIONS cfg in
    (0 < c)%Z -> (0 < m)%Z -> (0 <= s <= n)%Z -> (n - s <= Z.of_nat fuel)%Z ->
    exists (st' : Sched) (w' : World) (bs : list (list (Z * string))),
      batch_loop cfg conflicts engine parse_tokens setup_dirty
        fuel tasks label s st w = Some (Ok st', w') /\
      launched st' = launched st ++ bs /\
      (0 <= iteration st' - iteration st <= n - s)%Z /\
      concat (map (map snd) bs)
      = take (Z.to_nat (iteration st' - iteration st)) (drop (Z.to_nat s) tasks) /\
      Z.of_nat (list_sum (map length bs)) = (iteration st' - iteration st)%Z /\
      ((iteration st' - iteration st < n - s)%Z -> (m <= iteration st')%Z) /\
      ((iteration st < m)%Z -> (iteration st' < m + c)%Z).
Proof.
  intros s st w n c m. revert s st w.
  induction fuel as [|fuel IH]; intros s st w Hc Hm Hs Hfuel.
  - assert (s = n) by lia. subst s. exists st, w, [].
    cbn [batch_loop]. fold n. rewrite Z.ltb_irrefl.
    rewrite app_nil_r, Z.sub_diag. cbn. repeat split; try reflexivity; lia.
  - cbn [batch_loop]. fold n c m.
    destruct (Z.ltb_spec s n) as [Hlt|Hge].
    2:{ exists st, w, []. rewrite app_nil_r, Z.sub_diag. cbn.
        repeat split; try reflexivity; lia. }
    set (e := if (s + c >? n)%Z then n else (s + c)%Z).
    assert (He : (s < e <= n)%Z /\ (e - s <= c)%Z).
    { unfold e. destruct (Z.gtb_spec (s + c) n); lia. }
    destruct He as (He1 & He2).
    set (batch_tasks := take (Z.to_nat (e - s)) (drop (Z.to_nat s) tasks)).
    assert (Hlen : Z.of_nat (length batch_tasks) = (e - s)%Z).
    { unfold batch_tasks. rewrite length_take, length_drop. unfold n in *. lia. }
    destruct (run_batch_jobs cfg conflicts engine parse_tokens setup_dirty
                (batch_num st + 1) (e - s) batch_tasks label st w)
      as (jobs & st1 & w1 & E1 & Hit & Hla & Htasks & Hagents).
    rewrite E1.
    assert (Hj : length jobs = length batch_tasks).
    { rewrite <- Htasks, length_map. reflexivity. }
    set (b1 := map (fun j => (job_agent j, job_task j)) jobs) in *.
    assert (Hb1 : map snd b1 = batch_tasks).
    { unfold b1. rewrite map_map. exact Htasks. }
    assert (Hb1len : length b1 = length batch_tasks).
    { unfold b1. rewrite length_map. exact Hj. }
    assert (Hit' : iteration st1 = (iteration st + (e - s))%Z) by lia.
    destruct (Z.gtb_spec m 0) as [_|]; [|lia]. cbn [andb].
    destruct (Z.geb_spec (iteration st1) m) as [Hstop|Hgo].
    + (* the ceiling is reached: the loop stops after this batch *)
      eexists st1, _, [b1]. split; [reflexivity|]. split; [exact Hla|].
      replace (iteration st1 - iteration st)%Z with (e - s)%Z by lia.
      split; [lia|].
      split. { cbn [map concat]. rewrite app_nil_r. exact Hb1. }
      split. { unfold list_sum. cbn [map fold_right]. rewrite Hb1len. lia. }
      split; [intros _; lia|]. intros Hbelow. lia.
    + destruct (IH e st1 w1 Hc Hm ltac:(lia) ltac:(lia))
        as (st' & w' & bs & E & Hl & Hrange & Hcat & Hsum & Hearly & Hover).
      exists st', w', (b1 :: bs). split; [exact E|].
      split. { rewrite Hl, Hla, <- app_assoc. reflexivity. }
      split; [lia|].
      split.
      { cbn [map concat]. rewrite Hb1, Hcat. unfold batch_tasks.
        replace (Z.to_nat (iteration st' - iteration st))
          with (Z.to_nat (e - s) + Z.to_nat (iteration st' - iteration st1))%nat
          by lia.
        replace (Z.to_nat e) with (Z.to_nat s + Z.to_nat (e - s))%nat by lia.
        rewrite <- drop_drop. apply take_take_drop. }
      split. { unfold list_sum. cbn [map fold_right]. rewrite Hb1len.
               fold (list_sum (map length bs)). lia. }
      split; [intros Hless; apply Hearly; lia|].
      intros _. apply Hover. lia.
Qed.

End IterationCeiling.

(** ** Integration without conflicts *)


Section CleanMerges.
Import Ralphy.
Local Open Scope sh_scope.
Variable conflicts : Git.Tip -> Git.Tip -> list string.

Lemma merged_in_spec (theirs ours : Git.Tip) :
  Git.merged_in theirs ours = true <-> (forall c, In c theirs -> In c ours).
Proof.
  unfold Git.merged_in. rewrite forallb_forall. split; intros H c Hc.
  - specialize (H c Hc). apply bool_decide_eq_true in H.
    apply list_elem_of_In. exact H.
  - apply bool_decide_eq_true. apply list_elem_of_In. auto.
Qed.

Lemma union_spec (ours theirs : Git.Tip) (c : string) :
  In c (Git.union ours theirs) <-> In c ours \/ In c theirs.
Proof.
  unfold Git.union. rewrite in_app_iff, List.filter_In. split.
  - intros [H|[H _]]; auto.
  - intros [H|H]; [auto|].
    destruct (decide (c ∈ ours)) as [Hin|Hout].
    + left. apply list_elem_of_In. exact Hin.
    + right. split; [exact H|]. rewrite bool_decide_eq_false_2 by exact Hout.
      reflexivity.
Qed.

Lemma union_merged (ours theirs : Git.Tip) :
  Git.merged_in theirs ours = true -> Git.union ours theirs = ours.
Proof.
  intros H. unfold Git.union.
  replace (List.filter _ theirs) with (@nil string); [apply app_nil_r|].
  symmetry. rewrite merged_in_spec in H.
  induction theirs as [|c theirs IH]; [reflexivity|]. cbn [List.filter].
  rewrite bool_decide_eq_true_2
    by (apply list_elem_of_In, H; left; reflexivity).
  cbn [negb]. apply IH. intros c' Hc'. apply H. right. exact Hc'.
Qed.

Lemma merged_tips_grows (b : gmap string Git.Tip) (names : list string) :
  forall tip c, In c tip -> In c (merged_tips b tip names).
Proof.
  induction names as [|name names IH]; intros tip c H; [exact H|].
  change (merged_tips b tip (name :: names))
    with (merged_tips b (Git.union tip (default [] (b !! name))) names).
  apply IH. apply union_spec. left. exact H.
Qed.

Lemma merged_tips_holds (b : gmap string Git.Tip) (names : list string) :
  forall tip name t,
    In name names -> b !! name = Some t ->
    Git.merged_in t (merged_tips b tip names) = true.
Proof.
  induction names as [|n names IH]; intros tip name t Hin Ht; [destruct Hin|].
  change (merged_tips b tip (n :: names))
    with (merged_tips b (Git.union tip (default [] (b !! n))) names).
  destruct Hin as [->|Hin].
  - apply merged_in_spec. intros c Hc. apply merged_tips_grows.
    apply union_spec. right. unfold Git.Tip in *. rewrite Ht. exact Hc.
  - exact (IH _ name t Hin Ht).
Qed.

(** A merge of an existing branch that cannot conflict. *)
Lemma merge_clean (integ name : string) (r : Git.Repo)
    (b0 : gmap string Git.Tip) (t : Git.Tip) :
  (forall ours theirs, conflicts ours theirs = []) ->
  Git.HEAD r = Some integ -> Git.MERGE_HEAD r = None ->
  Git.branches r = <[integ := t]> b0 -> b0 !! integ = None ->
  is_Some (b0 !! name) ->
  exists r',
    Git.run conflicts (Git.merge name) r = (true, r') /\
    Git.HEAD r' = Some integ /\ Git.MERGE_HEAD r' = None /\
    Git.branches r' = <[integ := Git.union t (default [] (b0 !! name))]> b0.
Proof.
  intros Hclean HH HM HB Hfree [theirs Hname].
  assert (Hne : integ <> name) by congruence.
  assert (Hd : default [] (b0 !! name) = theirs).
  { unfold Git.Tip in *. rewrite Hname. reflexivity. }
  rewrite Hd.
  cbn [Git.run]. rewrite HM, HH, HB, lookup_insert_eq.
  rewrite lookup_insert_ne by exact Hne. rewrite Hname.
  destruct (Git.merged_in theirs t) eqn:Em.
  - exists r. split; [reflexivity|]. split; [exact HH|]. split; [exact HM|].
    rewrite (union_merged t theirs Em). exact HB.
  - rewrite Hclean. eexists. split; [reflexivity|]. cbn.
    split; [reflexivity|]. split; [reflexivity|]. apply insert_insert_eq.
Qed.

Lemma merge_group_branches_clean (integ : string) (b0 : gmap string Git.Tip)
    (names : list string) :
  (forall ours theirs, conflicts ours theirs = []) ->
  b0 !! integ = None ->
  (forall name, In name names -> is_Some (b0 !! name)) ->
  forall (w : World) (t : Git.Tip),
    Git.HEAD (repo w) = Some integ -> Git.MERGE_HEAD (repo w) = None ->
    Git.branches (repo w) = <[integ := t]> b0 ->
    exists w',
      merge_group_branches conflicts names w = (Ok false, w') /\
      Git.HEAD (repo w') = Some integ /\ Git.MERGE_HEAD (repo w') = None /\
      Git.branches (repo w') = <[integ := merged_tips b0 t names]> b0 /\
      trace w' = trace w ++ map (fun name => Git (Git.merge name) true) names /\
      worktrees w' = worktrees w /\ BASE_BRANCH w' = BASE_BRANCH w /\
      ORIGINAL_BASE_BRANCH w' = ORIGINAL_BASE_BRANCH w /\
      integration_branches w' = integration_branches w /\
      total_input_tokens w' = total_input_tokens w /\
      total_output_tokens w' = total_output_tokens w.
Proof.
  intros Hclean Hfree. induction names as [|name names IH];
    intros Hnames w t HH HM HB; cbn [merge_group_branches].
  - exists w. rewrite app_nil_r. cbn. auto 12.
  - destruct (merge_clean integ name (repo w) b0 t Hclean HH HM HB Hfree)
      as (r' & Erun & HH' & HM' & HB'); [apply Hnames; left; reflexivity|].
    erewrite bind_ok by apply git_run. rewrite Erun. cbn [fst snd negb].
    destruct (IH (fun n Hn => Hnames n (or_intror Hn))
                (set_trace (trace w ++ [Git (Git.merge name) true]) (set_repo r' w))
                (Git.union t (default [] (b0 !! name))) HH' HM' HB')
      as (w' & E & H1 & H2 & H3 & H4 & H5).
    exists w'. split; [exact E|]. split; [exact H1|]. split; [exact H2|].
    split; [exact H3|].
    split; [rewrite H4; cbn; rewrite <- app_assoc; reflexivity|exact H5].
Qed.
End CleanMerges.

Section IntegrationSuccess.
Import Ralphy.
Local Open Scope sh_scope.
Variable cfg : Config.
Variable conflicts : Git.Tip -> Git.Tip -> list string.

End IntegrationSuccess.

(** ** The direct merges of the final stage *)

Section DirectMerges.
Import Ralphy.
Local Open Scope sh_scope.
Variable cfg : Config.
Variable conflicts : Git.Tip -> Git.Tip -> list string.
Variable resolver : list string -> Git.Repo -> Z * Git.Repo.

(** While a merge is open every further merge is refused: the branch
    is collected, the repository stays as it is. *)
Lemma merge_agent_branches_open (names : list string) :
  forall (acc : list string) (w : World),
    Git.MERGE_HEAD (repo w) <> None ->
    exists w',
      merge_agent_branches conflicts names acc w = (Ok (acc ++ names), w') /\
      repo w' = repo w /\
      trace w'
      = trace w ++
        flat_map (fun name => [Echo ("  Merging " +:+ name +:+ "...");
                               Git (Git.merge name) false; Echo " conflict"])
          names.
Proof.
  induction names as [|name names IH]; intros acc w HM; cbn [merge_agent_branches].
  - exists w. rewrite !app_nil_r. auto.
  - unfold bind at 1. cbn [echo emit].
    erewrite bind_ok by apply git_run. cbn [repo set_trace set_repo trace].
    assert (Erun : Git.run conflicts (Git.merge name) (repo w) = (false, repo w)).
    { cbn [Git.run]. destruct (Git.MERGE_HEAD (repo w)); [reflexivity|congruence]. }
    rewrite Erun. cbn [fst snd]. unfold bind at 1. cbn [echo emit].
    match goal with
    | |- context [merge_agent_branches _ _ _ ?w0] =>
        destruct (IH (acc ++ [name]) w0) as (w' & E & Hr & Htr)
    end.
    { cbn. exact HM. }
    exists w'.
    replace ((acc ++ [name]) ++ names) with (acc ++ name :: names) in E
      by (rewrite <- app_assoc; reflexivity).
    split; [exact E|].
    split; [rewrite Hr; reflexivity|].
    rewrite Htr. cbn [trace set_trace set_repo flat_map].
    rewrite <- !app_assoc. reflexivity.
Qed.

(** X21: the loop of direct merges does not abort a merge that
    conflicts: the merge stays open, so every later branch is refused
    by git and collected as a conflict, whether it conflicts or not,
    and no branch is changed. *)
Theorem first_conflict_blocks_later_merges
    (name : string) (rest acc : list string) (w : World)
    (target : string) (ours theirs : Git.Tip) :
  Git.HEAD (repo w) = Some target -> Git.MERGE_HEAD (repo w) = None ->
  Git.branches (repo w) !! target = Some ours ->
  Git.branches (repo w) !! name = Some theirs ->
  Git.merged_in theirs ours = false -> conflicts ours theirs <> [] ->
  exists w',
    merge_agent_branches conflicts (name :: rest) acc w
    = (Ok (acc ++ name :: rest), w') /\
    (* the merge of [name] stays open, and nothing else is touched *)
    Git.MERGE_HEAD (repo w') = Some name /\
    Git.unmerged (repo w') = conflicts ours theirs /\
    Git.branches (repo w') = Git.branches (repo w) /\
    (* every later branch is refused and counted as a conflict *)
    added w w'
    = flat_map (fun name => [Echo ("  Merging " +:+ name +:+ "...");
                             Git (Git.merge name) false; Echo " conflict"])
        (name :: rest).
Proof.
  intros HH HM Hours Htheirs Hnew Hconf. cbn [merge_agent_branches].
  unfold bind at 1. cbn [echo emit].
  erewrite bind_ok by apply git_run. cbn [repo set_trace set_repo trace].
  assert (Erun : Git.run conflicts (Git.merge name) (repo w)
                 = (false, {| Git.branches := Git.branches (repo w);
                              Git.HEAD := Git.HEAD (repo w);
                              Git.MERGE_HEAD := Some name;
                              Git.unmerged := conflicts ours theirs |})).
  { cbn [Git.run]. rewrite HM, HH, Hours, Htheirs, Hnew.
    destruct (conflicts ours theirs); [congruence|reflexivity]. }
  rewrite Erun. cbn [fst snd]. unfold bind at 1. cbn [echo emit].
  match goal with
  | |- context [merge_agent_branches _ _ _ ?w0] =>
      destruct (merge_agent_branches_open rest (acc ++ [name]) w0)
        as (w' & E & Hr & Htr)
  end.
  { cbn. discriminate. }
  exists w'.
  replace ((acc ++ [name]) ++ rest) with (acc ++ name :: rest) in E
    by (rewrite <- app_assoc; reflexivity).
  split; [exact E|].
  rewrite Hr. cbn [repo set_trace set_repo Git.MERGE_HEAD Git.unmerged Git.branches].
  split; [reflexivity|]. split; [reflexivity|]. split; [reflexivity|].
  apply added_app. rewrite Htr. cbn [trace set_trace set_repo flat_map].
  rewrite <- !app_assoc. reflexivity.
Qed.

Lemma merged_tips_ext (b b' : gmap string Git.Tip) (names : list string) :
  (forall n, In n names -> b' !! n = b !! n) ->
  forall t, merged_tips b' t names = merged_tips b t names.
Proof.
  induction names as [|n names IH]; intros H t; [reflexivity|].
  change (merged_tips b' t (n :: names))
    with (merged_tips b' (Git.union t (default [] (b' !! n))) names).
  change (merged_tips b t (n :: names))
    with (merged_tips b (Git.union t (default [] (b !! n))) names).
  assert (E : default [] (b' !! n) = default [] (b !! n)).
  { pose proof (H n (or_introl eq_refl)) as Hn. unfold Git.Tip in *.
    rewrite Hn. reflexivity. }
  rewrite E.
  apply IH. intros n' Hn'. apply H. right. exact Hn'.
Qed.

Lemma merge_agent_branches_clean (target : string) (names : list string) :
  (forall ours theirs, conflicts ours theirs = []) ->
  forall (acc : list string) (w : World) (t : Git.Tip),
    Git.HEAD (repo w) = Some target -> Git.MERGE_HEAD (repo w) = None ->
    Git.branches (repo w) !! target = Some t ->
    (forall name, In name names ->
       name <> target /\ is_Some (Git.branches (repo w) !! name)) ->
    NoDup names ->
    exists w',
      merge_agent_branches conflicts names acc w = (Ok acc, w') /\
      Git.HEAD (repo w') = Some target /\ Git.MERGE_HEAD (repo w') = None /\
      Git.branches (repo w') !! target
      = Some (merged_tips (Git.branches (repo w)) t names) /\
      (forall name, In name names -> Git.branches (repo w') !! name = None) /\
      (forall other, ~ In other names -> other <> target ->
         Git.branches (repo w') !! other = Git.branches (repo w) !! other) /\
      trace w'
      = trace w ++
        flat_map (fun name => [Echo ("  Merging " +:+ name +:+ "...");
                               Git (Git.merge name) true;
                               Git (Git.branch_d name) true]) names.
Proof.
  intros Hclean. induction names as [|name names IH];
    intros acc w t HH HM Ht Hnames Hnodup; cbn [merge_agent_branches].
  - exists w. rewrite app_nil_r. cbn. repeat split; auto. intros ? [].
  - destruct (Hnames name (or_introl eq_refl)) as [Hne [theirs Htheirs]].
    apply NoDup_cons in Hnodup as [Hfresh Hnodup].
    rewrite list_elem_of_In in Hfresh.
    set (B := Git.branches (repo w)) in *.
    assert (HB : B = <[target := t]> (delete target B)).
    { rewrite insert_delete_eq. symmetry. apply insert_id. exact Ht. }
    assert (Hlook : delete target B !! name = Some theirs).
    { rewrite lookup_delete_ne by congruence. exact Htheirs. }
    destruct (merge_clean conflicts target name (repo w) (delete target B) t
                Hclean HH HM HB (lookup_delete_eq _ _))
      as (r1 & Erun & HH1 & HM1 & HB1); [rewrite Hlook; eauto|].
    assert (Hd : default [] (delete target B !! name) = theirs).
    { unfold Git.Tip in *. rewrite Hlook. reflexivity. }
    rewrite Hd in HB1.
    unfold bind at 1. cbn [echo emit].
    erewrite bind_ok by apply git_run. cbn [repo set_trace set_repo trace].
    rewrite Erun. cbn [fst snd].
    erewrite bind_ok by apply git_run. cbn [repo set_trace set_repo trace].
    assert (Edel : Git.run conflicts (Git.branch_d name) r1
                   = (true, {| Git.branches := delete name (Git.branches r1);
                               Git.HEAD := Git.HEAD r1;
                               Git.MERGE_HEAD := Git.MERGE_HEAD r1;
                               Git.unmerged := Git.unmerged r1 |})).
    { cbn [Git.run]. rewrite HH1. cbn [mbind option_bind].
      rewrite HB1, lookup_insert_eq, lookup_insert_ne by congruence.
      rewrite Hlook.
      replace (Git.merged_in theirs (Git.union t theirs)) with true; [reflexivity|].
      symmetry. apply merged_in_spec. intros c Hc. apply union_spec. auto. }
    rewrite Edel. cbn [fst snd].
    match goal with
    | |- context [merge_agent_branches _ _ _ ?w0] =>
        destruct (IH acc w0 (Git.union t theirs)) as (w' & E & H1 & H2 & H3 & H4 & H5 & H6)
    end.
    { exact HH1. }
    { exact HM1. }
    { cbn. rewrite HB1, lookup_delete_ne by congruence. apply lookup_insert_eq. }
    { intros n Hn. destruct (Hnames n (or_intror Hn)) as [Hnt Hsome].
      split; [exact Hnt|]. cbn.
      assert (n <> name) by (intros ->; contradiction).
      rewrite HB1, lookup_delete_ne, lookup_insert_ne, lookup_delete_ne by congruence.
      exact Hsome. }
    { exact Hnodup. }
    cbn [repo set_trace set_repo trace Git.branches] in H3, H4, H5, H6.
    exists w'. split; [exact E|]. split; [exact H1|]. split; [exact H2|].
    split.
    { rewrite H3. f_equal.
      change (merged_tips B t (name :: names))
        with (merged_tips B (Git.union t (default [] (B !! name))) names).
      assert (Hd' : default [] (B !! name) = theirs).
      { unfold Git.Tip in *. rewrite Htheirs. reflexivity. }
      rewrite Hd'. apply merged_tips_ext. intros n Hn.
      destruct (Hnames n (or_intror Hn)) as [Hnt _].
      assert (n <> name) by (intros ->; contradiction).
      rewrite HB1, lookup_delete_ne, lookup_insert_ne, lookup_delete_ne by congruence.
      reflexivity. }
    split.
    { intros n [<-|Hn]; [|apply H4, Hn].
      rewrite H5 by assumption. apply lookup_delete_eq. }
    split.
    { intros other Hother Hot.
      rewrite H5 by (try assumption; intros Hin; apply Hother; right; exact Hin).
      assert (other <> name) by (intros ->; apply Hother; left; reflexivity).
      rewrite HB1, lookup_delete_ne, lookup_insert_ne, lookup_delete_ne by congruence.
      reflexivity. }
    rewrite H6. cbn [flat_map]. rewrite <- !app_assoc. reflexivity.
Qed.
End DirectMerges.

Section FinalDirect.
Import Ralphy.
Local Open Scope sh_scope.
Variable cfg : Config.
Variable conflicts : Git.Tip -> Git.Tip -> list string.
Variable resolver : list string -> Git.Repo -> Z * Git.Repo.


(** X23: with [--create-pr] the final stage runs no git command and
    never calls the engine: it lists the branches and leaves the
    repository as it is. *)
Theorem pull_request_mode_merges_nothing (completed : list string) (w : World) :
  CREATE_PR cfg = true ->
  exists w',
    final_reconciliation cfg conflicts resolver completed w = (Ok tt, w') /\
    repo w' = repo w /\
    git_commands (added w w') = [] /\ resolutions (added w w') = [] /\
    (completed <> [] ->
     added w w'
     = Echo "Branches created by agents:"
       :: map (fun name => Echo ("  " +:+ name)) completed).
Proof.
  intros Hpr. unfold final_reconciliation.
  destruct completed as [|c0 rest] eqn:Ec.
  { exists w. unfold added. rewrite drop_all. repeat split; congruence. }
  rewrite <- Ec. rewrite Hpr. unfold bind at 1. cbn [echo emit].
  assert (Hloop : forall names w0, exists w1,
    for_each names (fun name => echo ("  " +:+ name)) w0 = (Ok tt, w1) /\
    repo w1 = repo w0 /\
    trace w1 = trace w0 ++ map (fun name => Echo ("  " +:+ name)) names).
  { induction names as [|n ns IH]; intros w0; cbn [for_each].
    - exists w0. rewrite app_nil_r. auto.
    - unfold bind at 1. cbn [echo emit].
      destruct (IH (set_trace (trace w0 ++ [Echo ("  " +:+ n)]) w0))
        as (w1 & E & Hr & Htr).
      exists w1. split; [exact E|]. split; [rewrite Hr; reflexivity|].
      rewrite Htr. cbn. rewrite <- app_assoc. reflexivity. }
  match goal with
  | |- context [for_each completed _ ?w0] =>
      destruct (Hloop completed w0) as (w1 & E & Hr & Htr)
  end.
  exists w1. split; [exact E|]. split; [rewrite Hr; reflexivity|].
  erewrite added_app
    by (rewrite Htr; cbn [trace set_trace]; rewrite <- app_assoc; reflexivity).
  assert (Hnone : forall names,
    git_commands (map (fun name => Echo ("  " +:+ name)) names) = [] /\
    resolutions (map (fun name => Echo ("  " +:+ name)) names) = []).
  { induction names as [|n ns [IH1 IH2]]; [split; reflexivity|].
    split; [exact IH1|exact IH2]. }
  cbn [app]. split; [apply (Hnone completed)|].
  split; [apply (Hnone completed)|]. reflexivity.
Qed.
End FinalDirect.

Section SingleConflict.
Import Ralphy.
Local Open Scope sh_scope.
Variable cfg : Config.
Variable conflicts : Git.Tip -> Git.Tip -> list string.
Variable resolver : list string -> Git.Repo -> Z * Git.Repo.

Lemma single_conflict_outcome
    (name : string) (w : World) (ours theirs : Git.Tip)
    (status : Z) (r2 : Git.Repo) :
  let target := ORIGINAL_BASE_BRANCH w in
  let files := conflicts ours theirs in
  let r1 := {| Git.branches := Git.branches (repo w); Git.HEAD := Some target;
               Git.MERGE_HEAD := Some name; Git.unmerged := files |} in
  CREATE_PR cfg = false -> integration_branches w = [] ->
  Git.MERGE_HEAD (repo w) = None ->
  Git.branches (repo w) !! target = Some ours ->
  Git.branches (repo w) !! name = Some theirs ->
  Git.merged_in theirs ours = false -> files <> [] ->
  resolver files r1 = (status, r2) ->
  exists res w',
    final_reconciliation cfg conflicts resolver [name] w = (res, w') /\
    resolutions (added w w') = [files] /\
    (status <> 0%Z -> res = Exit status /\ repo w' = r2) /\
    (status = 0%Z -> Git.unmerged r2 = [] ->
     res = Ok tt /\
     repo w' = (Git.run conflicts (Git.branch_d name) r2).2 /\
     last (added w w') = Some (Echo "All branches merged successfully!")) /\
    (status = 0%Z -> Git.unmerged r2 <> [] ->
     res = Ok tt /\
     repo w' = (Git.run conflicts Git.merge_abort r2).2 /\
     In (Echo ("  " +:+ name)) (added w w') /\
     last (added w w')
     = Some (Echo "Resolve conflicts manually: git merge <branch>") /\
     forall ok, ~ In (Git (Git.branch_d name) ok) (added w w')).
Proof.
  intros target files r1 Hpr Hint HM Hours Htheirs Hnew Hfiles Hres.
  subst files r1. unfold final_reconciliation. rewrite Hpr.
  unfold bind at 1. cbn [read]. unfold bind at 1. cbn [read].
  rewrite Hint. cbn [last]. fold target. unfold merge_agents.
  unfold bind at 1. cbn [echo emit].
  erewrite bind_ok by apply git_run. cbn [repo set_trace set_repo trace].
  assert (Eco : Git.run conflicts (Git.checkout target) (repo w)
                = (true, {| Git.branches := Git.branches (repo w);
                            Git.HEAD := Some target;
                            Git.MERGE_HEAD := Git.MERGE_HEAD (repo w);
                            Git.unmerged := Git.unmerged (repo w) |})).
  { cbn [Git.run]. rewrite Hours. reflexivity. }
  rewrite Eco. cbn [fst snd negb merge_agent_branches].
  unfold bind at 1. unfold bind at 1. cbn [echo emit].
  erewrite bind_ok by apply git_run. cbn [repo set_trace set_repo trace].
  assert (Erun : Git.run conflicts (Git.merge name)
                   {| Git.branches := Git.branches (repo w);
                      Git.HEAD := Some target;
                      Git.MERGE_HEAD := Git.MERGE_HEAD (repo w);
                      Git.unmerged := Git.unmerged (repo w) |}
                 = (false, {| Git.branches := Git.branches (repo w);
                              Git.HEAD := Some target;
                              Git.MERGE_HEAD := Some name;
                              Git.unmerged := conflicts ours theirs |})).
  { cbn [Git.run Git.MERGE_HEAD Git.HEAD Git.branches].
    rewrite HM, Hours, Htheirs, Hnew.
    destruct (conflicts ours theirs); [congruence|reflexivity]. }
  rewrite Erun. cbn [fst snd].
  unfold bind at 1. cbn [echo emit ret app].
  unfold bind at 1. cbn [echo emit resolve_conflicts].
  unfold bind at 1. unfold bind at 1. cbn [echo emit].
  unfold bind at 1. cbn [diff_unmerged read repo set_trace set_repo Git.unmerged].
  destruct (conflicts ours theirs) as [|f fs] eqn:Ef; [congruence|].
  unfold bind at 1. unfold run_resolver at 1.
  cbn [repo set_trace set_repo trace Git.unmerged]. rewrite Hres.
  destruct (Z.eqb_spec status 0) as [Hz|Hnz].
  2:{ (* the engine failed *)
      eexists _, _. split; [reflexivity|].
      erewrite added_app
        by (cbn [trace set_trace set_repo]; rewrite <- !app_assoc; reflexivity).
      split; [reflexivity|]. split; [intros _; split; reflexivity|].
      split; intros; contradiction. }
  unfold bind at 1. cbn [diff_unmerged read repo set_trace set_repo].
  destruct (Git.unmerged r2) as [|g gs] eqn:Eun.
  - (* resolved *)
    unfold bind at 1. cbn [echo emit].
    erewrite bind_ok by apply git_run. cbn [repo set_trace set_repo trace ret].
    eexists _, _. split; [reflexivity|].
    erewrite added_app
      by (cbn [trace set_trace set_repo]; rewrite <- !app_assoc; reflexivity).
    split; [reflexivity|]. split; [intros; contradiction|].
    split; [|intros _ Habs; congruence].
    intros _ _. split; [reflexivity|]. split; [reflexivity|].
    rewrite !app_assoc. apply last_snoc.
  - (* not resolved *)
    unfold bind at 1. cbn [echo emit].
    erewrite bind_ok by apply git_run. cbn [repo set_trace set_repo trace ret app].
    unfold bind at 1. cbn [echo emit for_each].
    unfold bind at 1. unfold bind at 1. cbn [echo emit ret].
    eexists _, _. split; [reflexivity|].
    erewrite added_app
      by (cbn [trace set_trace set_repo]; rewrite <- !app_assoc; reflexivity).
    split; [reflexivity|]. split; [intros; contradiction|].
    split; [intros _ Habs; congruence|].
    intros _ _. split; [reflexivity|]. split; [reflexivity|].
    split.
    { repeat first [progress cbn [app In] | rewrite in_app_iff].
      repeat first [left; reflexivity | right]. }
    split; [rewrite !app_assoc; apply last_snoc|].
    intros ok H.
    repeat first
      [ progress cbn [app In] in H
      | rewrite in_app_iff in H
      | destruct H as [H|H]; [try discriminate|] ];
    try contradiction.
Qed.

End SingleConflict.

(** ** The markdown task source of the script *)

Section ScriptMarkdown.
Import Ralphy.
Local Open Scope string_scope.

Lemma sed_special_not_amp (c : ascii) :
  sed_special c = true -> Ascii.eqb c "&" = false.
Proof. destruct c as [[] [] [] [] [] [] [] []]; try discriminate; reflexivity. Qed.

Lemma ordinary_char (c : ascii) :
  sed_special c = false ->
  Ascii.eqb c backslash = false /\ Ascii.eqb c "/" = false.
Proof.
  destruct c as [[] [] [] [] [] [] [] []]; try discriminate; split; reflexivity.
Qed.

Lemma bre_text_escape (s : string) : bre_text (sed_escape s) = Some s.
Proof.
  induction s as [|c s IH]; [reflexivity|]. cbn [sed_escape].
  destruct (sed_special c) eqn:E.
  - cbn [bre_text]. change (Ascii.eqb backslash backslash) with true. cbn match.
    rewrite E, IH. reflexivity.
  - cbn [bre_text]. rewrite (proj1 (ordinary_char c E)), E, IH. reflexivity.
Qed.

Lemma sed_replacement_escape (t m : string) :
  sed_replacement (sed_escape t) m = Some (amp_expand t m).
Proof.
  induction t as [|c t IH]; [reflexivity|]. cbn [sed_escape amp_expand].
  destruct (sed_special c) eqn:E.
  - cbn [sed_replacement]. change (Ascii.eqb backslash backslash) with true.
    cbn match. rewrite E. cbn [orb]. rewrite IH, (sed_special_not_amp c E).
    reflexivity.
  - cbn [sed_replacement]. destruct (ordinary_char c E) as [-> ->].
    rewrite IH. destruct (Ascii.eqb c "&"); reflexivity.
Qed.

Lemma mark_pattern (task : string) :
  bre_text
    (String "-" (String " " (String backslash (String "["
       (String " " (String backslash (String "]" (String " "
          (sed_escape task)))))))))
  = Some ("- [ ] " ++ task).
Proof.
  cbn [bre_text].
  change (Ascii.eqb backslash backslash) with true.
  change (Ascii.eqb "-" backslash) with false.
  change (Ascii.eqb " " backslash) with false.
  change (sed_special "-") with false.
  change (sed_special " ") with false.
  change (sed_special "[") with true.
  change (sed_special "]") with false.
  change (Ascii.eqb "]" "]") with true.
  cbn [orb]. cbn match. rewrite bre_text_escape. reflexivity.
Qed.

Lemma mark_replacement (task m : string) :
  sed_replacement ("- [x] " ++ sed_escape task) m
  = Some ("- [x] " ++ amp_expand task m).
Proof.
  rewrite checked_cons. cbn [sed_replacement].
  change (Ascii.eqb "-" backslash) with false.
  change (Ascii.eqb " " backslash) with false.
  change (Ascii.eqb "[" backslash) with false.
  change (Ascii.eqb "x" backslash) with false.
  change (Ascii.eqb "]" backslash) with false.
  change (Ascii.eqb "-" "/") with false.
  change (Ascii.eqb " " "/") with false.
  change (Ascii.eqb "[" "/") with false.
  change (Ascii.eqb "x" "/") with false.
  change (Ascii.eqb "]" "/") with false.
  change (Ascii.eqb "-" "&") with false.
  change (Ascii.eqb " " "&") with false.
  change (Ascii.eqb "[" "&") with false.
  change (Ascii.eqb "x" "&") with false.
  change (Ascii.eqb "]" "&") with false.
  cbn match. rewrite sed_replacement_escape. reflexivity.
Qed.

Lemma append_assoc (a b c : string) : (a ++ b) ++ c = a ++ b ++ c.
Proof.
  induction a as [|x a IH]; [reflexivity|].
  change (String x a ++ b) with (String x (a ++ b)).
  change (String x (a ++ b) ++ c) with (String x ((a ++ b) ++ c)).
  rewrite IH. reflexivity.
Qed.

Lemma mark_command (task line : string) :
  sed_s_anchored
    (String "-" (String " " (String backslash (String "["
       (String " " (String backslash (String "]" (String " "
          (sed_escape task)))))))))
    ("- [x] " ++ sed_escape task) line
  = Some (marked_line task line).
Proof.
  unfold sed_s_anchored, marked_line.
  rewrite mark_pattern, mark_replacement.
  destruct (String.prefix ("- [ ] " ++ task) line); [|reflexivity].
  cbn [fmap option_fmap option_map].
  rewrite append_assoc.
  replace (String.length ("- [ ] " ++ task)) with (6 + String.length task)%nat
    by (rewrite unchecked_cons; reflexivity).
  reflexivity.
Qed.

Lemma mark_task_complete_markdown_lines (task : string) (prd : list string) :
  mark_task_complete_markdown task prd = Some (map (marked_line task) prd).
Proof.
  unfold mark_task_complete_markdown.
  induction prd as [|line prd IH]; [reflexivity|].
  cbn [sed_i map]. rewrite mark_command, IH. reflexivity.
Qed.

Lemma amp_expand_plain (t m : string) :
  occurs "&" t = false -> amp_expand t m = t.
Proof.
  induction t as [|c t IH]; [reflexivity|]. cbn [occurs amp_expand].
  intros H. apply orb_false_elim in H as [-> H]. rewrite (IH H). reflexivity.
Qed.

Lemma append_length (a b : string) :
  String.length (a ++ b) = (String.length a + String.length b)%nat.
Proof.
  induction a as [|x a IH]; [reflexivity|].
  change (String x a ++ b) with (String x (a ++ b)).
  cbn [String.length]. rewrite IH. reflexivity.
Qed.

Lemma amp_expand_length (t m : string) :
  (1 <= String.length m)%nat ->
  (String.length t <= String.length (amp_expand t m))%nat.
Proof.
  intros Hm. induction t as [|c t IH]; [cbn; lia|].
  cbn [amp_expand String.length]. destruct (Ascii.eqb c "&").
  - rewrite append_length. lia.
  - cbn [String.length]. lia.
Qed.

Lemma amp_expand_longer (t m : string) :
  (1 <= String.length m)%nat ->
  occurs "&" t = true ->
  (String.length t + String.length m <= String.length (amp_expand t m) + 1)%nat.
Proof.
  intros Hm. induction t as [|c t IH]; [discriminate|].
  cbn [occurs amp_expand String.length].
  destruct (Ascii.eqb c "&") eqn:Ec.
  - intros _. rewrite append_length.
    pose proof (amp_expand_length t m Hm). lia.
  - cbn [orb]. intros H. specialize (IH H). cbn [String.length]. lia.
Qed.

Lemma prefix_same_append (p a b : string) :
  String.prefix (p ++ a) (p ++ b) = String.prefix a b.
Proof.
  induction p as [|x p IH]; [reflexivity|].
  change (String x p ++ a) with (String x (p ++ a)).
  change (String x p ++ b) with (String x (p ++ b)).
  rewrite prefix_cons, Ascii.eqb_refl. exact IH.
Qed.

Lemma prefix_of_append (t r : string) : String.prefix t (t ++ r) = true.
Proof.
  induction t as [|x t IH]; [apply prefix_empty|].
  change (String x t ++ r) with (String x (t ++ r)).
  rewrite prefix_cons, Ascii.eqb_refl. exact IH.
Qed.

Lemma substring_skip (p r : string) :
  forall n, String.substring (String.length p) n (p ++ r) = String.substring 0 n r.
Proof.
  induction p as [|x p IH]; intros n; [reflexivity|].
  change (String x p ++ r) with (String x (p ++ r)).
  cbn [String.length String.substring]. apply IH.
Qed.

Lemma dropPrefix_append (p r : string) :
  Markdown.dropPrefix (String.length p) (p ++ r) = r.
Proof.
  unfold Markdown.dropPrefix. rewrite substring_skip, append_length.
  replace (String.length p + String.length r - String.length p)%nat
    with (String.length r) by lia.
  apply substring_all.
Qed.

Lemma marked_line_match (task rest : string) :
  marked_line task ("- [ ] " ++ task ++ rest)
  = "- [x] " ++ amp_expand task ("- [ ] " ++ task) ++ rest.
Proof.
  unfold marked_line.
  rewrite <- (append_assoc "- [ ] " task rest), prefix_of_append.
  replace (6 + String.length task)%nat with (String.length ("- [ ] " ++ task))
    by (rewrite unchecked_cons; reflexivity).
  rewrite dropPrefix_append. reflexivity.
Qed.

Lemma marked_line_other (task line : string) :
  String.prefix ("- [ ] " ++ task) line = false -> marked_line task line = line.
Proof. unfold marked_line. intros ->. reflexivity. Qed.

Lemma checked_not_open (r : string) : is_open_line ("- [x] " ++ r) = false.
Proof. reflexivity. Qed.

Lemma strip_box_unchecked (r : string) : strip_box ("- [ ] " ++ r) = r.
Proof.
  unfold strip_box.
  replace (String.prefix "- [ ] " ("- [ ] " ++ r)) with true
    by (symmetry; apply prefix_of_append).
  exact (dropPrefix_append "- [ ] " r).
Qed.

Lemma open_unchecked (r : string) : is_open_line ("- [ ] " ++ r) = true.
Proof. unfold is_open_line. rewrite unchecked_cons. reflexivity. Qed.

(** X25: [mark_task_complete_markdown] always rewrites the file, line by
    line.  For a task text without [&], every line that starts with
    [- [ ] ] and the task text gets its box checked, whatever follows
    the text on the line, and every other line is left as it is. *)
Theorem mark_task_complete_markdown_checks_by_prefix
    (task : string) (prd : list string) :
  occurs "&" task = false ->
  exists prd',
    mark_task_complete_markdown task prd = Some prd' /\
    length prd' = length prd /\
    (forall i rest, prd !! i = Some ("- [ ] " ++ task ++ rest) ->
                    prd' !! i = Some ("- [x] " ++ task ++ rest)) /\
    (forall i line, prd !! i = Some line ->
                    String.prefix ("- [ ] " ++ task) line = false ->
                    prd' !! i = Some line).
Proof.
  intros Hamp. exists (map (marked_line task) prd).
  split; [apply mark_task_complete_markdown_lines|].
  split; [apply length_map|]. split.
  - intros i rest Hi. rewrite list_lookup_fmap, Hi. cbn [fmap option_fmap option_map].
    rewrite marked_line_match, (amp_expand_plain _ _ Hamp). reflexivity.
  - intros i line Hi Hp. rewrite list_lookup_fmap, Hi.
    cbn [fmap option_fmap option_map]. rewrite (marked_line_other _ _ Hp).
    reflexivity.
Qed.

Lemma mark_task_complete_markdown_checks_by_prefix_witness :
  exists prd',
    mark_task_complete_markdown "Add login" ["# Tasks"; "- [ ] Add login page"; "- [ ] Add login"]
      = Some prd' /\
    prd' !! 1%nat = Some "- [x] Add login page".
Proof.
  destruct (mark_task_complete_markdown_checks_by_prefix "Add login"
              ["# Tasks"; "- [ ] Add login page"; "- [ ] Add login"] eq_refl)
    as (prd' & E & _ & Hm & _).
  exists prd'. split; [exact E|]. exact (Hm 1%nat " page" eq_refl).
Defined.

(** X26: in a file whose open lines all have the blank after the box,
    marking a task text without [&] takes off the list of
    [get_tasks_markdown] every task that starts with that text, the
    task itself among them, and keeps the other tasks in their order. *)
Theorem marked_task_leaves_the_list (task : string) (prd prd' : list string) :
  occurs "&" task = false ->
  Forall (fun line => is_open_line line = true ->
                      String.prefix "- [ ] " line = true) prd ->
  mark_task_complete_markdown task prd = Some prd' ->
  get_tasks_markdown prd'
  = List.filter (fun t => negb (String.prefix task t)) (get_tasks_markdown prd)
  /\ ~ In task (get_tasks_markdown prd').
Proof.
  intros Hamp Hall E. rewrite mark_task_complete_markdown_lines in E.
  injection E as <-.
  assert (F : get_tasks_markdown (map (marked_line task) prd)
              = List.filter (fun t => negb (String.prefix task t))
                            (get_tasks_markdown prd)).
  { unfold get_tasks_markdown.
    induction Hall as [|line prd Hl _ IH]; [reflexivity|].
    cbn [map List.filter].
    destruct (String.prefix ("- [ ] " ++ task) line) eqn:Ep.
    - apply prefix_app in Ep as [rest ->]. rewrite append_assoc.
      rewrite marked_line_match, checked_not_open, open_unchecked.
      cbn [map List.filter]. rewrite strip_box_unchecked, prefix_of_append.
      cbn [negb]. exact IH.
    - rewrite (marked_line_other _ _ Ep).
      destruct (is_open_line line) eqn:Eo; [|exact IH].
      destruct (prefix_app _ _ (Hl eq_refl)) as [u ->].
      rewrite prefix_same_append in Ep.
      cbn [map List.filter]. rewrite strip_box_unchecked, Ep. cbn [negb].
      f_equal. exact IH. }
  split; [exact F|]. rewrite F. intros Hin.
  apply filter_In in Hin as [_ Hn].
  replace (String.prefix task task) with true in Hn; [discriminate|].
  symmetry. pose proof (prefix_of_append task "") as P.
  replace (task ++ "") with task in P; [exact P|].
  clear. induction task as [|c t IH]; [reflexivity|].
  change (String c t ++ "") with (String c (t ++ "")). rewrite <- IH. reflexivity.
Qed.

Lemma marked_task_leaves_the_list_witness :
  get_tasks_markdown ["- [x] Add login page"; "- [x] Add login"; "- [ ] Log out"]
  = List.filter (fun t => negb (String.prefix "Add login" t))
      (get_tasks_markdown ["- [ ] Add login page"; "- [ ] Add login"; "- [ ] Log out"])
  /\ ~ In "Add login"
       (get_tasks_markdown ["- [x] Add login page"; "- [x] Add login"; "- [ ] Log out"]).
Proof.
  apply (marked_task_leaves_the_list "Add login"
           ["- [ ] Add login page"; "- [ ] Add login"; "- [ ] Log out"]).
  - reflexivity.
  - repeat constructor.
  - vm_compute. reflexivity.
Defined.

(** X27: for a task text with an [&] in it the replacement of the [sed]
    command puts the whole matched text in place of each [&]: the line
    of the task gets its box checked but no longer holds the task
    text, it is longer than the checked line by at least the length of
    the task text and five characters. *)
Theorem ampersand_in_task_garbles_line (task : string) (prd : list string) :
  occurs "&" task = true ->
  exists prd',
    mark_task_complete_markdown task prd = Some prd' /\
    forall i rest, prd !! i = Some ("- [ ] " ++ task ++ rest) ->
      exists text,
        prd' !! i = Some ("- [x] " ++ text ++ rest) /\
        text = amp_expand task ("- [ ] " ++ task) /\
        (2 * String.length task + 5 <= String.length text)%nat /\
        "- [x] " ++ text ++ rest <> "- [x] " ++ task ++ rest.
Proof.
  intros Hamp. exists (map (marked_line task) prd).
  split; [apply mark_task_complete_markdown_lines|].
  intros i rest Hi. exists (amp_expand task ("- [ ] " ++ task)).
  assert (Hlen : (2 * String.length task + 5
                  <= String.length (amp_expand task ("- [ ] " ++ task)))%nat).
  { assert (Hm : String.length ("- [ ] " ++ task) = (6 + String.length task)%nat)
      by (rewrite unchecked_cons; reflexivity).
    pose proof (amp_expand_longer task ("- [ ] " ++ task)) as H.
    rewrite Hm in H. specialize (H ltac:(lia) Hamp). lia. }
  split; [|split; [reflexivity|split; [exact Hlen|]]].
  - rewrite list_lookup_fmap, Hi. cbn [fmap option_fmap option_map].
    rewrite marked_line_match. reflexivity.
  - intros E. apply (f_equal String.length) in E.
    rewrite !append_length in E. lia.
Qed.

Lemma ampersand_in_task_garbles_line_witness :
  exists prd',
    mark_task_complete_markdown "a & b" ["- [ ] a & b"] = Some prd' /\
    prd' !! 0%nat = Some "- [x] a - [ ] a & b b".
Proof.
  destruct (ampersand_in_task_garbles_line "a & b" ["- [ ] a & b"] eq_refl)
    as (prd' & E & H).
  exists prd'. split; [exact E|].
  destruct (H 0%nat "" eq_refl) as (text & Hl & -> & _). exact Hl.
Defined.

Lemma delete_chars_digits (s : string) :
  allChars Markdown.isDigit s = true -> delete_chars is_space s = s.
Proof.
  induction s as [|c s IH]; [reflexivity|]. cbn [allChars delete_chars].
  intros H. apply andb_prop in H as [Hc Hs]. rewrite (IH Hs).
  replace (is_space c) with false; [reflexivity|].
  unfold Markdown.isDigit in Hc. unfold is_space.
  apply andb_prop in Hc as [H1 H2].
  apply Nat.leb_le in H1. apply Nat.leb_le in H2.
  symmetry. apply orb_false_intro.
  - apply andb_false_intro2. apply Nat.leb_gt. lia.
  - apply Nat.eqb_neq. lia.
Qed.

(** X28: the counts of the markdown source.  With an open task in the
    file [count_remaining_markdown] prints the number of tasks that
    [get_tasks_markdown] lists; with none, [grep -c] prints [0] and
    fails, [echo] prints a second [0], and the caller that deletes the
    white space reads [00]. *)
Theorem count_remaining_markdown_output (prd : list string) :
  let n := length (get_tasks_markdown prd) in
  (n = 0%nat -> count_remaining_markdown prd = ["0"; "0"] /\
                tr_d_space (count_remaining_markdown prd) = "00") /\
  (n <> 0%nat -> count_remaining_markdown prd = [showZ (Z.of_nat n)] /\
                 tr_d_space (count_remaining_markdown prd) = showZ (Z.of_nat n)).
Proof.
  unfold get_tasks_markdown, count_remaining_markdown, grep_c.
  rewrite length_map. cbn zeta.
  split; intros Hn.
  - rewrite Hn. split; reflexivity.
  - apply Nat.eqb_neq in Hn. rewrite Hn. split; [reflexivity|].
    cbn [tr_d_space foldr]. rewrite delete_chars_digits by (apply showZ_digits; lia).
    clear. induction (showZ _) as [|c s IH]; [reflexivity|].
    change (String c s ++ "") with (String c (s ++ "")). rewrite IH. reflexivity.
Qed.
End ScriptMarkdown.

(** ** Sample runs of the properties *)

Section RetrySamples.
Import Retry.

Lemma withRetry_without_attempts_witness :
  withRetry (T := unit) (fun _ => Resolved tt)
    {| maxRetries := 0; retryDelay := 1; onRetry := true;
       exponentialBackoff := None; maxDelay := None; jitter := None |}
    (fun _ => 0%Q)
  = Some (Rejected (VError {| message := "All retry attempts failed" |}), []).
Proof. apply withRetry_without_attempts. simpl. lia. Defined.


Lemma withRetry_fixed_delay_witness :
  exists (o : Outcome unit) (tr : list Event),
    withRetry (alwaysFails (fun _ => VError {| message := "boom" |}))
      {| maxRetries := 3; retryDelay := 2; onRetry := true;
         exponentialBackoff := Some false; maxDelay := Some 1%Q; jitter := None |}
      (fun _ => 1 # 2)
    = Some (o, tr) /\
    Forall (fun d => d = 2 * 1000)%Q (sleeps tr).
Proof.
  apply (withRetry_fixed_delay (T := unit)
           (alwaysFails (fun _ => VError {| message := "boom" |}))
           {| maxRetries := 3; retryDelay := 2; onRetry := true;
              exponentialBackoff := Some false; maxDelay := Some 1%Q;
              jitter := None |}
           (fun _ => 1 # 2)).
  reflexivity.
Defined.

Lemma isRetryableError_in_context_witness :
  isRetryableError ("Error: " +:+ "429" +:+ " (try again later)") = true.
Proof.
  apply (isRetryableError_in_context "Error: " "429" " (try again later)").
  reflexivity.
Defined.
End RetrySamples.

Section MarkdownSamples.
Import Markdown.

Lemma task_queries_agree_witness :
  let f := {| data := "- [ ] a"; mtimeMs := 1 |} in
  let this := {| cache := None |} in
  (getNextTask f this).1 = head (getAllTasks f this).1 /\
  (countRemaining f this).1 = List.length (getAllTasks f this).1.
Proof.
  destruct (task_queries_agree {| data := "- [ ] a"; mtimeMs := 1 |}
              {| cache := None |} I) as (Hnext & Hcount & _).
  split; [exact Hnext|exact Hcount].
Defined.

Lemma task_ids_are_line_numbers_witness :
  let f := {| data := "- [ ] a"; mtimeMs := 1 |} in
  NoDup (map id (getAllTasks f {| cache := None |}).1).
Proof.
  destruct (task_ids_are_line_numbers {| data := "- [ ] a"; mtimeMs := 1 |}
              {| cache := None |} I) as (_ & _ & Hnd).
  exact Hnd.
Defined.

Lemma markComplete_removes_listed_task_witness :
  let f := {| data := "- [ ] a"; mtimeMs := 1 |} in
  let this := {| cache := None |} in
  let after := markComplete "1" 2 f (getAllTasks f this).2 in
  S (countRemaining after.1 after.2).1 = (countRemaining f this).1 /\
  (countCompleted after.1 after.2).1 = S (countCompleted f this).1.
Proof.
  destruct (markComplete_removes_listed_task
              {| id := "1"; title := "a"; completed := false |} 2
              {| data := "- [ ] a"; mtimeMs := 1 |} {| cache := None |} I)
    as (_ & Hrem & Hdone).
  - vm_compute. left. reflexivity.
  - split; [exact Hrem|exact Hdone].
Defined.

Lemma markComplete_writes_unix_endings_witness :
  let f := {| data := "- [ ] a"; mtimeMs := 1 |} in
  mtimeMs (markComplete "1" 2 f {| cache := None |}).1 = 2%Z.
Proof.
  destruct (markComplete_writes_unix_endings "1" 1 2
              {| data := "- [ ] a"; mtimeMs := 1 |} {| cache := None |})
    as (_ & Hm & _).
  - reflexivity.
  - vm_compute. split; discriminate.
  - exact Hm.
Defined.

Lemma crlf_file_reads_the_same_witness :
  fileLines {| data := toCRLF "- [ ] a"; mtimeMs := 1 |} = split "- [ ] a".
Proof.
  destruct (crlf_file_reads_the_same "- [ ] a" 1 2) as (Hlines & _).
  - vm_compute. repeat split; discriminate.
  - exact Hlines.
Defined.
End MarkdownSamples.

Section ScriptSamples.
Import Ralphy.

Lemma agents_do_not_share_witness :
  exists d1 b1 w1' d2 b2 w2',
    create_agent_worktree (sample_cfg 0 markdown) never_conflicts "a" 1
      (sample_world [("main", [])] []) = (Ok (d1, b1), w1') /\
    create_agent_worktree (sample_cfg 0 markdown) never_conflicts "a" 2
      (sample_world [("main", [])] []) = (Ok (d2, b2), w2') /\
    d1 <> d2 /\ b1 <> b2.
Proof.
  apply (agents_do_not_share (sample_cfg 0 markdown) never_conflicts "a" "a" 1 2
           (sample_world [("main", [])] []) (sample_world [("main", [])] []));
    lia.
Defined.

Lemma worktree_info_round_trip_witness :
  read_worktree_info (worktree_info ("/tmp/wt/agent-1", "ralphy/agent-1-a"))
  = ("/tmp/wt/agent-1", "ralphy/agent-1-a").
Proof.
  apply (worktree_info_round_trip (sample_cfg 0 markdown) never_conflicts "a" 1
           (sample_world [("main", [])] [])
           (create_agent_worktree (sample_cfg 0 markdown) never_conflicts "a" 1
              (sample_world [("main", [])] [])).2).
  - reflexivity.
  - lia.
  - vm_compute. reflexivity.
Defined.

Lemma issue_num_of_github_task_witness :
  issue_num (github_task 12 "fix: the parser") = showZ 12.
Proof. apply issue_num_of_github_task. lia. Defined.




Lemma first_conflict_blocks_later_merges_witness :
  exists w',
    merge_agent_branches always_conflicts
      ["ralphy/agent-1-a"; "ralphy/agent-2-b"] [] two_conflicts
    = (Ok ["ralphy/agent-1-a"; "ralphy/agent-2-b"], w') /\
    Git.MERGE_HEAD (repo w') = Some "ralphy/agent-1-a" /\
    Git.branches (repo w') = Git.branches (repo two_conflicts).
Proof.
  destruct (first_conflict_blocks_later_merges always_conflicts
              "ralphy/agent-1-a" ["ralphy/agent-2-b"] [] two_conflicts
              "main" ["base"] ["a"])
    as (w' & Hrun & Hopen & _ & Hsame & _).
  - reflexivity.
  - reflexivity.
  - vm_compute. reflexivity.
  - vm_compute. reflexivity.
  - reflexivity.
  - discriminate.
  - exists w'. split; [exact Hrun|]. split; [exact Hopen|exact Hsame].
Defined.


Lemma pull_request_mode_merges_nothing_witness :
  let cfg := {| MAX_PARALLEL := 3; MAX_ITERATIONS := 0; MAX_RETRIES := 3;
                PRD_SOURCE := markdown; CREATE_PR := true;
                WORKTREE_BASE := "/tmp/wt" |} in
  exists w',
    final_reconciliation cfg always_conflicts idle_resolver
      ["ralphy/agent-1-a"; "ralphy/agent-2-b"] two_conflicts = (Ok tt, w') /\
    repo w' = repo two_conflicts /\
    git_commands (added two_conflicts w') = [].
Proof.
  intros cfg.
  destruct (pull_request_mode_merges_nothing cfg always_conflicts idle_resolver
              ["ralphy/agent-1-a"; "ralphy/agent-2-b"] two_conflicts)
    as (w' & Hrun & Hrepo & Hgit & _).
  - reflexivity.
  - exists w'. split; [exact Hrun|]. split; [exact Hrepo|exact Hgit].
Defined.

End ScriptSamples.
